(** * DLO ranking pipeline ([rank_clean.py]): report parser, match processor,
    manual rating adjustments.

    The Python code is embedded shallowly:
    - Python [float] is IEEE binary64, modelled by the kernel's primitive
      floats ([PrimFloat]); Python [int] counters by [nat], the integers read
      from a report by [Z];
    - the player database ([Dict[str, PlayerData]]) and the per-player
      teammate table are [gmap string _]; the rosters of a match, whose
      iteration order the processor depends on, are insertion-ordered
      association lists with the [dict] update written out ([dict_set]);
    - exceptions are an error monad ([result]); an exception aborts the run,
      as it does in [main];
    - the [openskill] rating model is not part of the repository: it is the
      interface [PlackettLuce] below. *)

From Stdlib Require Import PrimFloat ZArith.
From stdpp Require Import base option list strings gmap fin_maps.
From stdpp Require Import sorting.

Open Scope string_scope.
Open Scope list_scope.

(** ** Exceptions *)

Inductive exn : Type :=
  | AssertionError
  | ZeroDivisionError
  | KeyError
  | IndexError
  | StopIteration.

Inductive result (A : Type) : Type :=
  | Ok (a : A)
  | Raise (e : exn).
Arguments Ok {A} a.
Arguments Raise {A} e.

#[global] Instance result_ret : MRet result := λ A a, Ok a.
#[global] Instance result_bind : MBind result := λ A B f m,
  match m with
  | Ok a => f a
  | Raise e => Raise e
  end.

(** A [for] loop whose body may raise: the state is threaded from left to
    right and the first exception ends the loop. *)
Fixpoint for_each {A S : Type} (body : A → S → result S) (l : list A) (s : S)
  : result S :=
  match l with
  | [] => Ok s
  | x :: l' => s' ← body x s; for_each body l' s'
  end.

(** ** Python dictionaries whose order matters *)

Abbreviation dict V := (list (string * V)).

(** [d[k] = v]: an existing key keeps its position, a new key goes last. *)
Fixpoint dict_set {V : Type} (k : string) (v : V) (d : dict V) : dict V :=
  match d with
  | [] => [(k, v)]
  | (k', v') :: d' =>
      if decide (k' = k) then (k, v) :: d' else (k', v') :: dict_set k v d'
  end.

(** [k in d] *)
Definition dict_mem {V : Type} (k : string) (d : dict V) : bool :=
  bool_decide (k ∈ d.*1).

(** [d.pop(k)]: the value and the remaining dictionary; [KeyError] when the
    key is absent. *)
Fixpoint dict_pop {V : Type} (k : string) (d : dict V) : result (V * dict V) :=
  match d with
  | [] => Raise KeyError
  | (k', v') :: d' =>
      if decide (k' = k) then Ok (v', d')
      else '(v, r) ← dict_pop k d'; Ok (v, (k', v') :: r)
  end.

(** ** Data model *)

Abbreviation datetime := Z.

(** [PlackettLuceRating]: the fields of a rating object that the program
    reads. *)
Record Rating : Type := mkRating {
  name : string;
  mu : float;
  sigma : float
}.

(** The rating model [PlackettLuce] of the [openskill] package, which the
    program only calls: its defaults, the two-team update [rate], the draw
    probability [predict_draw] and the conservative score [ordinal] of a
    rating. *)
Class PlackettLuce : Type := {
  model_mu : float;
  model_sigma : float;
  rate : list (list Rating) → list (list Rating);
  predict_draw : list (list Rating) → float;
  ordinal : Rating → float
}.

(** Modelled from the spec: the factory [model.rating(name, mu, sigma)] of the
    absent [openskill] package, "a [rating(name, mu?, sigma?) -> RatingBelief]
    factory with defaults when mu/sigma omitted". *)
Definition rating `{PlackettLuce} (n : string) (m s : option float) : Rating :=
  {| name := n; mu := default model_mu m; sigma := default model_sigma s |}.

(** [PlayerInfo] *)
Record PlayerInfo : Type := mkPlayerInfo {
  player_id : string;
  steam_name : string;
  faction : string
}.

(** A value of [PlayerData['teammates']]: [{"games": _, "wins": _}]. *)
Record TeammateStats : Type := mkTeammateStats {
  games : nat;
  tm_wins : nat
}.

(** [PlayerData] *)
Record PlayerData : Type := mkPlayerData {
  pd_steam_name : string;
  rating_data : Rating;
  player : bool;
  games_played : nat;
  wins : nat;
  ans_games : nat;
  ans_wins : nat;
  osp_games : nat;
  osp_wins : nat;
  history : list (datetime * float);
  teammates : gmap string TeammateStats
}.

(** [MatchData] *)
Record MatchData : Type := mkMatchData {
  valid : bool;
  time : datetime;
  teams : dict (list PlayerInfo);
  winning_team : string;
  avg_dlo : float;
  match_quality : float
}.

Abbreviation Database := (gmap string PlayerData).

(** ** The battle report as [ElementTree] presents it

    [parse_battle_report] reads these nodes of the XML document.  The text of
    [GameStartTimestamp] and [GameDuration] is taken after [int(...)]; the
    text of an element that is present but empty is [None] in ElementTree, so
    [GameFinished] is an [option string]. *)

Record PlayerElement : Type := mkPlayerElement {
  PlayerName : option string;      (* text of [PlayerName], if the element exists *)
  AccountId : option string;       (* text of [AccountId/Value], if it exists *)
  HullKeys : list string           (* texts of [Ships/ShipBattleReport/HullKey] *)
}.

Record TeamElement : Type := mkTeamElement {
  TeamID : option string;
  Players : list PlayerElement
}.

Record Report : Type := mkReport {
  GameStartTimestamp : Z;
  GameDuration : Z;
  GameFinished : option string;
  Teams : list TeamElement;
  WinningTeam : option string
}.

(** ** Report parser: [parse_battle_report] *)

Definition ANS_HULLKEYS : list string :=
  [ "Stock/Sprinter Corvette";
    "Stock/Raines Frigate";
    "Stock/Keystone Destroyer";
    "Stock/Vauxhall Light Cruiser";
    "Stock/Axford Heavy Cruiser";
    "Stock/Solomon Battleship";
    "Stock/Levy Escort Carrier" ].

Definition OSP_HULLKEYS : list string :=
  [ "Stock/Shuttle";
    "Stock/Tugboat";
    "Stock/Journeyman";
    "Stock/Bulk Feeder";
    "Stock/Ore Carrier";
    "Stock/Ocello Cruiser";
    "Stock/Bulk Hauler";
    "Stock/Container Hauler";
    "Stock/Container Hauler Refit" ].

(** [html.escape(s)] of the Python standard library (with [quote=True]).
    The characters are given by their codes: 38 is the ampersand, 60 and 62
    are the angle brackets, 34 is the double quote, 39 the single quote. *)
Fixpoint html_escape (s : string) : string :=
  match s with
  | EmptyString => EmptyString
  | String c s' =>
      (if Ascii.eqb c (Ascii.ascii_of_nat 38) then "&amp;"
       else if Ascii.eqb c (Ascii.ascii_of_nat 60) then "&lt;"
       else if Ascii.eqb c (Ascii.ascii_of_nat 62) then "&gt;"
       else if Ascii.eqb c (Ascii.ascii_of_nat 34) then "&quot;"
       else if Ascii.eqb c (Ascii.ascii_of_nat 39) then "&#x27;"
       else String c EmptyString) +:+ html_escape s'
  end.

(** Truth value of the text of an element: [bool(None)] and [bool('')] are
    [False], every other string is [True]. *)
Definition py_bool (text : option string) : bool :=
  match text with
  | None => false
  | Some s => negb (String.eqb s "")
  end.

(** [all(k.text in KEYS for k in player_hullkeys) and len(player_hullkeys)],
    as a truth value. *)
Definition all_in (keys player_hullkeys : list string) : bool :=
  forallb (λ k, bool_decide (k ∈ keys)) player_hullkeys
  && negb (length player_hullkeys =? 0)%nat.

Definition is_player_ANS : list string → bool := all_in ANS_HULLKEYS.
Definition is_player_OSP : list string → bool := all_in OSP_HULLKEYS.

(** The two guarded assignments to [team_faction] made for one player. *)
Definition update_team_faction (team_faction : string)
  (player_hullkeys : list string) : string :=
  let team_faction :=
    if is_player_ANS player_hullkeys && negb (String.eqb team_faction "OSP")
    then "ANS" else team_faction in
  if is_player_OSP player_hullkeys && negb (String.eqb team_faction "ANS")
  then "OSP" else team_faction.

(** The value of [team_faction] after the loop over the players of a team. *)
Definition team_faction_of (players : list PlayerElement) : string :=
  fold_left (λ tf p, update_team_faction tf (HullKeys p)) players "".

(** The [players] list of a team before the faction is assigned: identifier
    and name, escaped, [''] for a missing element. *)
Definition parse_player (team_faction : string) (p : PlayerElement) : PlayerInfo :=
  {| player_id := from_option html_escape "" (AccountId p);
     steam_name := from_option html_escape "" (PlayerName p);
     faction := team_faction |}.

Definition faction_ok (f : string) : bool :=
  bool_decide (f ∈ ["ANS"; "OSP"]).

(** One iteration of the loop over [./Teams/*]: every player gets the
    faction of the team, then each one is asserted to be ANS or OSP. *)
Definition parse_team (team_element : TeamElement)
  (teams_data : dict (list PlayerInfo)) : result (dict (list PlayerInfo)) :=
  let team_id := default "" (TeamID team_element) in
  let team_faction := team_faction_of (Players team_element) in
  let players := map (parse_player team_faction) (Players team_element) in
  if forallb (λ p, faction_ok (faction p)) players
  then Ok (dict_set team_id players teams_data)
  else Raise AssertionError.

(** The record returned when the basic checks fail. *)
Definition invalid_match (game_time : datetime) : MatchData :=
  {| valid := false; time := game_time; teams := []; winning_team := "None";
     avg_dlo := 0; match_quality := 0 |}.

(** The condition of the first [if] of [parse_battle_report]. *)
Definition basic_checks_fail (root : Report) : bool :=
  (GameStartTimestamp root =? 0)%Z
  || (GameDuration root >? 7000)%Z
  || (GameDuration root <? 200)%Z
  || negb (py_bool (GameFinished root)).

(** [game_time] is the time stamp that [parse_skirmish_report_datetime] reads
    from the file name. *)
Definition parse_battle_report (game_time : datetime) (root : Report)
  : result MatchData :=
  if basic_checks_fail root then Ok (invalid_match game_time)
  else
    teams_data ← for_each parse_team (Teams root) [];
    let winner := default "" (WinningTeam root) in
    Ok {| valid := true; time := game_time; teams := teams_data;
          winning_team := winner; avg_dlo := 0; match_quality := 0 |}.

(** ** Python arithmetic on lists of floats *)

(** [float(n)] for a list length [n]: exact up to [2^53], far beyond the
    length of any roster. *)
Fixpoint float_of_nat (n : nat) : float :=
  match n with
  | O => 0%float
  | S k => PrimFloat.add (float_of_nat k) 1%float
  end.

(** [sum(l)]: starts from [0] and adds from left to right. *)
Definition py_sum (l : list float) : float :=
  fold_left PrimFloat.add l 0%float.

(** [x / n] for a length [n]: division by zero raises. *)
Definition py_div (x : float) (n : nat) : result float :=
  if (n =? 0)%nat then Raise ZeroDivisionError
  else Ok (PrimFloat.div x (float_of_nat n)).

(** ** Match processor: [process_match_result] *)

Definition with_rating (e : PlayerData) (r : Rating) : PlayerData :=
  {| pd_steam_name := pd_steam_name e; rating_data := r; player := player e;
     games_played := games_played e; wins := wins e;
     ans_games := ans_games e; ans_wins := ans_wins e;
     osp_games := osp_games e; osp_wins := osp_wins e;
     history := history e; teammates := teammates e |}.

Definition with_history (e : PlayerData) (h : list (datetime * float)) : PlayerData :=
  {| pd_steam_name := pd_steam_name e; rating_data := rating_data e;
     player := player e;
     games_played := games_played e; wins := wins e;
     ans_games := ans_games e; ans_wins := ans_wins e;
     osp_games := osp_games e; osp_wins := osp_wins e;
     history := h; teammates := teammates e |}.

Definition TEST_PLAYER : string := "TEST_PLAYER".

Section Processor.
Context `{model : PlackettLuce}.

(** The record stored for a player met for the first time. *)
Definition new_player_data (sname pid : string) : PlayerData :=
  {| pd_steam_name := sname; rating_data := rating pid None None;
     player := true;
     games_played := 0; wins := 0;
     ans_games := 0; ans_wins := 0;
     osp_games := 0; osp_wins := 0;
     history := []; teammates := ∅ |}.

(** Body of [for teammate in players], on the teammate table of [pid]. *)
Definition update_teammate (won : bool) (pid : string)
  (db : gmap string TeammateStats) (teammate : PlayerInfo)
  : gmap string TeammateStats :=
  let tid := player_id teammate in
  if decide (pid = tid) then db
  else
    let e := default {| games := 0; tm_wins := 0 |} (db !! tid) in
    <[tid := {| games := S (games e);
                tm_wins := if won then S (tm_wins e) else tm_wins e |}]> db.

(** Body of [for player in players]: get or create the record, collect its
    rating, count the game, the win, the faction and the teammates.  The
    state is the database and the list [team_players]. *)
Definition process_player (winner team_id : string)
  (players : list PlayerInfo) (p : PlayerInfo)
  (st : Database * list Rating) : result (Database * list Rating) :=
  let '(database, team_players) := st in
  let pid := player_id p in
  let e := default (new_player_data (steam_name p) pid) (database !! pid) in
  let team_players := team_players ++ [rating_data e] in
  let won := bool_decide (team_id = winner) in
  if faction_ok (faction p) then
    let is_ans := String.eqb (faction p) "ANS" in
    let is_osp := String.eqb (faction p) "OSP" in
    Ok (<[pid :=
            {| pd_steam_name := pd_steam_name e;
               rating_data := rating_data e;
               player := player e;
               games_played := S (games_played e);
               wins := if won then S (wins e) else wins e;
               ans_games := if is_ans then S (ans_games e) else ans_games e;
               ans_wins :=
                 if is_ans && won then S (ans_wins e) else ans_wins e;
               osp_games := if is_osp then S (osp_games e) else osp_games e;
               osp_wins :=
                 if is_osp && won then S (osp_wins e) else osp_wins e;
               history := history e;
               teammates :=
                 fold_left (update_teammate won pid) players (teammates e)
            |}]> database,
        team_players)
  else Raise AssertionError.

(** Body of [for team_id, players in match_data['teams'].items()]. *)
Definition process_team (winner : string) (team : string * list PlayerInfo)
  (st : Database * dict (list Rating))
  : result (Database * dict (list Rating)) :=
  let '(database, updated_teams) := st in
  let '(team_id, players) := team in
  '(database, team_players) ←
    for_each (process_player winner team_id players) players (database, []);
  Ok (database, dict_set team_id team_players updated_teams).

(** Body of [for player_rating in winner_team + other_team]: the
    placeholder entry of the history. *)
Definition append_history (t : datetime) (player_rating : Rating)
  (database : Database) : result Database :=
  let pid := name player_rating in
  match database !! pid with
  | None => Raise KeyError
  | Some e =>
      Ok (<[pid := with_history e
                     (history e ++ [(t, ordinal (rating_data e))])]> database)
  end.

(** [next(iter(updated_teams))] and the lookup of that key. *)
Definition first_team (updated_teams : dict (list Rating))
  : result (list Rating) :=
  match updated_teams with
  | [] => Raise StopIteration
  | (_, t) :: _ => Ok t
  end.

(** Lines 178-239: the statistics of every participant, the two lists of
    ratings and the placeholder history entries. *)
Definition collect_teams (match_data : MatchData) (database : Database)
  : result (Database * list Rating * list Rating) :=
  let winner := winning_team match_data in
  '(database, updated_teams) ←
    for_each (process_team winner) (teams match_data) (database, []);
  '(winner_team, updated_teams) ← dict_pop winner updated_teams;
  other_team ← first_team updated_teams;
  database ←
    for_each (append_history (time match_data)) (winner_team ++ other_team)
      database;
  Ok (database, winner_team, other_team).

(** The synthetic player appended to a team that is too small. *)
Definition synthetic_player (average_mu average_sigma : float) : Rating :=
  rating TEST_PLAYER (Some average_mu) (Some average_sigma).

(** One of the two [if len(team) < largest_team] blocks. *)
Definition pad_team (team : list Rating) (largest_team : nat)
  : result (list Rating) :=
  if (length team <? largest_team)%nat then
    average_mu ← py_div (py_sum (map mu team)) (length team);
    average_sigma ← py_div (py_sum (map sigma team)) (length team);
    Ok (team ++ repeat (synthetic_player average_mu average_sigma)
                       (largest_team - length team))
  else Ok team.

(** Lines 241-264. *)
Definition balance_teams (winner_team other_team : list Rating)
  : result (list Rating * list Rating) :=
  let largest_team := Nat.max (length winner_team) (length other_team) in
  winner_team' ← pad_team winner_team largest_team;
  other_team' ← pad_team other_team largest_team;
  Ok (winner_team', other_team').

(** The two lists handed to [predict_draw] and [rate], with the database
    as it is at that point. *)
Definition padded_teams (match_data : MatchData) (database : Database)
  : result (Database * list Rating * list Rating) :=
  '(database, winner_team, other_team) ← collect_teams match_data database;
  '(winner_team, other_team) ← balance_teams winner_team other_team;
  Ok (database, winner_team, other_team).

(** Body of the loops over [rated_teams]. *)
Definition write_back (t : datetime) (p : Rating) (database : Database)
  : result Database :=
  if String.eqb (name p) TEST_PLAYER then Ok database
  else
    let pid := name p in
    match database !! pid with
    | None => Raise KeyError
    | Some e =>
        match history e with
        | [] => Raise IndexError
        | _ :: _ =>
            Ok (<[pid := with_history (with_rating e p)
                           (<[pred (length (history e)) := (t, ordinal p)]>
                              (history e))]> database)
        end
    end.

(** The function mutates [match_data], [match_history] and [database] and
    returns nothing: the model returns the three of them. *)
Definition process_match_result (match_data : MatchData)
  (match_history : list MatchData) (database : Database)
  : result (MatchData * list MatchData * Database) :=
  let winner := winning_team match_data in
  if negb (valid match_data) || negb (dict_mem winner (teams match_data))
  then Ok (match_data, match_history, database)
  else
    '(database, winner_team, other_team) ← padded_teams match_data database;
    average_mu ←
      py_div (py_sum (map mu (winner_team ++ other_team)))
             (length winner_team + length other_team);
    average_sigma ←
      py_div (py_sum (map sigma (winner_team ++ other_team)))
             (length winner_team + length other_team);
    let average_dlo :=
      PrimFloat.sub average_mu (PrimFloat.mul 3%float average_sigma) in
    let quality := predict_draw [winner_team; other_team] in
    let match_data :=
      {| valid := valid match_data; time := time match_data;
         teams := teams match_data; winning_team := winning_team match_data;
         avg_dlo := average_dlo; match_quality := quality |} in
    let rated_teams := rate [winner_team; other_team] in
    database ←
      for_each (write_back (time match_data)) (concat rated_teams) database;
    Ok (match_data, match_history ++ [match_data], database).

(** The loop of [main] over the reports, already sorted by time. *)
Definition process_report (report : datetime * Report)
  (st : list MatchData * Database) : result (list MatchData * Database) :=
  let '(match_history, database) := st in
  match_data ← parse_battle_report report.1 report.2;
  '(_, match_history, database) ←
    process_match_result match_data match_history database;
  Ok (match_history, database).

Definition process_reports (reports : list (datetime * Report))
  : result (list MatchData * Database) :=
  for_each process_report reports ([], ∅).

(** The same loop on records that are already parsed. *)
Definition process_match (match_data : MatchData)
  (st : list MatchData * Database) : result (list MatchData * Database) :=
  let '(match_history, database) := st in
  '(_, match_history, database) ←
    process_match_result match_data match_history database;
  Ok (match_history, database).

Definition process_matches (matches : list MatchData)
  (st : list MatchData * Database) : result (list MatchData * Database) :=
  for_each process_match matches st.

(** ** Adjustment applier: [apply_manual_adjustments] *)

Record Adjustment : Type := mkAdjustment {
  steam_id : string;
  adj_steam_name : string;
  mu_adjustment : float;
  reason_for_adjustment : string
}.

(** Body of [for adj in adjustments]. *)
Definition apply_adjustment (database : Database) (adj : Adjustment)
  : Database :=
  match database !! steam_id adj with
  | Some e =>
      let original := rating_data e in
      let adjusted_rating :=
        rating (name original)
               (Some (PrimFloat.add (mu original) (mu_adjustment adj)))
               (Some (sigma original)) in
      <[steam_id adj := with_rating e adjusted_rating]> database
  | None => database
  end.

Definition apply_manual_adjustments (database : Database)
  (adjustments : list Adjustment) : Database :=
  fold_left apply_adjustment adjustments database.

End Processor.

(** ** A concrete rating model and concrete inputs

    A small stand-in for [openskill] with which the functions above can be
    run: the winners gain one point of [mu], the others lose one, names are
    kept; [ordinal] is [mu - 3 sigma]. *)

Module Examples.

Definition example_rate (ts : list (list Rating)) : list (list Rating) :=
  match ts with
  | [] => []
  | w :: rest =>
      map (λ r, mkRating (name r) (PrimFloat.add (mu r) 1) (sigma r)) w
      :: map (map (λ r, mkRating (name r) (PrimFloat.sub (mu r) 1) (sigma r)))
           rest
  end.

Definition example_model : PlackettLuce :=
  {| model_mu := 25;
     model_sigma := PrimFloat.div 25 3;
     rate := example_rate;
     predict_draw := λ ts,
       PrimFloat.div 1 (float_of_nat (S (length (concat ts))));
     ordinal := λ r, PrimFloat.sub (mu r) (PrimFloat.mul 3 (sigma r)) |}.

Definition alice : PlayerInfo := mkPlayerInfo "a" "Alice" "ANS".
Definition bob : PlayerInfo := mkPlayerInfo "b" "Bob" "ANS".
Definition carol : PlayerInfo := mkPlayerInfo "c" "Carol" "OSP".

(** Two against one, the larger team wins. *)
Definition match_2v1 : MatchData :=
  {| valid := true; time := 10;
     teams := [("TeamA", [alice; bob]); ("TeamB", [carol])];
     winning_team := "TeamA"; avg_dlo := 0; match_quality := 0 |}.

(** One against one. *)
Definition match_1v1 : MatchData :=
  {| valid := true; time := 20;
     teams := [("TeamA", [alice]); ("TeamB", [carol])];
     winning_team := "TeamB"; avg_dlo := 0; match_quality := 0 |}.

(** The same identifier twice in one roster. *)
Definition match_twice : MatchData :=
  {| valid := true; time := 30;
     teams := [("TeamA", [alice; alice]); ("TeamB", [carol])];
     winning_team := "TeamA"; avg_dlo := 0; match_quality := 0 |}.

(** Three teams. *)
Definition match_three_teams : MatchData :=
  {| valid := true; time := 50;
     teams := [("TeamA", [alice]); ("TeamB", [bob]); ("TeamC", [carol])];
     winning_team := "TeamA"; avg_dlo := 0; match_quality := 0 |}.

(** A winner that is not one of the teams. *)
Definition match_no_winner : MatchData :=
  {| valid := true; time := 40;
     teams := [("TeamA", [alice]); ("TeamB", [carol])];
     winning_team := "TeamC"; avg_dlo := 0; match_quality := 0 |}.

Definition ans_player (n i : string) : PlayerElement :=
  {| PlayerName := Some n; AccountId := Some i;
     HullKeys := ["Stock/Raines Frigate"; "Stock/Solomon Battleship"] |}.
Definition osp_player (n i : string) : PlayerElement :=
  {| PlayerName := Some n; AccountId := Some i;
     HullKeys := ["Stock/Shuttle"; "Stock/Tugboat"] |}.
Definition idle_player (n i : string) : PlayerElement :=
  {| PlayerName := Some n; AccountId := Some i; HullKeys := [] |}.
Definition mixed_player (n i : string) : PlayerElement :=
  {| PlayerName := Some n; AccountId := Some i;
     HullKeys := ["Stock/Shuttle"; "Stock/Raines Frigate"] |}.

Definition two_teams : list TeamElement :=
  [ {| TeamID := Some "TeamA";
       Players := [ans_player "Alice" "1"; idle_player "Bob" "2"] |};
    {| TeamID := Some "TeamB"; Players := [osp_player "Carol" "3"] |} ].

(** A finished game of the given duration. *)
Definition report_of_duration (d : Z) : Report :=
  {| GameStartTimestamp := 1700000000; GameDuration := d;
     GameFinished := Some "true"; Teams := two_teams;
     WinningTeam := Some "TeamA" |}.

(** A game of plausible length whose [GameFinished] element reads
    [false]. *)
Definition report_unfinished : Report :=
  {| GameStartTimestamp := 1700000000; GameDuration := 1800;
     GameFinished := Some "false"; Teams := two_teams;
     WinningTeam := Some "TeamA" |}.

(** The record that the parser returns for [two_teams]. *)
Definition parsed_two_teams : MatchData :=
  {| valid := true; time := 5;
     teams := [("TeamA", [mkPlayerInfo "1" "Alice" "ANS";
                          mkPlayerInfo "2" "Bob" "ANS"]);
               ("TeamB", [mkPlayerInfo "3" "Carol" "OSP"])];
     winning_team := "TeamA"; avg_dlo := 0; match_quality := 0 |}.

(** A team whose first player fields ANS hulls and whose second fields OSP
    hulls. *)
Definition ans_then_osp : list PlayerElement :=
  [ans_player "Alice" "1"; osp_player "Dave" "4"].

(** A team in which nobody resolves to a faction. *)
Definition report_unresolved : Report :=
  {| GameStartTimestamp := 1700000000; GameDuration := 1800;
     GameFinished := Some "true";
     Teams := [ {| TeamID := Some "TeamA";
                   Players := [idle_player "Alice" "1";
                               mixed_player "Bob" "2"] |};
                {| TeamID := Some "TeamB";
                   Players := [osp_player "Carol" "3"] |} ];
     WinningTeam := Some "TeamA" |}.

(** A team without any player. *)
Definition report_empty_team : Report :=
  {| GameStartTimestamp := 1700000000; GameDuration := 1800;
     GameFinished := Some "true";
     Teams := [ {| TeamID := Some "TeamA"; Players := [] |};
                {| TeamID := Some "TeamB";
                   Players := [osp_player "Carol" "3"] |} ];
     WinningTeam := Some "TeamB" |}.

(** The run of the processor on [match_2v1] from an empty database: the state
    after [collect_teams], and the final state. *)
Definition collected_2v1 : Database * list Rating * list Rating :=
  Eval vm_compute in
    match collect_teams (model := example_model) match_2v1 ∅ with
    | Ok r => r
    | Raise _ => (∅, [], [])
    end.

Definition processed_2v1 : MatchData * list MatchData * Database :=
  Eval vm_compute in
    match process_match_result (model := example_model) match_2v1 [] ∅ with
    | Ok r => r
    | Raise _ => (match_2v1, [], ∅)
    end.

(** The run of the loop over [match_2v1] then [match_1v1]. *)
Definition processed_two_matches : list MatchData * Database :=
  Eval vm_compute in
    match process_matches (model := example_model) [match_2v1; match_1v1]
            ([], ∅) with
    | Ok r => r
    | Raise _ => ([], ∅)
    end.

End Examples.

(** ** Vocabulary of the properties *)

(** A player resolves when all the hulls fielded, at least one, are of one
    faction. *)
Definition resolves (p : PlayerElement) : bool :=
  is_player_ANS (HullKeys p) || is_player_OSP (HullKeys p).

(** Every roster that the loop over the teams stores carries ANS or OSP on
    each of its players. *)
Definition rosters_resolved (d : dict (list PlayerInfo)) : Prop :=
  Forall (λ team, Forall (λ p, faction_ok (faction p) = true) team.2) d.

(** The arithmetic mean of a list of floats. *)
Definition mean (l : list float) : float :=
  PrimFloat.div (py_sum l) (float_of_nat (length l)).

(** The rating stored for a player carries the identifier of that player as
    its name: [process_match_result] creates ratings with [name=player_id],
    stores a rated one under its own name, and [apply_manual_adjustments]
    keeps the name. *)
Definition names_ok (database : Database) : Prop :=
  ∀ pid e, database !! pid = Some e → name (rating_data e) = pid.

(** [games_played] and [history] of a player, zero and empty for a player
    that the database does not know. *)
Definition games_of (database : Database) (pid : string) : nat :=
  from_option games_played 0 (database !! pid).
Definition history_of (database : Database) (pid : string)
  : list (datetime * float) :=
  from_option history [] (database !! pid).

(** The identifiers of the roster entries of a match, team after team. *)
Definition roster_ids (match_data : MatchData) : list string :=
  map player_id (concat (map snd (teams match_data))).

(** How many entries of a list of identifiers are those of [pid]. *)
Fixpoint occurrences (pid : string) (l : list string) : nat :=
  match l with
  | [] => 0
  | x :: l' => (if decide (x = pid) then 1 else 0) + occurrences pid l'
  end.

(** The roster entries of [pid] in a sequence of matches, and the matches of
    the sequence in which [pid] has a roster entry. *)
Definition roster_entries (pid : string) (matches : list MatchData) : nat :=
  sum_list (map (λ m, occurrences pid (roster_ids m)) matches).
Definition matches_of (pid : string) (matches : list MatchData) : nat :=
  length (filter (λ m, pid ∈ roster_ids m) matches).

(** A record that the processor accepts and that has exactly two teams. *)
Definition two_team_match (match_data : MatchData) : bool :=
  valid match_data
  && match teams match_data with
     | [(ta, _); (tb, _)] =>
         negb (String.eqb ta tb)
         && (String.eqb (winning_team match_data) ta
             || String.eqb (winning_team match_data) tb)
     | _ => false
     end.

(** The last entry of the history of [pid] is the time [t] with the ordinal
    of the rating that the database holds for [pid]. *)
Definition history_up_to_date `{PlackettLuce} (t : datetime)
  (database : Database) (pid : string) : Prop :=
  ∃ e, database !! pid = Some e
       ∧ last (history e) = Some (t, ordinal (rating_data e)).

(** What the specification asks of [rate]: the result has the shape and the
    order of the argument, and each rating keeps its name. *)
Definition rate_keeps_names `{PlackettLuce} : Prop :=
  ∀ ts, map (map name) (rate ts) = map (map name) ts.

(** The synthetic rating that the specification describes for a team that is
    smaller than the other: the reserved name, and the arithmetic means of
    [mu] and of [sigma] over the members of the team. *)
Definition padding_of (team : list Rating) : Rating :=
  {| name := TEST_PLAYER;
     mu := mean (map mu team);
     sigma := mean (map sigma team) |}.

(** The database holds for [q] one of the ratings of [l]. *)
Definition holds_rating_of (l : list Rating) (db : Database) (q : string)
  : Prop :=
  ∃ e, db !! q = Some e ∧ rating_data e ∈ l.

(** ** Vocabulary of the further properties *)

(** The records that [process_match_result] does not skip. *)
Definition accepted (match_data : MatchData) : bool :=
  valid match_data
  && dict_mem (winning_team match_data) (teams match_data).

(** What holds of the record of the player [pid] in every database that the
    program builds: the rating is stored under its own name, the player flag
    is set, each game and each win is counted for exactly one of the two
    factions, no faction has more wins than games, the player is not a
    teammate of itself, and every teammate was met at least once and was not
    won with more often than met. *)
Definition record_ok (pid : string) (e : PlayerData) : Prop :=
  name (rating_data e) = pid
  ∧ player e = true
  ∧ ans_games e + osp_games e = games_played e
  ∧ ans_wins e + osp_wins e = wins e
  ∧ (ans_wins e ≤ ans_games e)%nat
  ∧ (osp_wins e ≤ osp_games e)%nat
  ∧ teammates e !! pid = None
  ∧ ∀ t s, teammates e !! t = Some s →
           (1 ≤ games s)%nat ∧ (tm_wins s ≤ games s)%nat.

Definition database_ok (database : Database) : Prop :=
  ∀ pid e, database !! pid = Some e → record_ok pid e.



(** A counter of a player, zero for a player that the database does not
    know. *)
Definition counter_of (f : PlayerData → nat) (database : Database)
  (pid : string) : nat :=
  from_option f 0 (database !! pid).

(** The roster entries of [pid] in the teams [ts], each counted with a weight
    that depends on the team identifier and on the entry. *)
Definition weighted_entries (wt : string → PlayerInfo → nat) (pid : string)
  (ts : dict (list PlayerInfo)) : nat :=
  sum_list
    (map (λ team,
            sum_list
              (map (λ p, if decide (player_id p = pid) then wt team.1 p else 0)
                 team.2))
       ts).

Definition indicator (b : bool) : nat := if b then 1 else 0.

(** The weights of the six counters of a record. *)
Definition every_entry : string → PlayerInfo → nat := λ _ _, 1.
Definition winning_entry (winner : string) : string → PlayerInfo → nat :=
  λ tid _, indicator (bool_decide (tid = winner)).
Definition faction_entry (f : string) : string → PlayerInfo → nat :=
  λ _ p, indicator (String.eqb (faction p) f).
Definition faction_winning_entry (f winner : string)
  : string → PlayerInfo → nat :=
  λ tid p, indicator (String.eqb (faction p) f && bool_decide (tid = winner)).

(** How often [a] has met the teammate [b], and how often won with [b],
    according to the record of [a]. *)
Definition teammate_games (database : Database) (a b : string) : nat :=
  from_option games 0 (database !! a ≫= λ e, teammates e !! b).
Definition teammate_wins (database : Database) (a b : string) : nat :=
  from_option tm_wins 0 (database !! a ≫= λ e, teammates e !! b).

(** The pairs of a roster entry of [a] and a roster entry of [b] in one and
    the same team of [ts], the teams counted with a weight. *)
Definition shared_entries (wt : string → nat) (a b : string)
  (ts : dict (list PlayerInfo)) : nat :=
  sum_list
    (map (λ team,
            wt team.1
            * (occurrences a (map player_id team.2)
               * occurrences b (map player_id team.2)))
       ts).

(** What [process_match_result] leaves of a record when it fills in the two
    metrics. *)
Definition match_summary (m : MatchData)
  : bool * datetime * dict (list PlayerInfo) * string :=
  (valid m, time m, teams m, winning_team m).

(** ** More runs of the concrete model *)

Module MoreExamples.

(** [match_1v1] processed after [match_2v1]. *)
Definition processed_then_1v1 : MatchData * list MatchData * Database :=
  Eval vm_compute in
    match process_match_result (model := Examples.example_model)
            Examples.match_1v1 Examples.processed_2v1.1.2
            Examples.processed_2v1.2 with
    | Ok r => r
    | Raise _ => (Examples.match_1v1, [], ∅)
    end.

(** Three records, the second of which is skipped. *)
Definition three_matches : list MatchData :=
  [Examples.match_2v1; Examples.match_no_winner; Examples.match_1v1].

Definition processed_three_matches : list MatchData * Database :=
  Eval vm_compute in
    match process_matches (model := Examples.example_model) three_matches
            ([], ∅) with
    | Ok r => r
    | Raise _ => ([], ∅)
    end.

(** Three reports: a game of half an hour, a game that is too short, and a
    second game of the same players. *)
Definition three_reports : list (datetime * Report) :=
  [(5%Z, Examples.report_of_duration 1800);
   (6%Z, Examples.report_of_duration 100);
   (7%Z, Examples.report_of_duration 2400)].

Definition processed_three_reports : list MatchData * Database :=
  Eval vm_compute in
    match process_reports (model := Examples.example_model) three_reports with
    | Ok r => r
    | Raise _ => ([], ∅)
    end.

(** Two directives: one for the player [1], one for a player that no report
    mentions. *)
Definition two_adjustments : list Adjustment :=
  [ {| steam_id := "1"; adj_steam_name := "Alice";
       mu_adjustment := 5; reason_for_adjustment := "placement" |};
    {| steam_id := "9"; adj_steam_name := "Nobody";
       mu_adjustment := 2; reason_for_adjustment := "unknown" |} ].

End MoreExamples.

(** The identifier under which [parse_battle_report] files a team element,
    and the roster it files: the players in the order of the document, with
    escaped identifier and name, all with the faction of the team. *)
Definition team_id_of (t : TeamElement) : string := default "" (TeamID t).
Definition roster_of (t : TeamElement) : list PlayerInfo :=
  map (parse_player (team_faction_of (Players t))) (Players t).

(** The characters of a string, and the characters that [html.escape]
    replaces: the angle brackets and the two quotes, and the ampersand. *)
Definition chars (s : string) : list Ascii.ascii :=
  String.list_ascii_of_string s.
Definition markup_char (c : Ascii.ascii) : bool :=
  Ascii.eqb c (Ascii.ascii_of_nat 60) || Ascii.eqb c (Ascii.ascii_of_nat 62)
  || Ascii.eqb c (Ascii.ascii_of_nat 34) || Ascii.eqb c (Ascii.ascii_of_nat 39).
Definition escaped_char (c : Ascii.ascii) : bool :=
  Ascii.eqb c (Ascii.ascii_of_nat 38) || markup_char c.


(** The [mu_adjustment] values of the directives for [pid], in the order of
    the list, and the record [e] with these values added to [mu] one after
    the other. *)
Definition adjustments_for (pid : string) (adjustments : list Adjustment)
  : list float :=
  map mu_adjustment
    (List.filter (λ adj, String.eqb (steam_id adj) pid) adjustments).
Definition adjusted (e : PlayerData) (deltas : list float) : PlayerData :=
  with_rating e
    {| name := name (rating_data e);
       mu := fold_left PrimFloat.add deltas (mu (rating_data e));
       sigma := sigma (rating_data e) |}.

(** ** The two teams that are rated

    The roster of the winning team, and the roster that is rated against it:
    that of the first of the other teams, in the order of the record. *)
Definition winner_roster (match_data : MatchData)
  : option (list PlayerInfo) :=
  snd <$> List.find (λ team, String.eqb team.1 (winning_team match_data))
            (teams match_data).
Definition other_roster (match_data : MatchData)
  : option (list PlayerInfo) :=
  snd <$> List.find
            (λ team, negb (String.eqb team.1 (winning_team match_data)))
            (teams match_data).
Definition rated_ids (match_data : MatchData) : list string :=
  map player_id (default [] (winner_roster match_data)
                 ++ default [] (other_roster match_data)).

(** The rating of a player: the one that the database stores, the initial
    one for a player that the database does not know. *)
Definition rating_of `{PlackettLuce} (database : Database) (pid : string)
  : Rating :=
  from_option rating_data (rating pid None None) (database !! pid).

(** The list of ratings [u] that the loop over the teams collects for the
    team [team]: under the identifier of the team, one rating for each
    player of the roster, with the identifier of the player as its name. *)
Definition collected (team : string * list PlayerInfo)
  (u : string * list Rating) : Prop :=
  u.1 = team.1 ∧ map name u.2 = map player_id team.2.

(** ** The sorted lists of the pages

    [sorted(l, key=k)] is a stable sort; [lt a b] stands for [k(a) < k(b)].
    The result is built from the right: an element is placed before the
    first element of the sorted rest that is not smaller than it, so that of
    two elements with equal keys the one that comes first in [l] comes first.
    With [reverse=True] the comparison is turned around and the order of
    elements with equal keys is still that of [l]. *)
Fixpoint insert_sorted {A : Type} (lt : A → A → bool) (x : A) (l : list A)
  : list A :=
  match l with
  | [] => [x]
  | y :: l' => if lt y x then y :: insert_sorted lt x l' else x :: l
  end.

Definition py_sorted {A : Type} (lt : A → A → bool) (l : list A) : list A :=
  fold_right (insert_sorted lt) [] l.

(** [generate_dlo_plot]: the [x] and the [y] handed to [px.line], [None]
    when the function returns without a plot. *)
Definition generate_dlo_plot (player_data : PlayerData)
  : option (list datetime * list float) :=
  match history player_data with
  | [] => None
  | _ :: _ =>
      let sorted_history :=
        py_sorted (λ a b, (a.1 <? b.1)%Z) (history player_data) in
      Some (map fst sorted_history, map snd sorted_history)
  end.

(** The list [sorted_match_history] of [render_match_history]. *)
Definition sorted_match_history (match_history : list MatchData)
  : list MatchData :=
  py_sorted (λ a b, (time b <? time a)%Z) match_history.

(** ** [get_best_friends] and the numbers of the player page *)

(** An element of the list that [get_best_friends] returns. *)
Record Friend : Type := mkFriend {
  friend_id : string;
  friend_name : string;
  friend_games : nat;
  friend_wins : nat;
  friend_win_rate : float
}.

(** Body of [for teammate_id, stats in player_data['teammates'].items()].
    The quotient of two counters is the quotient of the two floats, as the
    counters are far below [2^53]. *)
Definition add_friend (database : Database) (item : string * TeammateStats)
  (teammates : list Friend) : result (list Friend) :=
  let '(teammate_id, stats) := item in
  if (tm_wins stats =? 0)%nat then Ok teammates
  else
    match database !! teammate_id with
    | Some d =>
        win_rate ← py_div (float_of_nat (tm_wins stats)) (games stats);
        Ok (teammates ++ [ {| friend_id := teammate_id;
                              friend_name := pd_steam_name d;
                              friend_games := games stats;
                              friend_wins := tm_wins stats;
                              friend_win_rate := win_rate |} ])
    | None => Ok teammates
    end.

(** The order of the keys [(-x['wins'], -x['win_rate'])]: two tuples are
    compared at the first position at which they differ. *)
Definition friend_lt (a b : Friend) : bool :=
  if (- Z.of_nat (friend_wins a) =? - Z.of_nat (friend_wins b))%Z
  then PrimFloat.ltb (PrimFloat.opp (friend_win_rate a))
                     (PrimFloat.opp (friend_win_rate b))
  else (- Z.of_nat (friend_wins a) <? - Z.of_nat (friend_wins b))%Z.

(** [teammate_items] are the items of [player_data['teammates']] in the
    order of that dictionary. *)
Definition get_best_friends (teammate_items : list (string * TeammateStats))
  (database : Database) : result (list Friend) :=
  teammates ← for_each (add_friend database) teammate_items [];
  Ok (take 3 (py_sorted friend_lt teammates)).

(** The element that [add_friend] appends for an item, if any. *)
Definition friend_of (database : Database) (item : string * TeammateStats)
  : option Friend :=
  if (tm_wins item.2 =? 0)%nat then None
  else
    d ← database !! item.1;
    Some {| friend_id := item.1;
            friend_name := pd_steam_name d;
            friend_games := games item.2;
            friend_wins := tm_wins item.2;
            friend_win_rate :=
              PrimFloat.div (float_of_nat (tm_wins item.2))
                            (float_of_nat (games item.2)) |}.

(** The numbers that [render_player_page] computes before it writes the
    page.  The counters are integers, and so are their differences. *)
Record PageStats : Type := mkPageStats {
  total_games : Z;
  losses : Z;
  win_rate : float;
  ans_losses : Z;
  ans_win_rate : float;
  osp_losses : Z;
  osp_win_rate : float
}.

(** [w / g if g > 0 else 0] *)
Definition rate_or_zero (w g : nat) : float :=
  if (0 <? g)%nat then PrimFloat.div (float_of_nat w) (float_of_nat g)
  else 0%float.

Definition page_stats (player_data : PlayerData) : PageStats :=
  let total_games := Z.of_nat (games_played player_data) in
  {| total_games := total_games;
     losses := (total_games - Z.of_nat (wins player_data))%Z;
     win_rate := rate_or_zero (wins player_data) (games_played player_data);
     ans_losses :=
       (Z.of_nat (ans_games player_data) - Z.of_nat (ans_wins player_data))%Z;
     ans_win_rate :=
       rate_or_zero (ans_wins player_data) (ans_games player_data);
     osp_losses :=
       (Z.of_nat (osp_games player_data) - Z.of_nat (osp_wins player_data))%Z;
     osp_win_rate :=
       rate_or_zero (osp_wins player_data) (osp_games player_data) |}.

(** ** The match pages: [render_match_details] and [render_match_history] *)

(** [d[k]]: [KeyError] when the key is absent. *)
Fixpoint dict_get {V : Type} (k : string) (d : dict V) : result V :=
  match d with
  | [] => Raise KeyError
  | (k', v) :: d' => if decide (k' = k) then Ok v else dict_get k d'
  end.

(** What a match page shows of its record: the time, the two metrics, and
    for each of the teams [TeamA] and [TeamB] a heading and the players. *)
Record MatchPage : Type := mkMatchPage {
  page_time : datetime;
  page_avg_dlo : float;
  page_match_quality : float;
  heading_a : string;
  players_a : list PlayerInfo;
  heading_b : string;
  players_b : list PlayerInfo
}.

(** [winning_team == team and "Winning Team" or "Losing Team"] *)
Definition team_heading (winning_team team : string) : string :=
  if String.eqb winning_team team then "Winning Team" else "Losing Team".

(** The expressions of the page are evaluated from top to bottom: the
    heading and the players of [TeamA], then those of [TeamB]. *)
Definition render_match_details (match_data : MatchData)
  : result MatchPage :=
  let teams := teams match_data in
  let winning_team := winning_team match_data in
  team_a ← dict_get "TeamA" teams;
  team_b ← dict_get "TeamB" teams;
  Ok {| page_time := time match_data;
        page_avg_dlo := avg_dlo match_data;
        page_match_quality := match_quality match_data;
        heading_a := team_heading winning_team "TeamA";
        players_a := team_a;
        heading_b := team_heading winning_team "TeamB";
        players_b := team_b |}.

(** The loop of [render_match_history] over [sorted_match_history], with
    the pages that it writes. *)
Definition render_match_history (match_history : list MatchData)
  : result (list MatchPage) :=
  for_each (λ match_data pages,
              page ← render_match_details match_data;
              Ok (pages ++ [page]))
    (sorted_match_history match_history) [].

(** The record has a team [TeamA] and a team [TeamB]. *)
Definition has_both_teams (match_data : MatchData) : bool :=
  dict_mem "TeamA" (teams match_data) && dict_mem "TeamB" (teams match_data).

(** The entries of a history are in the order of their times, none of which
    is later than [t]. *)
Definition in_time_order_until (t : datetime) (h : list (datetime * float))
  : Prop :=
  StronglySorted Z.le (map fst h) ∧ Forall (λ x, (x.1 ≤ t)%Z) h.
Definition histories_until (t : datetime) (database : Database) : Prop :=
  ∀ pid e, database !! pid = Some e → in_time_order_until t (history e).

(** ** A report with markup in a player name *)

Module ParserExamples.

(** A game of half an hour in which one player name carries a tag and an
    ampersand. *)
Definition tagged_teams : list TeamElement :=
  [ {| TeamID := Some "TeamA";
       Players := [Examples.ans_player "<b>Tom</b> & co" "1"] |};
    {| TeamID := Some "TeamB";
       Players := [Examples.osp_player "Carol" "3"] |} ].

Definition report_tagged : Report :=
  {| GameStartTimestamp := 1700000000; GameDuration := 1800;
     GameFinished := Some "true"; Teams := tagged_teams;
     WinningTeam := Some "TeamB" |}.

Definition tom : PlayerInfo :=
  mkPlayerInfo "1" "&lt;b&gt;Tom&lt;/b&gt; &amp; co" "ANS".

Definition parsed_tagged : MatchData :=
  {| valid := true; time := 5;
     teams := [("TeamA", [tom]); ("TeamB", [mkPlayerInfo "3" "Carol" "OSP"])];
     winning_team := "TeamB"; avg_dlo := 0; match_quality := 0 |}.

End ParserExamples.

(** ** The record of a player after three reports *)

Module PageExamples.

(** The record of the player [1] in the database of [three_reports], and the
    items of its teammates. *)
Definition alice_record : PlayerData :=
  Eval vm_compute in
    default (new_player_data (model := Examples.example_model) "Alice" "1")
      (MoreExamples.processed_three_reports.2 !! "1").

Definition alice_items : list (string * TeammateStats) :=
  Eval vm_compute in map_to_list (teammates alice_record).

End PageExamples.

(** ** Records with one team and with three teams *)

Module TeamExamples.

(** [match_three_teams] processed on the empty database. *)
Definition processed_three_teams : MatchData * list MatchData * Database :=
  Eval vm_compute in
    match process_match_result (model := Examples.example_model)
            Examples.match_three_teams [] ∅ with
    | Ok r => r
    | Raise _ => (Examples.match_three_teams, [], ∅)
    end.

(** A record with the winning team only, and a record whose second team has
    no player. *)
Definition match_one_team : MatchData :=
  {| valid := true; time := 60;
     teams := [("TeamA", [Examples.alice])];
     winning_team := "TeamA"; avg_dlo := 0; match_quality := 0 |}.

Definition match_empty_team : MatchData :=
  {| valid := true; time := 70;
     teams := [("TeamA", [Examples.alice]); ("TeamB", [])];
     winning_team := "TeamA"; avg_dlo := 0; match_quality := 0 |}.

(** A game between the teams [Red] and [Blue]. *)
Definition report_red_blue : Report :=
  {| GameStartTimestamp := 1700000000; GameDuration := 1800;
     GameFinished := Some "true";
     Teams := [ {| TeamID := Some "Red";
                   Players := [Examples.ans_player "Alice" "1"] |};
                {| TeamID := Some "Blue";
                   Players := [Examples.osp_player "Carol" "3"] |} ];
     WinningTeam := Some "Red" |}.

Definition processed_red_blue : list MatchData * Database :=
  Eval vm_compute in
    match process_reports (model := Examples.example_model)
            [(5%Z, report_red_blue)] with
    | Ok r => r
    | Raise _ => ([], ∅)
    end.

End TeamExamples.

(** * Properties *)

(** ** The error monad and the loops *)

Lemma bind_Ok {A B : Type} (m : result A) (f : A → result B) (b : B) :
  m ≫= f = Ok b → ∃ a, m = Ok a ∧ f a = Ok b.
Proof. destruct m as [a|e]; simpl; [eauto | discriminate]. Qed.

Ltac inv_bind H :=
  let a := fresh "a" in
  let Ha := fresh "Hrun" in
  apply bind_Ok in H; destruct H as (a & Ha & H).

Tactic Notation "bind_inv" hyp(H) "as" simple_intropattern(x) ident(Hx) :=
  apply bind_Ok in H; destruct H as (x & Hx & H).

(** An invariant of the state is kept by a loop whose body keeps it. *)
Lemma for_each_invariant {A S : Type} (body : A → S → result S)
  (Inv : S → Prop) l :
  (∀ x s s', x ∈ l → Inv s → body x s = Ok s' → Inv s') →
  ∀ s s', Inv s → for_each body l s = Ok s' → Inv s'.
Proof.
  induction l as [|x l IH]; intros Hbody s s' Hs Hrun; simpl in Hrun.
  - by inversion Hrun; subst.
  - inv_bind Hrun. eapply IH; [ | | exact Hrun].
    + intros y t t' Hy. apply Hbody. by right.
    + eapply Hbody; [by left | exact Hs | exact Hrun0].
Qed.

(** ** Report parser *)

Lemma update_team_faction_OSP hk : update_team_faction "OSP" hk = "OSP".
Proof.
  unfold update_team_faction. simpl. rewrite andb_false_r. simpl.
  by destruct (is_player_OSP hk).
Qed.

Lemma update_team_faction_ANS hk : update_team_faction "ANS" hk = "ANS".
Proof.
  unfold update_team_faction.
  destruct (is_player_ANS hk); simpl; by rewrite andb_false_r.
Qed.

Lemma update_team_faction_unset hk :
  update_team_faction "" hk =
    if is_player_ANS hk then "ANS"
    else if is_player_OSP hk then "OSP" else "".
Proof.
  unfold update_team_faction.
  destruct (is_player_ANS hk); simpl.
  - by rewrite andb_false_r.
  - by destruct (is_player_OSP hk).
Qed.

Lemma team_faction_fold_OSP players :
  fold_left (λ tf p, update_team_faction tf (HullKeys p)) players "OSP" = "OSP".
Proof.
  induction players as [|p ps IH]; simpl; [done|].
  by rewrite update_team_faction_OSP.
Qed.

Lemma team_faction_fold_ANS players :
  fold_left (λ tf p, update_team_faction tf (HullKeys p)) players "ANS" = "ANS".
Proof.
  induction players as [|p ps IH]; simpl; [done|].
  by rewrite update_team_faction_ANS.
Qed.

Lemma team_faction_first_resolved players :
  team_faction_of players =
    match List.find resolves players with
    | Some p => if is_player_ANS (HullKeys p) then "ANS" else "OSP"
    | None => ""
    end.
Proof.
  unfold team_faction_of.
  induction players as [|p ps IH]; simpl; [done|].
  rewrite update_team_faction_unset.
  assert (resolves p
          = is_player_ANS (HullKeys p) || is_player_OSP (HullKeys p)) as ->
    by reflexivity.
  destruct (is_player_ANS (HullKeys p)) eqn:Ha; simpl.
  - rewrite Ha. apply team_faction_fold_ANS.
  - destruct (is_player_OSP (HullKeys p)) eqn:Ho; simpl.
    + rewrite Ha. apply team_faction_fold_OSP.
    + apply IH.
Qed.

Lemma team_faction_unresolved players :
  Forall (λ p, resolves p = false) players → team_faction_of players = "".
Proof.
  intros Hall. rewrite team_faction_first_resolved.
  destruct (List.find resolves players) as [p|] eqn:Hfind; [|done].
  apply find_some in Hfind as [Hin Hres].
  rewrite Forall_forall in Hall.
  apply list_elem_of_In, Hall in Hin. congruence.
Qed.

Lemma dict_set_Forall {V : Type} (P : string * V → Prop) k v (d : dict V) :
  P (k, v) → Forall P d → Forall P (dict_set k v d).
Proof.
  intros Hv. induction 1 as [|[k' v'] d Hx Hd IH]; simpl.
  - by constructor.
  - destruct (decide (k' = k)); by constructor.
Qed.

Lemma parse_team_resolved t d d' :
  rosters_resolved d → parse_team t d = Ok d' → rosters_resolved d'.
Proof.
  unfold parse_team. intros Hd Hrun.
  destruct (forallb _ _) eqn:Hall; [|discriminate].
  inversion Hrun; subst. apply dict_set_Forall; [|done]. simpl.
  rewrite forallb_forall in Hall. apply Forall_forall.
  intros p Hp. by apply Hall, list_elem_of_In.
Qed.

Lemma parse_team_unresolved t d :
  Players t ≠ [] → Forall (λ p, resolves p = false) (Players t) →
  parse_team t d = Raise AssertionError.
Proof.
  intros Hne Hall. unfold parse_team.
  rewrite (team_faction_unresolved _ Hall).
  destruct (Players t) as [|p ps]; [done|]. reflexivity.
Qed.

Lemma parse_team_raises t d e : parse_team t d = Raise e → e = AssertionError.
Proof.
  unfold parse_team. destruct (forallb _ _); [discriminate|]. congruence.
Qed.

Lemma parse_teams_unresolved ts t d :
  t ∈ ts → (∀ d', parse_team t d' = Raise AssertionError) →
  for_each parse_team ts d = Raise AssertionError.
Proof.
  intros Hin Hbad. revert d.
  induction ts as [|t' ts IH]; intros d; [by apply elem_of_nil in Hin|].
  simpl. apply elem_of_cons in Hin as [->|Hin].
  - by rewrite Hbad.
  - destruct (parse_team t' d) as [d1|e] eqn:Ht'; simpl.
    + by apply IH.
    + by apply parse_team_raises in Ht' as ->.
Qed.

(** C6 (as stated in the specification, refuted): games of exactly 200 and
    of exactly 7000 time units, started, finished and with resolved teams,
    are parsed into a record with [valid = true]; the bounds of the duration
    check are strict. *)
Lemma duration_200_and_7000_are_valid :
  (GameDuration (Examples.report_of_duration 200) ≤ 200)%Z
  ∧ parse_battle_report 5 (Examples.report_of_duration 200)
    = Ok Examples.parsed_two_teams
  ∧ (7000 ≤ GameDuration (Examples.report_of_duration 7000))%Z
  ∧ parse_battle_report 5 (Examples.report_of_duration 7000)
    = Ok Examples.parsed_two_teams
  ∧ valid Examples.parsed_two_teams = true.
Proof. repeat split; vm_compute; congruence. Qed.

(** C7: a report of a started game of plausible duration whose [GameFinished]
    element has the text [false] is parsed into a record with [valid = true]:
    the truth value of the text is taken, not its meaning, and every
    non-empty text is true, so the basic checks come down to the start time
    and the duration. *)
Theorem unfinished_report_is_valid :
  GameFinished Examples.report_unfinished = Some "false"
  ∧ parse_battle_report 5 Examples.report_unfinished
    = Ok Examples.parsed_two_teams
  ∧ valid Examples.parsed_two_teams = true
  ∧ (∀ root s,
        GameFinished root = Some s → s ≠ "" →
        basic_checks_fail root
        = (GameStartTimestamp root =? 0)%Z
          || (GameDuration root >? 7000)%Z
          || (GameDuration root <? 200)%Z).
Proof.
  split; [reflexivity|]. split; [reflexivity|]. split; [reflexivity|].
  intros root s Hs Hne. unfold basic_checks_fail. rewrite Hs. simpl.
  apply String.eqb_neq in Hne. rewrite Hne. simpl. by rewrite orb_false_r.
Qed.

(** C8 (as stated in the specification, refuted): a team marked ANS by its
    first player stays ANS when a later player resolves to OSP. *)
Lemma ans_is_not_overwritten_by_osp :
  is_player_OSP (HullKeys (Examples.osp_player "Dave" "4")) = true
  ∧ update_team_faction "ANS" (HullKeys (Examples.osp_player "Dave" "4"))
    = "ANS"
  ∧ team_faction_of Examples.ans_then_osp = "ANS".
Proof. repeat split. Qed.

(** C8 (amended): a team marked OSP is never changed, a team marked ANS is
    never changed either, and an unmarked team takes the faction of the
    player at hand when all the hulls that player fielded, at least one, are
    in the list of one faction; so the faction of a team is that of its first
    player who resolves, and stays unset when there is none. *)
Theorem team_faction_first_resolution_wins (players : list PlayerElement)
  (player_hullkeys : list string) :
  update_team_faction "OSP" player_hullkeys = "OSP"
  ∧ update_team_faction "ANS" player_hullkeys = "ANS"
  ∧ update_team_faction "" player_hullkeys =
      (if is_player_ANS player_hullkeys then "ANS"
       else if is_player_OSP player_hullkeys then "OSP" else "")
  ∧ team_faction_of players =
      match List.find resolves players with
      | Some p => if is_player_ANS (HullKeys p) then "ANS" else "OSP"
      | None => ""
      end.
Proof.
  split; [apply update_team_faction_OSP|].
  split; [apply update_team_faction_ANS|].
  split; [apply update_team_faction_unset|].
  apply team_faction_first_resolved.
Qed.

(** C10 (as stated in the specification, refuted): a report that passes the
    basic checks and has a team without players, hence a team none of whose
    players resolves, is parsed into a record with [valid = true]; no
    assertion fails. *)
Lemma empty_team_is_not_asserted :
  basic_checks_fail Examples.report_empty_team = false
  ∧ parse_battle_report 5 Examples.report_empty_team
    = Ok {| valid := true; time := 5;
            teams := [("TeamA", []);
                      ("TeamB", [mkPlayerInfo "3" "Carol" "OSP"])];
            winning_team := "TeamB"; avg_dlo := 0; match_quality := 0 |}.
Proof. split; reflexivity. Qed.

(** C10 (amended): when a report passes the basic checks and has a team with
    at least one player none of whose players resolves to ANS or OSP, the
    parser raises [AssertionError]; and in every record that the parser
    returns, each participant of each roster has the faction ANS or OSP. *)
Theorem parse_asserts_resolved_factions (game_time : datetime) (root : Report) :
  (∀ t, basic_checks_fail root = false → t ∈ Teams root →
        Players t ≠ [] → Forall (λ p, resolves p = false) (Players t) →
        parse_battle_report game_time root = Raise AssertionError)
  ∧ (∀ match_data team p,
        parse_battle_report game_time root = Ok match_data →
        team ∈ teams match_data → p ∈ team.2 →
        faction p = "ANS" ∨ faction p = "OSP").
Proof.
  split.
  - intros t Hbasic Hin Hne Hall. unfold parse_battle_report.
    rewrite Hbasic.
    rewrite (parse_teams_unresolved _ t); [done|done|].
    intros d'. by apply parse_team_unresolved.
  - intros md team p Hrun Hteam Hp. unfold parse_battle_report in Hrun.
    destruct (basic_checks_fail root).
    { inversion Hrun; subst. by apply elem_of_nil in Hteam. }
    inv_bind Hrun. inversion Hrun; subst; simpl in *.
    assert (rosters_resolved a) as Hres.
    { eapply (for_each_invariant parse_team rosters_resolved);
        [ | | exact Hrun0].
      - intros x s s' _. apply parse_team_resolved.
      - constructor. }
    unfold rosters_resolved in Hres. rewrite Forall_forall in Hres.
    specialize (Hres _ Hteam). rewrite Forall_forall in Hres.
    specialize (Hres _ Hp). unfold faction_ok in Hres.
    apply bool_decide_eq_true in Hres.
    apply elem_of_cons in Hres as [?|Hres]; [by left|].
    apply elem_of_cons in Hres as [?|Hres]; [by right|].
    by apply elem_of_nil in Hres.
Qed.

(** On [report_unresolved]: the first team has a player without ships and a
    player with hulls of both factions. *)
Lemma parse_asserts_resolved_factions_witness :
  basic_checks_fail Examples.report_unresolved = false
  ∧ parse_battle_report 5 Examples.report_unresolved = Raise AssertionError.
Proof.
  split; [reflexivity|].
  refine (proj1 (parse_asserts_resolved_factions 5 Examples.report_unresolved)
            {| TeamID := Some "TeamA";
               Players := [Examples.idle_player "Alice" "1";
                           Examples.mixed_player "Bob" "2"] |} _ _ _ _).
  - reflexivity.
  - apply elem_of_cons. by left.
  - discriminate.
  - repeat constructor.
Defined.

(** ** Match processor: rejected records *)

Lemma process_match_result_skips `{PlackettLuce} md hist db :
  negb (valid md) || negb (dict_mem (winning_team md) (teams md)) = true →
  process_match_result md hist db = Ok (md, hist, db).
Proof. intros Hskip. unfold process_match_result. by rewrite Hskip. Qed.

(** C1: a record with [valid = false], or whose winning team is not a key of
    its [teams], is returned as it came, with the match history and the
    database as they were. *)
Theorem rejected_match_changes_nothing `{PlackettLuce} (match_data : MatchData)
  (match_history : list MatchData) (database : Database) :
  (valid match_data = false
   ∨ winning_team match_data ∉ (teams match_data).*1) →
  process_match_result match_data match_history database
  = Ok (match_data, match_history, database).
Proof.
  intros Hrej. apply process_match_result_skips.
  destruct Hrej as [->|Hwin]; [done|].
  apply orb_true_iff. right. unfold dict_mem.
  by rewrite bool_decide_eq_false_2.
Qed.

(** On [match_no_winner], whose winner is none of its teams. *)
Lemma rejected_match_changes_nothing_witness :
  (winning_team Examples.match_no_winner
     ∉ (teams Examples.match_no_winner).*1)
  ∧ process_match_result (model := Examples.example_model)
      Examples.match_no_winner [Examples.match_1v1]
      {[ "a" := new_player_data (model := Examples.example_model) "Alice" "a" ]}
    = Ok (Examples.match_no_winner, [Examples.match_1v1],
          {[ "a" := new_player_data (model := Examples.example_model)
                      "Alice" "a" ]}).
Proof.
  assert (winning_team Examples.match_no_winner
            ∉ (teams Examples.match_no_winner).*1) as Hwin.
  { apply (bool_decide_unpack _). vm_compute. exact I. }
  split; [exact Hwin|].
  apply (rejected_match_changes_nothing (H := Examples.example_model)).
  right. exact Hwin.
Defined.

(** C6 (amended): a report whose duration is below 200 or above 7000 is
    parsed into the invalid record, with [valid = false], and processing that
    record leaves the match history and the database as they were. *)
Theorem duration_strictly_out_of_bounds_is_rejected `{PlackettLuce}
  (game_time : datetime) (root : Report)
  (match_history : list MatchData) (database : Database) :
  (GameDuration root < 200 ∨ 7000 < GameDuration root)%Z →
  parse_battle_report game_time root = Ok (invalid_match game_time)
  ∧ valid (invalid_match game_time) = false
  ∧ process_match_result (invalid_match game_time) match_history database
    = Ok (invalid_match game_time, match_history, database).
Proof.
  intros Hdur. split; [|split; [done|]].
  - unfold parse_battle_report.
    assert (basic_checks_fail root = true) as ->; [|done].
    unfold basic_checks_fail.
    destruct Hdur as [Hlow|Hhigh].
    + assert ((GameDuration root <? 200)%Z = true) as -> by lia.
      by rewrite !orb_true_r.
    + assert ((GameDuration root >? 7000)%Z = true) as -> by lia.
      by rewrite !orb_true_r.
  - by apply process_match_result_skips.
Qed.

(** A game of 100 time units. *)
Lemma duration_100_is_rejected :
  (GameDuration (Examples.report_of_duration 100) < 200)%Z
  ∧ parse_battle_report 5 (Examples.report_of_duration 100)
    = Ok (invalid_match 5)
  ∧ valid (invalid_match 5) = false
  ∧ process_match_result (model := Examples.example_model)
      (invalid_match 5) [Examples.match_1v1]
      {[ "a" := new_player_data (model := Examples.example_model) "Alice" "a" ]}
    = Ok (invalid_match 5, [Examples.match_1v1],
          {[ "a" := new_player_data (model := Examples.example_model)
                      "Alice" "a" ]}).
Proof.
  assert (GameDuration (Examples.report_of_duration 100) < 200)%Z as Hlow
    by (simpl; lia).
  split; [exact Hlow|].
  apply (duration_strictly_out_of_bounds_is_rejected
           (H := Examples.example_model)).
  left. exact Hlow.
Defined.

(** ** Adjustment applier *)

Lemma apply_adjustment_names_ok `{PlackettLuce} (db : Database) adj :
  names_ok db → names_ok (apply_adjustment db adj).
Proof.
  intros Hdb. unfold apply_adjustment.
  destruct (db !! steam_id adj) as [e|] eqn:He; [|done].
  intros q e' Hq. rewrite lookup_insert in Hq. case_decide; [|by apply Hdb].
  inversion Hq; subst. simpl. by apply Hdb.
Qed.

Lemma apply_manual_adjustments_names_ok `{PlackettLuce} adjs :
  ∀ db : Database, names_ok db → names_ok (apply_manual_adjustments db adjs).
Proof.
  induction adjs as [|adj adjs IH]; intros db Hdb; [done|].
  simpl. apply IH. by apply apply_adjustment_names_ok.
Qed.

(** C9: one directive for a player of the database replaces the rating of
    that player by one with the old name, the old [sigma] and the old [mu]
    plus [mu_adjustment], and changes nothing else in the record; the records
    of the other players are untouched; a directive for an unknown player
    leaves the database as it was; a list of directives is applied one after
    the other. *)
Theorem manual_adjustment_shifts_mu `{PlackettLuce} (database : Database)
  (adj : Adjustment) (adjustments : list Adjustment) :
  let database' := apply_manual_adjustments database [adj] in
  (∀ e, database !! steam_id adj = Some e →
        ∃ e', database' !! steam_id adj = Some e'
              ∧ mu (rating_data e')
                = PrimFloat.add (mu (rating_data e)) (mu_adjustment adj)
              ∧ sigma (rating_data e') = sigma (rating_data e)
              ∧ name (rating_data e') = name (rating_data e)
              ∧ e' = with_rating e (rating_data e'))
  ∧ (∀ pid, pid ≠ steam_id adj → database' !! pid = database !! pid)
  ∧ (database !! steam_id adj = None → database' = database)
  ∧ apply_manual_adjustments database (adj :: adjustments)
    = apply_manual_adjustments database' adjustments.
Proof.
  simpl. unfold apply_adjustment. repeat split.
  - intros e He. rewrite He. eexists. rewrite lookup_insert_eq.
    split; [reflexivity|]. by repeat split.
  - intros pid Hpid. destruct (database !! steam_id adj); [|done].
    by rewrite lookup_insert_ne.
  - by intros ->.
Qed.

(** ** Match processor: the database through the loops *)

Lemma occurrences_app pid l1 l2 :
  occurrences pid (l1 ++ l2) = occurrences pid l1 + occurrences pid l2.
Proof. induction l1 as [|x l1 IH]; simpl; [done|]. rewrite IH. lia. Qed.

Lemma occurrences_not_in pid l : pid ∉ l → occurrences pid l = 0.
Proof.
  induction l as [|x l IH]; simpl; [done|].
  intros Hnotin. apply not_elem_of_cons in Hnotin as [Hne Hnotin].
  rewrite IH by done. destruct (decide (x = pid)); [congruence|done].
Qed.

Lemma occurrences_NoDup pid l :
  NoDup l → occurrences pid l = if decide (pid ∈ l) then 1 else 0.
Proof.
  induction 1 as [|x l Hx Hnd IH]; cbn [occurrences].
  - case_decide as Hin; [by apply elem_of_nil in Hin | done].
  - destruct (decide (x = pid)) as [->|Hne].
    + rewrite occurrences_not_in by done.
      rewrite decide_True; [done|]. by left.
    + rewrite IH.
      destruct (decide (pid ∈ l)) as [Hin|Hnotin].
      * rewrite decide_True; [done|]. by right.
      * rewrite decide_False; [done|].
        intros [?|?]%elem_of_cons; congruence.
Qed.

Lemma games_of_insert (db : Database) pid e q :
  games_of (<[pid := e]> db) q
  = if decide (pid = q) then games_played e else games_of db q.
Proof. unfold games_of. rewrite lookup_insert. by case_decide. Qed.

Lemma history_of_insert (db : Database) pid e q :
  history_of (<[pid := e]> db) q
  = if decide (pid = q) then history e else history_of db q.
Proof. unfold history_of. rewrite lookup_insert. by case_decide. Qed.

Lemma names_ok_insert (db : Database) pid e :
  names_ok db → name (rating_data e) = pid → names_ok (<[pid := e]> db).
Proof.
  intros Hdb He q e' Hq. rewrite lookup_insert in Hq.
  case_decide; [by inversion Hq; subst | by apply Hdb].
Qed.

Lemma names_ok_empty : names_ok ∅.
Proof. intros q e Hq. by rewrite lookup_empty in Hq. Qed.

Section ProcessorFacts.
Context `{model : PlackettLuce}.

Lemma process_player_Ok winner tid players p db acc db' acc' :
  process_player winner tid players p (db, acc) = Ok (db', acc') →
  let e := default (new_player_data (steam_name p) (player_id p))
             (db !! player_id p) in
  ∃ e', db' = <[player_id p := e']> db
        ∧ rating_data e' = rating_data e
        ∧ history e' = history e
        ∧ games_played e' = S (games_played e)
        ∧ acc' = acc ++ [rating_data e].
Proof.
  unfold process_player. destruct (faction_ok (faction p)); [|discriminate].
  intros Hrun. inversion Hrun; subst; clear Hrun. simpl.
  eexists. split; [reflexivity|]. by repeat split.
Qed.

(** The record that [process_player] reads for a player. *)
Lemma player_entry_facts db p :
  names_ok db →
  let e := default (new_player_data (steam_name p) (player_id p))
             (db !! player_id p) in
  name (rating_data e) = player_id p
  ∧ games_played e = games_of db (player_id p)
  ∧ history e = history_of db (player_id p).
Proof.
  intros Hdb. unfold games_of, history_of.
  destruct (db !! player_id p) as [e|] eqn:He; simpl; [|done].
  split; [by apply Hdb | done].
Qed.

Lemma process_players_spec winner tid players todo :
  ∀ db acc db' acc',
    for_each (process_player winner tid players) todo (db, acc)
    = Ok (db', acc') →
    names_ok db →
    names_ok db'
    ∧ map name acc' = map name acc ++ map player_id todo
    ∧ (∀ q, games_of db' q
            = games_of db q + occurrences q (map player_id todo))
    ∧ (∀ q, history_of db' q = history_of db q)
    ∧ (∀ q, is_Some (db !! q) ∨ q ∈ map player_id todo → is_Some (db' !! q)).
Proof.
  induction todo as [|p todo IH]; intros db acc db' acc' Hrun Hdb.
  - simpl in Hrun. inversion Hrun; subst.
    split; [done|]. split; [|split; [|split]].
    + by rewrite app_nil_r.
    + intros q. simpl. lia.
    + done.
    + intros q [?|Hq]; [done|]. by apply elem_of_nil in Hq.
  - simpl in Hrun. inv_bind Hrun. destruct a as [db1 acc1].
    apply process_player_Ok in Hrun0 as (e' & -> & Hr & Hh & Hg & ->).
    destruct (player_entry_facts db p Hdb) as (Hname & Hgames & Hhist).
    apply IH in Hrun as (Hdb' & Hacc & Hgam & Hhis & Hdom).
    2:{ apply names_ok_insert; [done|]. by rewrite Hr. }
    split; [done|]. split; [|split; [|split]].
    + rewrite Hacc, map_app. simpl. rewrite Hname, <- app_assoc. done.
    + intros q. rewrite Hgam, games_of_insert. simpl.
      destruct (decide (player_id p = q)) as [<-|Hne]; [|lia].
      rewrite Hg, Hgames. lia.
    + intros q. rewrite Hhis, history_of_insert.
      destruct (decide (player_id p = q)) as [<-|Hne]; [|done].
      by rewrite Hh, Hhist.
    + intros q Hq. apply Hdom.
      destruct (decide (player_id p = q)) as [<-|Hne].
      * left. rewrite lookup_insert_eq. eauto.
      * destruct Hq as [Hq|Hq].
        -- left. by rewrite lookup_insert_ne.
        -- simpl in Hq. apply elem_of_cons in Hq as [?|Hq]; [congruence|].
           by right.
Qed.

Lemma append_history_Ok t r db db' :
  append_history t r db = Ok db' →
  ∃ e, db !! name r = Some e
       ∧ db' = <[name r := with_history e
                             (history e ++ [(t, ordinal (rating_data e))])]> db.
Proof.
  unfold append_history. destruct (db !! name r) as [e|]; [|discriminate].
  intros Hrun. inversion Hrun; subst. eauto.
Qed.

Lemma history_up_to_date_insert t (db : Database) pid e q :
  last (history e) = Some (t, ordinal (rating_data e)) →
  history_up_to_date t db q ∨ q = pid →
  history_up_to_date t (<[pid := e]> db) q.
Proof.
  intros He Hq. unfold history_up_to_date. rewrite lookup_insert.
  destruct (decide (pid = q)) as [<-|Hne]; [eauto|].
  destruct Hq as [Hq|Hq]; [done | congruence].
Qed.

Lemma append_loop_spec t l :
  ∀ db db',
    for_each (append_history t) l db = Ok db' →
    names_ok db →
    names_ok db'
    ∧ (∀ q, games_of db' q = games_of db q)
    ∧ (∀ q, length (history_of db' q)
            = length (history_of db q) + occurrences q (map name l))
    ∧ (∀ q, history_up_to_date t db q ∨ q ∈ map name l →
            history_up_to_date t db' q).
Proof.
  induction l as [|r l IH]; intros db db' Hrun Hdb.
  - simpl in Hrun. inversion Hrun; subst.
    split; [done|]. split; [done|]. split.
    + intros q. simpl. lia.
    + intros q [?|Hq]; [done|]. by apply elem_of_nil in Hq.
  - simpl in Hrun. inv_bind Hrun.
    apply append_history_Ok in Hrun0 as (e & He & ->).
    apply IH in Hrun as (Hdb' & Hgam & Hhis & Hup).
    2:{ apply names_ok_insert; [done|]. simpl. by apply Hdb. }
    split; [done|]. split; [|split].
    + intros q. rewrite Hgam, games_of_insert.
      destruct (decide (name r = q)) as [<-|Hne]; [|done].
      unfold games_of. by rewrite He.
    + intros q. rewrite Hhis, history_of_insert. simpl.
      destruct (decide (name r = q)) as [<-|Hne]; [|lia].
      unfold history_of. rewrite He. simpl. rewrite length_app. simpl. lia.
    + intros q Hq. apply Hup.
      destruct (decide (q ∈ map name l)) as [Hin|Hnotin]; [by right|].
      left. apply history_up_to_date_insert.
      * simpl. by rewrite last_snoc.
      * destruct Hq as [Hq|Hq]; [by left|].
        simpl in Hq. apply elem_of_cons in Hq as [?|?]; [by right|done].
Qed.

Lemma write_back_Ok t r db db' :
  write_back t r db = Ok db' →
  (name r = TEST_PLAYER ∧ db' = db)
  ∨ (name r ≠ TEST_PLAYER
     ∧ ∃ e, db !! name r = Some e
            ∧ history e ≠ []
            ∧ db' = <[name r :=
                        with_history (with_rating e r)
                          (<[pred (length (history e)) := (t, ordinal r)]>
                             (history e))]> db).
Proof.
  unfold write_back.
  destruct (String.eqb (name r) TEST_PLAYER) eqn:Htest.
  - apply String.eqb_eq in Htest. intros Hrun. inversion Hrun; subst. by left.
  - apply String.eqb_neq in Htest.
    destruct (db !! name r) as [e|]; [|discriminate].
    destruct (history e) as [|h0 hs] eqn:Hh; [discriminate|].
    intros Hrun. inversion Hrun; subst. right. split; [done|].
    exists e. rewrite Hh. by repeat split.
Qed.

Lemma last_overwritten {A : Type} (h : list A) (v : A) :
  h ≠ [] → last (<[pred (length h) := v]> h) = Some v.
Proof.
  intros Hne. rewrite last_lookup, length_insert.
  apply list_lookup_insert_eq. destruct h; [done|]. simpl. lia.
Qed.

Lemma write_back_loop_spec t l :
  ∀ db db',
    for_each (write_back t) l db = Ok db' →
    names_ok db →
    names_ok db'
    ∧ (∀ q, games_of db' q = games_of db q)
    ∧ (∀ q, length (history_of db' q) = length (history_of db q))
    ∧ (∀ q, history_up_to_date t db q → history_up_to_date t db' q).
Proof.
  induction l as [|r l IH]; intros db db' Hrun Hdb.
  - simpl in Hrun. by inversion Hrun; subst.
  - simpl in Hrun. inv_bind Hrun.
    apply write_back_Ok in Hrun0
      as [[Htest ->]|(Htest & e & He & Hne & ->)]; [by apply IH|].
    apply IH in Hrun as (Hdb' & Hgam & Hhis & Hup).
    2:{ by apply names_ok_insert. }
    split; [done|]. split; [|split].
    + intros q. rewrite Hgam, games_of_insert.
      destruct (decide (name r = q)) as [<-|Hneq]; [|done].
      unfold games_of. by rewrite He.
    + intros q. rewrite Hhis, history_of_insert. simpl.
      destruct (decide (name r = q)) as [<-|Hneq]; [|done].
      unfold history_of. rewrite He. simpl. by rewrite length_insert.
    + intros q Hq. apply Hup. apply history_up_to_date_insert; [|by left].
      simpl. by apply last_overwritten.
Qed.

Lemma write_back_loop_rated t (L : list Rating) l :
  (∀ r, r ∈ l → r ∈ L) →
  ∀ db db',
    for_each (write_back t) l db = Ok db' →
    (∀ q, holds_rating_of L db q → holds_rating_of L db' q)
    ∧ (∀ r, r ∈ l → name r ≠ TEST_PLAYER → holds_rating_of L db' (name r)).
Proof.
  induction l as [|r l IH]; intros HL db db' Hrun.
  - simpl in Hrun. inversion Hrun; subst.
    split; [done|]. intros r Hr. by apply elem_of_nil in Hr.
  - simpl in Hrun. inv_bind Hrun.
    apply IH in Hrun as (Hkeep & Hnew).
    2:{ intros r' Hr'. apply HL. by right. }
    assert (∀ q, holds_rating_of L db q → holds_rating_of L a q) as Hstep.
    { intros q (e & He & HeL).
      apply write_back_Ok in Hrun0
        as [[Htest ->]|(Htest & e0 & He0 & Hne & ->)]; [by exists e|].
      unfold holds_rating_of. rewrite lookup_insert.
      destruct (decide (name r = q)) as [<-|Hneq]; [|by exists e].
      eexists. split; [done|]. simpl. apply HL. by left. }
    split; [by intros q Hq; apply Hkeep, Hstep|].
    intros r' Hr' Htest'. apply elem_of_cons in Hr' as [->|Hr']; [|by apply Hnew].
    apply Hkeep.
    apply write_back_Ok in Hrun0
      as [[Htest ->]|(Htest & e0 & He0 & Hne & ->)]; [done|].
    unfold holds_rating_of. rewrite lookup_insert_eq.
    eexists. split; [done|]. simpl. apply HL. by left.
Qed.

Lemma two_team_match_inv md :
  two_team_match md = true →
  valid md = true
  ∧ ∃ ta ra tb rb,
      teams md = [(ta, ra); (tb, rb)] ∧ ta ≠ tb
      ∧ (winning_team md = ta ∨ winning_team md = tb).
Proof.
  unfold two_team_match. intros Hm.
  apply andb_true_iff in Hm as [Hvalid Hm]. split; [done|].
  destruct (teams md) as [|[ta ra] [|[tb rb] [|? ?]]]; try discriminate.
  apply andb_true_iff in Hm as [Hne Hwin].
  exists ta, ra, tb, rb. split; [done|]. split.
  - apply negb_true_iff in Hne. by apply String.eqb_neq.
  - apply orb_true_iff in Hwin as [Hwin|Hwin]; apply String.eqb_eq in Hwin;
      [by left | by right].
Qed.

Lemma two_team_match_accepted md :
  two_team_match md = true →
  negb (valid md) || negb (dict_mem (winning_team md) (teams md)) = false.
Proof.
  intros (Hvalid & ta & ra & tb & rb & Hteams & Hne & Hwin)%two_team_match_inv.
  rewrite Hvalid, Hteams. simpl. apply negb_false_iff.
  apply bool_decide_eq_true. simpl.
  destruct Hwin as [->| ->]; [by left | by right; left].
Qed.

Lemma process_team_Ok winner tid players db upd db' upd' :
  process_team winner (tid, players) (db, upd) = Ok (db', upd') →
  ∃ l, for_each (process_player winner tid players) players (db, [])
       = Ok (db', l)
       ∧ upd' = dict_set tid l upd.
Proof.
  unfold process_team. intros Hrun.
  bind_inv Hrun as [db1 l] Hplayers. inversion Hrun; subst. eauto.
Qed.

Lemma collect_teams_two md db db1 w o ta ra tb rb :
  teams md = [(ta, ra); (tb, rb)] → ta ≠ tb →
  collect_teams md db = Ok (db1, w, o) →
  ∃ dbA la db0 lb,
    for_each (process_player (winning_team md) ta ra) ra (db, [])
    = Ok (dbA, la)
    ∧ for_each (process_player (winning_team md) tb rb) rb (dbA, [])
      = Ok (db0, lb)
    ∧ ((winning_team md = ta ∧ w = la ∧ o = lb)
       ∨ (winning_team md = tb ∧ w = lb ∧ o = la))
    ∧ for_each (append_history (time md)) (w ++ o) db0 = Ok db1.
Proof.
  intros Hteams Hne. unfold collect_teams. rewrite Hteams. intros Hrun.
  bind_inv Hrun as [db0 upd] Hloop.
  cbn [for_each] in Hloop.
  bind_inv Hloop as [dbA updA] HA.
  bind_inv Hloop as [dbB updB] HB.
  inversion Hloop; subst; clear Hloop.
  apply process_team_Ok in HA as (la & HA & ->).
  apply process_team_Ok in HB as (lb & HB & ->).
  simpl in Hrun. rewrite decide_False in Hrun by done. simpl in Hrun.
  exists dbA, la, db0, lb. split; [done|]. split; [done|].
  destruct (decide (ta = winning_team md)) as [Hta|Hta]; simpl in Hrun.
  - bind_inv Hrun as db1' Happ. inversion Hrun; subst. split; [|done].
    by left.
  - destruct (decide (tb = winning_team md)) as [Htb|Htb]; simpl in Hrun;
      [|discriminate].
    bind_inv Hrun as db1' Happ. inversion Hrun; subst. split; [|done].
    by right.
Qed.

Lemma collect_teams_spec md db db1 w o :
  two_team_match md = true → names_ok db →
  collect_teams md db = Ok (db1, w, o) →
  names_ok db1
  ∧ (∀ q, games_of db1 q = games_of db q + occurrences q (roster_ids md))
  ∧ (∀ q, length (history_of db1 q)
          = length (history_of db q) + occurrences q (roster_ids md))
  ∧ (∀ q, q ∈ roster_ids md → history_up_to_date (time md) db1 q)
  ∧ (∀ q, q ∈ map name (w ++ o) ↔ q ∈ roster_ids md).
Proof.
  intros (Hvalid & ta & ra & tb & rb & Hteams & Hne & Hwin)%two_team_match_inv
    Hdb Hrun.
  destruct (collect_teams_two _ _ _ _ _ _ _ _ _ Hteams Hne Hrun)
    as (dbA & la & db0 & lb & HA & HB & Hwo & Happ).
  apply process_players_spec in HA as (HdbA & HlA & HgA & HhA & _); [|done].
  apply process_players_spec in HB as (Hdb0 & HlB & HgB & HhB & _); [|done].
  apply append_loop_spec in Happ as (Hdb1 & Hg1 & Hh1 & Hup); [|done].
  simpl in HlA, HlB.
  assert (roster_ids md = map player_id ra ++ map player_id rb) as Hids.
  { unfold roster_ids. rewrite Hteams. simpl.
    by rewrite app_nil_r, map_app. }
  assert (∀ q, occurrences q (map name (w ++ o))
               = occurrences q (roster_ids md)) as Hocc.
  { intros q. rewrite Hids, map_app, !occurrences_app.
    destruct Hwo as [(_ & -> & ->)|(_ & -> & ->)]; rewrite HlA, HlB; lia. }
  assert (∀ q, q ∈ map name (w ++ o) ↔ q ∈ roster_ids md) as Hmem.
  { intros q. rewrite Hids, map_app, !elem_of_app.
    destruct Hwo as [(_ & -> & ->)|(_ & -> & ->)]; rewrite HlA, HlB; tauto. }
  split; [done|]. split; [|split; [|split]].
  - intros q. rewrite Hg1, HgB, HgA, Hids, occurrences_app. lia.
  - intros q. rewrite Hh1, HhB, HhA, Hocc. done.
  - intros q Hq. apply Hup. right. by apply Hmem.
  - done.
Qed.

(** The two lists of ratings follow the two rosters entry by entry. *)
Lemma collect_teams_rosters md db db1 w o :
  two_team_match md = true → names_ok db →
  collect_teams md db = Ok (db1, w, o) →
  ∃ tl rw rl,
    (teams md = [(winning_team md, rw); (tl, rl)]
     ∨ teams md = [(tl, rl); (winning_team md, rw)])
    ∧ map name w = map player_id rw
    ∧ map name o = map player_id rl.
Proof.
  intros (Hvalid & ta & ra & tb & rb & Hteams & Hne & Hwin)%two_team_match_inv
    Hdb Hrun.
  destruct (collect_teams_two _ _ _ _ _ _ _ _ _ Hteams Hne Hrun)
    as (dbA & la & db0 & lb & HA & HB & Hwo & Happ).
  apply process_players_spec in HA as (HdbA & HlA & _); [|done].
  apply process_players_spec in HB as (Hdb0 & HlB & _); [|done].
  simpl in HlA, HlB.
  destruct Hwo as [(Hw & -> & ->)|(Hw & -> & ->)].
  - exists tb, ra, rb. rewrite Hw. split; [by left|done].
  - exists ta, rb, ra. rewrite Hw. split; [by right|done].
Qed.

Lemma py_div_Ok x n v :
  py_div x n = Ok v → n ≠ 0 ∧ v = PrimFloat.div x (float_of_nat n).
Proof.
  unfold py_div. destruct n as [|n]; simpl; [discriminate|].
  intros Hrun. by inversion Hrun.
Qed.

Lemma py_div_mean (f : Rating → float) (l : list Rating) :
  l ≠ [] → py_div (py_sum (map f l)) (length l) = Ok (mean (map f l)).
Proof.
  intros Hne. unfold py_div, mean. rewrite length_map.
  destruct l; [done|]. reflexivity.
Qed.

Lemma pad_team_total team n :
  (length team < n → team ≠ []) →
  pad_team team n
  = Ok (team ++ repeat (padding_of team) (n - length team)).
Proof.
  intros Hne. unfold pad_team.
  destruct (length team <? n)%nat eqn:Hlt.
  - apply Nat.ltb_lt in Hlt. rewrite !py_div_mean by auto. reflexivity.
  - apply Nat.ltb_ge in Hlt.
    replace (n - length team) with 0 by lia. simpl. by rewrite app_nil_r.
Qed.

Lemma pad_team_Ok team n team' :
  pad_team team n = Ok team' →
  (length team < n → team ≠ [])
  ∧ team' = team ++ repeat (padding_of team) (n - length team).
Proof.
  intros Hrun.
  assert (length team < n → team ≠ []) as Hne.
  { intros Hlt ->. unfold pad_team in Hrun.
    apply Nat.ltb_lt in Hlt. rewrite Hlt in Hrun. discriminate. }
  split; [done|]. rewrite pad_team_total in Hrun by done. by inversion Hrun.
Qed.

Lemma balance_teams_total w o :
  (length w < length o → w ≠ []) →
  (length o < length w → o ≠ []) →
  balance_teams w o
  = Ok (w ++ repeat (padding_of w) (length o - length w),
        o ++ repeat (padding_of o) (length w - length o)).
Proof.
  intros Hw Ho. unfold balance_teams.
  rewrite (pad_team_total w) by (intros; apply Hw; lia).
  rewrite (pad_team_total o) by (intros; apply Ho; lia).
  simpl.
  replace (length w `max` length o - length w)
    with (length o - length w) by lia.
  replace (length w `max` length o - length o)
    with (length w - length o) by lia.
  reflexivity.
Qed.

Lemma balance_teams_Ok w o w' o' :
  balance_teams w o = Ok (w', o') →
  (length w < length o → w ≠ [])
  ∧ (length o < length w → o ≠ [])
  ∧ w' = w ++ repeat (padding_of w) (length o - length w)
  ∧ o' = o ++ repeat (padding_of o) (length w - length o).
Proof.
  intros Hrun. pose proof Hrun as Hcopy. unfold balance_teams in Hcopy.
  bind_inv Hcopy as w1 Hpw. bind_inv Hcopy as o1 Hpo.
  apply pad_team_Ok in Hpw as [Hw _]. apply pad_team_Ok in Hpo as [Ho _].
  assert (length w < length o → w ≠ []) as Hw' by (intros; apply Hw; lia).
  assert (length o < length w → o ≠ []) as Ho' by (intros; apply Ho; lia).
  split; [done|]. split; [done|].
  rewrite balance_teams_total in Hrun by done. by inversion Hrun.
Qed.

Lemma padded_lengths (w o : list Rating) :
  length (w ++ repeat (padding_of w) (length o - length w))
  = length (o ++ repeat (padding_of o) (length w - length o)).
Proof. rewrite !length_app, !repeat_length. lia. Qed.

Lemma padded_teams_Ok md db db1 w' o' :
  padded_teams md db = Ok (db1, w', o') →
  ∃ w o, collect_teams md db = Ok (db1, w, o)
         ∧ balance_teams w o = Ok (w', o').
Proof.
  unfold padded_teams. intros Hrun.
  bind_inv Hrun as [[db0 w] o] Hcollect.
  bind_inv Hrun as [w1 o1] Hbalance.
  inversion Hrun; subst. eauto.
Qed.

(** What an accepted record goes through. *)
Lemma process_match_result_Ok md hist db md' hist' db' :
  negb (valid md) || negb (dict_mem (winning_team md) (teams md)) = false →
  process_match_result md hist db = Ok (md', hist', db') →
  ∃ db1 w' o' average_mu average_sigma,
    padded_teams md db = Ok (db1, w', o')
    ∧ py_div (py_sum (map mu (w' ++ o'))) (length w' + length o')
      = Ok average_mu
    ∧ py_div (py_sum (map sigma (w' ++ o'))) (length w' + length o')
      = Ok average_sigma
    ∧ md' = {| valid := valid md; time := time md; teams := teams md;
               winning_team := winning_team md;
               avg_dlo :=
                 PrimFloat.sub average_mu (PrimFloat.mul 3 average_sigma);
               match_quality := predict_draw [w'; o'] |}
    ∧ for_each (write_back (time md)) (concat (rate [w'; o'])) db1 = Ok db'
    ∧ hist' = hist ++ [md'].
Proof.
  intros Haccept. unfold process_match_result. rewrite Haccept.
  intros Hrun.
  bind_inv Hrun as [[db1 w'] o'] Hpad.
  bind_inv Hrun as am Hmu. bind_inv Hrun as asg Hsigma.
  bind_inv Hrun as db2 Hwrite. inversion Hrun; subst; clear Hrun.
  exists db1, w', o', am, asg. by repeat split.
Qed.

Lemma process_two_team_spec md hist db md' hist' db' :
  two_team_match md = true → names_ok db →
  process_match_result md hist db = Ok (md', hist', db') →
  names_ok db'
  ∧ (∀ q, games_of db' q = games_of db q + occurrences q (roster_ids md))
  ∧ (∀ q, length (history_of db' q)
          = length (history_of db q) + occurrences q (roster_ids md))
  ∧ (∀ q, q ∈ roster_ids md → history_up_to_date (time md) db' q).
Proof.
  intros Htwo Hdb Hrun.
  apply process_match_result_Ok in Hrun
    as (db1 & w' & o' & am & asg & Hpad & _ & _ & _ & Hwrite & _);
    [|by apply two_team_match_accepted].
  apply padded_teams_Ok in Hpad as (w & o & Hcollect & _).
  apply collect_teams_spec in Hcollect as (Hdb1 & Hg1 & Hh1 & Hup1 & _);
    [|done|done].
  apply write_back_loop_spec in Hwrite as (Hdb' & Hg & Hh & Hup); [|done].
  split; [done|]. split; [|split].
  - intros q. by rewrite Hg, Hg1.
  - intros q. by rewrite Hh, Hh1.
  - intros q Hq. by apply Hup, Hup1.
Qed.

End ProcessorFacts.

(** ** Match processor: when the processing finishes *)

Lemma rated_names `{PlackettLuce} (ts : list (list Rating)) :
  rate_keeps_names → map name (concat (rate ts)) = map name (concat ts).
Proof. intros Hrate. by rewrite !concat_map, Hrate. Qed.

Section ProcessorTotal.
Context `{model : PlackettLuce}.

Lemma process_players_total winner tid players todo :
  Forall (λ p, faction_ok (faction p) = true) todo →
  ∀ db acc, ∃ db' acc',
    for_each (process_player winner tid players) todo (db, acc)
    = Ok (db', acc').
Proof.
  induction 1 as [|p todo Hp Htodo IH]; intros db acc; [by eexists _, _|].
  cbn [for_each].
  destruct (process_player winner tid players p (db, acc))
    as [[db1 acc1]|e] eqn:Hstep.
  - apply IH.
  - unfold process_player in Hstep. rewrite Hp in Hstep. discriminate.
Qed.

Lemma append_loop_total t l :
  ∀ db, (∀ r, r ∈ l → is_Some (db !! name r)) →
        ∃ db', for_each (append_history t) l db = Ok db'.
Proof.
  induction l as [|r l IH]; intros db Hdom; [by eexists|].
  cbn [for_each].
  destruct (Hdom r) as [e He]; [by left|].
  destruct (append_history t r db) as [db1|err] eqn:Hstep;
    [|unfold append_history in Hstep; by rewrite He in Hstep].
  apply append_history_Ok in Hstep as (e' & He' & ->). simpl.
  apply IH. intros r' Hr'. apply lookup_insert_is_Some.
  destruct (decide (name r = name r')); [by left|].
  right. split; [done|]. apply Hdom. by right.
Qed.

Lemma write_back_total t r db :
  name r = TEST_PLAYER ∨ history_up_to_date t db (name r) →
  ∃ db', write_back t r db = Ok db'.
Proof.
  intros Hr. unfold write_back.
  destruct (String.eqb (name r) TEST_PLAYER) eqn:Htest; [by eexists|].
  apply String.eqb_neq in Htest.
  destruct Hr as [?|(e & He & Hlast)]; [done|]. rewrite He.
  destruct (history e); [discriminate|]. by eexists.
Qed.

Lemma write_back_loop_total t l :
  ∀ db, names_ok db →
        (∀ r, r ∈ l → name r = TEST_PLAYER
                      ∨ history_up_to_date t db (name r)) →
        ∃ db', for_each (write_back t) l db = Ok db'.
Proof.
  induction l as [|r l IH]; intros db Hdb Hl; [by eexists|].
  cbn [for_each].
  destruct (write_back_total t r db) as [db1 Hstep]; [apply Hl; by left|].
  rewrite Hstep. simpl.
  assert (for_each (write_back t) [r] db = Ok db1) as Hone
    by (cbn [for_each]; by rewrite Hstep).
  apply write_back_loop_spec in Hone as (Hdb1 & _ & _ & Hup); [|done].
  apply IH; [done|]. intros r' Hr'.
  destruct (Hl r') as [?|?]; [by right | by left | right; by apply Hup].
Qed.

Lemma collect_teams_total md db :
  two_team_match md = true → names_ok db →
  rosters_resolved (teams md) →
  ∃ db1 w o, collect_teams md db = Ok (db1, w, o).
Proof.
  intros (Hvalid & ta & ra & tb & rb & Hteams & Hne & Hwin)%two_team_match_inv
    Hdb Hres.
  unfold rosters_resolved in Hres. rewrite Hteams in Hres.
  apply Forall_cons in Hres as [Hra Hres].
  apply Forall_cons in Hres as [Hrb _]. simpl in Hra, Hrb.
  destruct (process_players_total (winning_team md) ta ra ra Hra db [])
    as (dbA & la & HA).
  destruct (process_players_total (winning_team md) tb rb rb Hrb dbA [])
    as (db0 & lb & HB).
  destruct (process_players_spec _ _ _ _ _ _ _ _ HA Hdb)
    as (HdbA & HlA & _ & _ & HdomA).
  destruct (process_players_spec _ _ _ _ _ _ _ _ HB HdbA)
    as (Hdb0 & HlB & _ & _ & HdomB).
  simpl in HlA, HlB.
  assert (∀ r, r ∈ la ++ lb → is_Some (db0 !! name r)) as Hdom.
  { intros r Hr. apply HdomB.
    apply elem_of_app in Hr as [Hr|Hr].
    - left. apply HdomA. right. rewrite <- HlA.
      apply list_elem_of_In, in_map, list_elem_of_In, Hr.
    - right. rewrite <- HlB.
      apply list_elem_of_In, in_map, list_elem_of_In, Hr. }
  unfold collect_teams. rewrite Hteams. cbn [for_each].
  unfold process_team. rewrite HA. simpl. rewrite HB. simpl.
  rewrite decide_False by done. simpl.
  destruct (decide (ta = winning_team md)) as [Hta|Hta]; simpl.
  - destruct (append_loop_total (time md) (la ++ lb) db0 Hdom)
      as [db1 Happ].
    rewrite Happ. simpl. by eexists _, _, _.
  - destruct (decide (tb = winning_team md)) as [Htb|Htb]; simpl.
    + destruct (append_loop_total (time md) (lb ++ la) db0) as [db1 Happ].
      { intros r Hr. apply Hdom. rewrite elem_of_app in Hr |- *. tauto. }
      rewrite Happ. simpl. by eexists _, _, _.
    + destruct Hwin; congruence.
Qed.

(** A two-team match with resolved factions and two non-empty rosters is
    processed to the end on every database that stores each rating under its
    own name, when [rate] keeps the names. *)
Lemma process_match_result_total md hist db :
  two_team_match md = true → names_ok db →
  rosters_resolved (teams md) →
  Forall (λ team, team.2 ≠ []) (teams md) →
  rate_keeps_names →
  ∃ md' hist' db', process_match_result md hist db = Ok (md', hist', db').
Proof.
  intros Htwo Hdb Hres Hnonempty Hrate.
  destruct (collect_teams_total md db Htwo Hdb Hres) as (db1 & w & o & Hc).
  destruct (collect_teams_rosters _ _ _ _ _ Htwo Hdb Hc)
    as (tl & rw & rl & Hteams & Hw & Ho).
  destruct (collect_teams_spec _ _ _ _ _ Htwo Hdb Hc)
    as (Hdb1 & _ & _ & Hup & Hmem).
  assert (rw ≠ [] ∧ rl ≠ []) as [Hrw Hrl].
  { destruct Hteams as [Ht|Ht]; rewrite Ht in Hnonempty;
      apply Forall_cons in Hnonempty as [H1 Hnonempty];
      apply Forall_cons in Hnonempty as [H2 _]; done. }
  assert (w ≠ []) as Hwne.
  { intros ->. destruct rw; [done | discriminate]. }
  assert (o ≠ []) as Hone.
  { intros ->. destruct rl; [done | discriminate]. }
  unfold process_match_result.
  rewrite (two_team_match_accepted _ Htwo).
  unfold padded_teams. rewrite Hc. simpl.
  rewrite balance_teams_total by done. simpl.
  set (w' := w ++ repeat (padding_of w) (length o - length w)).
  set (o' := o ++ repeat (padding_of o) (length w - length o)).
  assert (length w' + length o' ≠ 0) as Hlen.
  { unfold w'. rewrite length_app. destruct w; [done|]. simpl. lia. }
  unfold py_div. destruct (length w' + length o') as [|n] eqn:Hn; [done|].
  simpl.
  destruct (write_back_loop_total (time md) (concat (rate [w'; o'])) db1)
    as [db' Hwrite]; [done| |].
  - intros r Hr.
    assert (name r ∈ map name (concat (rate [w'; o']))) as Hname
      by (apply list_elem_of_In, in_map, list_elem_of_In, Hr).
    rewrite rated_names in Hname by done.
    simpl in Hname. rewrite app_nil_r in Hname. unfold w', o' in Hname.
    rewrite !map_app, !elem_of_app in Hname.
    assert (∀ team k, name r ∈ map name (repeat (padding_of team) k) →
                      name r = TEST_PLAYER) as Hpad.
    { intros team k Hk. apply list_elem_of_In, in_map_iff in Hk
        as (x & <- & Hx). by apply repeat_spec in Hx as ->. }
    destruct Hname as [[Hn1|Hn1]|[Hn1|Hn1]].
    + right. apply Hup, Hmem. rewrite map_app, elem_of_app. by left.
    + left. by eapply Hpad.
    + right. apply Hup, Hmem. rewrite map_app, elem_of_app. by right.
    + left. by eapply Hpad.
  - rewrite Hwrite. simpl. by eexists _, _, _.
Qed.

End ProcessorTotal.

(** ** Match processor: balancing, metrics, history, counters *)

Lemma example_rate_keeps_names :
  rate_keeps_names (H := Examples.example_model).
Proof.
  intros [|w rest]; [done|]. simpl. f_equal.
  - rewrite map_map. by apply map_ext.
  - rewrite map_map. apply map_ext. intros t. rewrite map_map.
    by apply map_ext.
Qed.

Lemma example_collected :
  collect_teams (model := Examples.example_model) Examples.match_2v1 ∅
  = Ok Examples.collected_2v1.
Proof. vm_compute. reflexivity. Qed.

Lemma example_processed :
  process_match_result (model := Examples.example_model)
    Examples.match_2v1 [] ∅
  = Ok Examples.processed_2v1.
Proof. vm_compute. reflexivity. Qed.

Lemma example_processed_two_matches :
  process_matches (model := Examples.example_model)
    [Examples.match_2v1; Examples.match_1v1] ([], ∅)
  = Ok Examples.processed_two_matches.
Proof. vm_compute. reflexivity. Qed.

(** C3: on a two-team match with resolved factions the ratings of the two
    rosters are collected into the lists [w] (winning roster) and [o] (other
    roster), entry by entry; when the smaller roster is not empty, so that
    its mean exists, the two lists handed on are [w] and [o] with the shorter
    one extended to the length of the longer by copies of a rating named
    [TEST_PLAYER] whose [mu] and [sigma] are the arithmetic means over the
    unpadded list; the two padded lists have the same length, and for
    rosters of equal size they are [w] and [o] themselves. *)
Theorem smaller_team_is_padded_with_its_mean `{PlackettLuce}
  (match_data : MatchData) (database : Database) :
  two_team_match match_data = true →
  names_ok database →
  rosters_resolved (teams match_data) →
  ∃ database1 w o tl rw rl,
    collect_teams match_data database = Ok (database1, w, o)
    ∧ (teams match_data = [(winning_team match_data, rw); (tl, rl)]
       ∨ teams match_data = [(tl, rl); (winning_team match_data, rw)])
    ∧ map name w = map player_id rw
    ∧ map name o = map player_id rl
    ∧ ((length rw < length rl → rw ≠ []) →
       (length rl < length rw → rl ≠ []) →
       let w' := w ++ repeat (padding_of w) (length rl - length rw) in
       let o' := o ++ repeat (padding_of o) (length rw - length rl) in
       padded_teams match_data database = Ok (database1, w', o')
       ∧ length w' = length o'
       ∧ (length rw = length rl → w' = w ∧ o' = o)).
Proof.
  intros Htwo Hdb Hres.
  destruct (collect_teams_total _ _ Htwo Hdb Hres) as (db1 & w & o & Hc).
  destruct (collect_teams_rosters _ _ _ _ _ Htwo Hdb Hc)
    as (tl & rw & rl & Hteams & Hw & Ho).
  exists db1, w, o, tl, rw, rl.
  split; [done|]. split; [done|]. split; [done|]. split; [done|].
  assert (length w = length rw) as Hlw
    by (rewrite <- (length_map name w), Hw; apply length_map).
  assert (length o = length rl) as Hlo
    by (rewrite <- (length_map name o), Ho; apply length_map).
  rewrite <- Hlw, <- Hlo. intros Hrw Hrl w' o'.
  assert (length w < length o → w ≠ []) as Hwne.
  { intros Hlt ->. simpl in Hlw. destruct rw; [|discriminate].
    apply Hrw; [|done]. simpl. lia. }
  assert (length o < length w → o ≠ []) as Hone.
  { intros Hlt ->. simpl in Hlo. destruct rl; [|discriminate].
    apply Hrl; [|done]. simpl. lia. }
  split; [|split].
  - unfold padded_teams. rewrite Hc. simpl.
    by rewrite balance_teams_total.
  - apply padded_lengths.
  - intros Heq. unfold w', o'. rewrite Heq, Nat.sub_diag. simpl.
    by rewrite !app_nil_r.
Qed.

(** On [match_2v1] the single rating of the other team is joined by one
    synthetic rating with the same [mu] and [sigma]. *)
Lemma smaller_team_is_padded_with_its_mean_witness :
  padded_teams (model := Examples.example_model) Examples.match_2v1 ∅
  = Ok (Examples.collected_2v1.1.1,
        [mkRating "a" 25 (PrimFloat.div 25 3);
         mkRating "b" 25 (PrimFloat.div 25 3)],
        [mkRating "c" 25 (PrimFloat.div 25 3);
         mkRating TEST_PLAYER 25 (PrimFloat.div 25 3)]).
Proof.
  destruct (smaller_team_is_padded_with_its_mean
              (H := Examples.example_model) Examples.match_2v1 ∅)
    as (db1 & w & o & tl & rw & rl & Hc & Hteams & _ & _ & Hpad).
  - reflexivity.
  - apply names_ok_empty.
  - repeat constructor.
  - rewrite example_collected in Hc. unfold Examples.collected_2v1 in Hc.
    inversion Hc; subst db1 w o; clear Hc.
    destruct Hteams as [Ht|Ht]; simpl in Ht; inversion Ht; subst tl rw rl.
    destruct Hpad as [Hpad _]; [discriminate|discriminate|].
    exact Hpad.
Defined.

(** C4: when an accepted record has been processed, its [avg_dlo] is the mean
    of [mu] minus three times the mean of [sigma], both over the
    concatenation of the two padded lists, and its [match_quality] is
    [predict_draw] of the two padded lists; the padded lists are those
    computed from the database before [rate] is called, and the database
    returned is the one into which the result of [rate] on these lists is
    written afterwards.  A two-team match with resolved factions and two
    non-empty rosters is processed to the end when [rate] keeps the names. *)
Theorem metrics_are_of_the_padded_teams `{PlackettLuce}
  (match_data : MatchData) (match_history : list MatchData)
  (database : Database) :
  valid match_data = true →
  winning_team match_data ∈ (teams match_data).*1 →
  (∀ match_data' match_history' database',
      process_match_result match_data match_history database
      = Ok (match_data', match_history', database') →
      ∃ database1 w' o',
        padded_teams match_data database = Ok (database1, w', o')
        ∧ length w' = length o'
        ∧ avg_dlo match_data'
          = PrimFloat.sub (mean (map mu (w' ++ o')))
              (PrimFloat.mul 3 (mean (map sigma (w' ++ o'))))
        ∧ match_quality match_data' = predict_draw [w'; o']
        ∧ for_each (write_back (time match_data)) (concat (rate [w'; o']))
            database1
          = Ok database'
        ∧ match_history' = match_history ++ [match_data'])
  ∧ (two_team_match match_data = true →
     names_ok database →
     rosters_resolved (teams match_data) →
     Forall (λ team, team.2 ≠ []) (teams match_data) →
     rate_keeps_names →
     ∃ match_data' match_history' database',
       process_match_result match_data match_history database
       = Ok (match_data', match_history', database')).
Proof.
  intros Hvalid Hwin. split; [|by apply process_match_result_total].
  intros md' hist' db' Hrun.
  apply process_match_result_Ok in Hrun
    as (db1 & w' & o' & am & asg & Hpad & Hmu & Hsigma & -> & Hwrite & ->).
  2:{ rewrite Hvalid. simpl. apply negb_false_iff.
      by apply bool_decide_eq_true. }
  exists db1, w', o'. split; [done|].
  apply py_div_Ok in Hmu as [_ ->]. apply py_div_Ok in Hsigma as [_ ->].
  split; [|split; [|by repeat split]].
  - apply padded_teams_Ok in Hpad as (w & o & _ & Hbal).
    apply balance_teams_Ok in Hbal as (_ & _ & -> & ->).
    apply padded_lengths.
  - simpl. unfold mean. by rewrite !length_map, !length_app.
Qed.

(** On [match_2v1]: four ratings of [mu = 25] and [sigma = 25/3]. *)
Lemma metrics_are_of_the_padded_teams_witness :
  process_match_result (model := Examples.example_model)
    Examples.match_2v1 [] ∅
  = Ok Examples.processed_2v1
  ∧ ∃ database1 w' o',
      padded_teams (model := Examples.example_model) Examples.match_2v1 ∅
      = Ok (database1, w', o')
      ∧ length w' = length o'
      ∧ avg_dlo Examples.processed_2v1.1.1
        = PrimFloat.sub (mean (map mu (w' ++ o')))
            (PrimFloat.mul 3 (mean (map sigma (w' ++ o'))))
      ∧ match_quality Examples.processed_2v1.1.1
        = predict_draw (PlackettLuce := Examples.example_model) [w'; o']
      ∧ for_each (write_back (model := Examples.example_model) 10)
          (concat (rate (PlackettLuce := Examples.example_model) [w'; o']))
          database1
        = Ok Examples.processed_2v1.2
      ∧ Examples.processed_2v1.1.2 = [] ++ [Examples.processed_2v1.1.1].
Proof.
  split; [exact example_processed|].
  refine (proj1 (metrics_are_of_the_padded_teams
                   (H := Examples.example_model)
                   Examples.match_2v1 [] ∅ _ _) _ _ _ example_processed).
  - reflexivity.
  - apply (bool_decide_unpack _). vm_compute. exact I.
Defined.

(** C2: when a two-team match has been processed, every participant of its
    rosters is in the database and the last entry of the history of that
    participant is the time of the match with the ordinal of the rating that
    the database now holds for that participant; when [rate] keeps the names,
    that rating is, for every participant not named [TEST_PLAYER], one of the
    ratings that [rate] returned for the two padded lists, so the entry is
    the one written after the update and not the placeholder.  The database
    the match is processed on stores each rating under its own name, as every
    database built by the program does.  A two-team match with resolved
    factions and two non-empty rosters is processed to the end when [rate]
    keeps the names. *)
Theorem last_history_entry_is_post_update `{PlackettLuce}
  (match_data : MatchData) (match_history : list MatchData)
  (database : Database) :
  two_team_match match_data = true →
  names_ok database →
  (∀ match_data' match_history' database',
      process_match_result match_data match_history database
      = Ok (match_data', match_history', database') →
      ∀ pid, pid ∈ roster_ids match_data →
        ∃ e, database' !! pid = Some e
             ∧ last (history e)
               = Some (time match_data, ordinal (rating_data e))
             ∧ (rate_keeps_names → pid ≠ TEST_PLAYER →
                ∃ database1 w' o',
                  padded_teams match_data database = Ok (database1, w', o')
                  ∧ rating_data e ∈ concat (rate [w'; o'])))
  ∧ (rosters_resolved (teams match_data) →
     Forall (λ team, team.2 ≠ []) (teams match_data) →
     rate_keeps_names →
     ∃ match_data' match_history' database',
       process_match_result match_data match_history database
       = Ok (match_data', match_history', database')).
Proof.
  intros Htwo Hdb. split; [|by apply process_match_result_total].
  intros md' hist' db' Hrun pid Hpid.
  destruct (process_two_team_spec _ _ _ _ _ _ Htwo Hdb Hrun)
    as (_ & _ & _ & Hup).
  destruct (Hup pid Hpid) as (e & He & Hlast).
  exists e. split; [done|]. split; [done|].
  intros Hrate Hreal.
  apply process_match_result_Ok in Hrun
    as (db1 & w' & o' & am & asg & Hpad & _ & _ & _ & Hwrite & _);
    [|by apply two_team_match_accepted].
  exists db1, w', o'. split; [done|].
  apply padded_teams_Ok in Hpad as (w & o & Hcollect & Hbal).
  apply collect_teams_spec in Hcollect as (_ & _ & _ & _ & Hmem);
    [|done|done].
  apply balance_teams_Ok in Hbal as (_ & _ & Hw' & Ho').
  assert (pid ∈ map name (concat (rate [w'; o']))) as Hin.
  { rewrite rated_names by done. simpl. rewrite app_nil_r.
    apply Hmem in Hpid. rewrite map_app in Hpid |- *.
    rewrite Hw', Ho', !map_app.
    rewrite !elem_of_app. apply elem_of_app in Hpid as [Hpid|Hpid]; tauto. }
  apply list_elem_of_In, in_map_iff in Hin as (r & Hname & Hr).
  apply list_elem_of_In in Hr.
  destruct (write_back_loop_rated (time match_data)
              (concat (rate [w'; o'])) (concat (rate [w'; o']))
              (λ _ Hx, Hx) _ _ Hwrite) as [_ Hnew].
  destruct (Hnew r Hr) as (e' & He' & Hrated); [congruence|].
  rewrite Hname in He'. congruence.
Qed.

(** On [match_2v1], for the player of the losing team: the rating went from
    [mu = 25] to [mu = 24] and the history ends with its ordinal. *)
Lemma last_history_entry_is_post_update_witness :
  ∃ e, Examples.processed_2v1.2 !! "c" = Some e
       ∧ last (history e)
         = Some (10%Z,
                 ordinal (PlackettLuce := Examples.example_model)
                   (rating_data e))
       ∧ rating_data e = mkRating "c" 24 (PrimFloat.div 25 3)
       ∧ ∃ database1 w' o',
           padded_teams (model := Examples.example_model)
             Examples.match_2v1 ∅
           = Ok (database1, w', o')
           ∧ rating_data e
             ∈ concat (rate (PlackettLuce := Examples.example_model)
                         [w'; o']).
Proof.
  destruct (proj1 (last_history_entry_is_post_update
                     (H := Examples.example_model)
                     Examples.match_2v1 [] ∅ eq_refl names_ok_empty)
              _ _ _ example_processed "c")
    as (e & He & Hlast & Hrated).
  - apply (bool_decide_unpack _). vm_compute. exact I.
  - exists e. split; [exact He|]. split; [exact Hlast|]. split.
    + assert (rating_data <$> Some e
              = Some (mkRating "c" 24 (PrimFloat.div 25 3))) as Hc
        by (rewrite <- He; vm_compute; reflexivity).
      by inversion Hc.
    + apply Hrated; [apply example_rate_keeps_names | discriminate].
Defined.

Lemma process_matches_spec `{PlackettLuce} (ms : list MatchData) :
  ∀ hist0 db0 hist db,
    Forall (λ m, two_team_match m = true) ms →
    names_ok db0 →
    process_matches ms (hist0, db0) = Ok (hist, db) →
    names_ok db
    ∧ ∀ q, games_of db q = games_of db0 q + roster_entries q ms
           ∧ length (history_of db q)
             = length (history_of db0 q) + roster_entries q ms.
Proof.
  induction ms as [|m ms IH]; intros hist0 db0 hist db Hms Hdb0 Hrun.
  - simpl in Hrun. inversion Hrun; subst. split; [done|].
    intros q. unfold roster_entries. simpl. lia.
  - apply Forall_cons in Hms as [Hm Hms].
    unfold process_matches in Hrun. cbn [for_each] in Hrun.
    bind_inv Hrun as [hist1 db1] Hstep.
    unfold process_match in Hstep.
    bind_inv Hstep as [[m' hist1'] db1'] Hone.
    inversion Hstep; subst; clear Hstep.
    apply process_two_team_spec in Hone as (Hdb1 & Hg1 & Hh1 & _);
      [|done|done].
    apply IH in Hrun as (Hdb & Hcount); [|done|done].
    split; [done|]. intros q. destruct (Hcount q) as [Hg Hh].
    rewrite Hg, Hh, Hg1, Hh1. unfold roster_entries. simpl. lia.
Qed.

Lemma process_matches_total `{PlackettLuce} (ms : list MatchData) :
  rate_keeps_names →
  Forall (λ m, two_team_match m = true
               ∧ rosters_resolved (teams m)
               ∧ Forall (λ team, team.2 ≠ []) (teams m)) ms →
  ∀ hist0 db0, names_ok db0 →
    ∃ hist db, process_matches ms (hist0, db0) = Ok (hist, db).
Proof.
  intros Hrate. induction 1 as [|m ms (Htwo & Hres & Hne) Hms IH];
    intros hist0 db0 Hdb0; [by eexists _, _|].
  destruct (process_match_result_total m hist0 db0 Htwo Hdb0 Hres Hne Hrate)
    as (m' & hist1 & db1 & Hone).
  destruct (process_two_team_spec _ _ _ _ _ _ Htwo Hdb0 Hone) as [Hdb1 _].
  destruct (IH hist1 db1 Hdb1) as (hist & db & Hrest).
  assert (process_match m (hist0, db0) = Ok (hist1, db1)) as Hstep
    by (unfold process_match; by rewrite Hone).
  exists hist, db. unfold process_matches. cbn [for_each].
  rewrite Hstep. exact Hrest.
Qed.

Lemma roster_entries_NoDup pid (ms : list MatchData) :
  Forall (λ m, NoDup (roster_ids m)) ms →
  roster_entries pid ms = matches_of pid ms.
Proof.
  unfold roster_entries, matches_of.
  induction 1 as [|m ms Hm Hms IH]; [done|].
  rewrite filter_cons. cbn [map sum_list sum_list_with].
  rewrite occurrences_NoDup by done.
  destruct (decide (pid ∈ roster_ids m)); simpl; by rewrite IH.
Qed.

(** The processor serves two teams: of a third team the games are counted
    but no history entry is written. *)
Lemma third_team_gets_no_history :
  ∃ hist db e,
    process_matches (model := Examples.example_model)
      [Examples.match_three_teams] ([], ∅)
    = Ok (hist, db)
    ∧ db !! "c" = Some e
    ∧ games_played e = 1
    ∧ history e = [].
Proof.
  eexists _, _, _. split; [vm_compute; reflexivity|].
  split; [vm_compute; reflexivity|]. split; reflexivity.
Qed.

(** C5 (as stated in the specification, refuted): a player listed twice in
    the rosters of one match has [games_played = 2] and two history entries
    after that match, while the number of matches with that player is 1. *)
Lemma repeated_player_is_counted_per_entry :
  two_team_match Examples.match_twice = true
  ∧ (∃ hist db e,
        process_matches (model := Examples.example_model)
          [Examples.match_twice] ([], ∅)
        = Ok (hist, db)
        ∧ db !! "a" = Some e
        ∧ games_played e = 2
        ∧ length (history e) = 2)
  ∧ matches_of "a" [Examples.match_twice] = 1.
Proof.
  split; [reflexivity|]. split; [|by vm_compute].
  eexists _, _, _. split; [vm_compute; reflexivity|].
  split; [vm_compute; reflexivity|]. split; reflexivity.
Qed.

(** C5 (amended): after a sequence of accepted two-team matches has been
    processed from the empty database, the [games_played] of every player of
    the database is the number of roster entries with the identifier of that
    player in the sequence, and is the length of the history of that player;
    an identifier that the database does not know has no roster entry; when
    no match of the sequence lists an identifier twice, the number of roster
    entries is the number of matches in which the player appears.  Such a
    sequence is processed to the end when the factions are resolved, no
    roster is empty and [rate] keeps the names. *)
Theorem games_played_counts_roster_entries `{PlackettLuce}
  (matches : list MatchData) :
  Forall (λ m, two_team_match m = true) matches →
  (∀ match_history database,
      process_matches matches ([], ∅) = Ok (match_history, database) →
      ∀ pid,
        (∀ e, database !! pid = Some e →
              games_played e = roster_entries pid matches
              ∧ games_played e = length (history e))
        ∧ (database !! pid = None → roster_entries pid matches = 0)
        ∧ (Forall (λ m, NoDup (roster_ids m)) matches →
           roster_entries pid matches = matches_of pid matches))
  ∧ (rate_keeps_names →
     Forall (λ m, rosters_resolved (teams m)
                  ∧ Forall (λ team, team.2 ≠ []) (teams m)) matches →
     ∃ match_history database,
       process_matches matches ([], ∅) = Ok (match_history, database)).
Proof.
  intros Hms. split.
  - intros hist db Hrun pid.
    apply process_matches_spec in Hrun as [_ Hcount];
      [|done|apply names_ok_empty].
    destruct (Hcount pid) as [Hg Hh].
    unfold games_of, history_of in Hg, Hh. rewrite lookup_empty in Hg, Hh.
    simpl in Hg, Hh.
    split; [|split].
    + intros e He. rewrite He in Hg, Hh. simpl in Hg, Hh. lia.
    + intros Hnone. rewrite Hnone in Hg. simpl in Hg. lia.
    + apply roster_entries_NoDup.
  - intros Hrate Hok. apply process_matches_total; [done| |apply names_ok_empty].
    rewrite Forall_forall in Hms, Hok |- *.
    intros m Hm. destruct (Hok m Hm). by split; [apply Hms|].
Qed.

(** On [match_2v1] followed by [match_1v1]: two games and two history
    entries for the player who is in both. *)
Lemma games_played_counts_roster_entries_witness :
  ∃ e, Examples.processed_two_matches.2 !! "a" = Some e
       ∧ games_played e = 2
       ∧ length (history e) = 2
       ∧ roster_entries "a" [Examples.match_2v1; Examples.match_1v1] = 2
       ∧ matches_of "a" [Examples.match_2v1; Examples.match_1v1] = 2.
Proof.
  destruct (proj1 (games_played_counts_roster_entries
                     (H := Examples.example_model)
                     [Examples.match_2v1; Examples.match_1v1]
                     ltac:(repeat constructor))
              _ _ example_processed_two_matches "a")
    as (Hsome & _ & Hnodup).
  assert (roster_entries "a" [Examples.match_2v1; Examples.match_1v1] = 2)
    as Hentries by reflexivity.
  destruct (Examples.processed_two_matches.2 !! "a") as [e|] eqn:He.
  - destruct (Hsome e He) as [Hg Hh]. exists e.
    split; [reflexivity|]. split; [congruence|]. split; [congruence|].
    split; [exact Hentries|]. rewrite <- Hnodup; [exact Hentries|].
    apply (bool_decide_unpack _). vm_compute. exact I.
  - vm_compute in He. discriminate He.
Defined.

(** * Further properties *)

(** ** The steps of an accepted match *)

Lemma accepted_not_skipped md :
  accepted md = true →
  negb (valid md) || negb (dict_mem (winning_team md) (teams md)) = false.
Proof.
  unfold accepted. intros [-> ->]%andb_true_iff. reflexivity.
Qed.

Lemma not_accepted_skipped md :
  accepted md = false →
  negb (valid md) || negb (dict_mem (winning_team md) (teams md)) = true.
Proof.
  unfold accepted. destruct (valid md); simpl; [|done]. by intros ->.
Qed.

Section Steps.
Context `{model : PlackettLuce}.

Lemma collect_teams_Ok md db db1 w o :
  collect_teams md db = Ok (db1, w, o) →
  ∃ db0 upd,
    for_each (process_team (winning_team md)) (teams md) (db, [])
    = Ok (db0, upd)
    ∧ for_each (append_history (time md)) (w ++ o) db0 = Ok db1.
Proof.
  unfold collect_teams. intros Hrun.
  bind_inv Hrun as [db0 upd] Hloop.
  bind_inv Hrun as [w1 rest] Hpop.
  bind_inv Hrun as o1 Hfirst.
  bind_inv Hrun as db1' Happ.
  inversion Hrun; subst. eauto.
Qed.

(** An accepted record goes through the loop over the teams, the loop that
    appends the placeholders and the loop that writes the ratings back. *)
Lemma process_match_result_steps md hist db md' hist' db' :
  accepted md = true →
  process_match_result md hist db = Ok (md', hist', db') →
  ∃ db0 upd l db1 rated,
    for_each (process_team (winning_team md)) (teams md) (db, [])
    = Ok (db0, upd)
    ∧ for_each (append_history (time md)) l db0 = Ok db1
    ∧ for_each (write_back (time md)) rated db1 = Ok db'.
Proof.
  intros Hacc Hrun.
  apply process_match_result_Ok in Hrun
    as (db1 & w' & o' & am & asg & Hpad & _ & _ & _ & Hwrite & _);
    [|by apply accepted_not_skipped].
  apply padded_teams_Ok in Hpad as (w & o & Hcollect & _).
  apply collect_teams_Ok in Hcollect as (db0 & upd & Hloop & Happ).
  by exists db0, upd, (w ++ o), db1, (concat (rate [w'; o'])).
Qed.

(** A property of the database that the three loop bodies keep is kept by
    [process_match_result]. *)
Lemma process_match_result_keeps (Inv : Database → Prop) md :
  (∀ tid players p db acc db' acc',
      (tid, players) ∈ teams md → p ∈ players →
      process_player (winning_team md) tid players p (db, acc)
      = Ok (db', acc') →
      Inv db → Inv db') →
  (∀ r db db', append_history (time md) r db = Ok db' → Inv db → Inv db') →
  (∀ r db db', write_back (time md) r db = Ok db' → Inv db → Inv db') →
  ∀ hist db md' hist' db',
    process_match_result md hist db = Ok (md', hist', db') →
    Inv db → Inv db'.
Proof.
  intros Hplayer Happend Hwrite hist db md' hist' db' Hrun Hdb.
  destruct (accepted md) eqn:Hacc.
  2:{ rewrite process_match_result_skips in Hrun
        by (by apply not_accepted_skipped).
      by inversion Hrun; subst. }
  apply process_match_result_steps in Hrun
    as (db0 & upd & l & db1 & rated & Hloop & Happ & Hwb); [|done].
  assert (Inv db0) as Hdb0.
  { apply (for_each_invariant (process_team (winning_team md))
             (λ st, Inv st.1) (teams md)) with (s := (db, [])) (s' := (db0, upd));
      [|done|done].
    intros [tid players] [dba upda] [dbb updb] Hteam Hinv Hstep.
    unfold process_team in Hstep.
    bind_inv Hstep as [dbc l1] Hplayers. inversion Hstep; subst. simpl in *.
    apply (for_each_invariant (process_player (winning_team md) tid players)
             (λ st, Inv st.1) players)
      with (s := (dba, [])) (s' := (dbb, l1)); [|done|done].
    intros p [d1 a1] [d2 a2] Hp Hd1 Hone. simpl in *.
    by eapply Hplayer. }
  assert (Inv db1) as Hdb1.
  { apply (for_each_invariant (append_history (time md)) Inv l)
      with (s := db0) (s' := db1); [|done|done].
    intros r d1 d2 _ Hd1 Hone. by eapply Happend. }
  apply (for_each_invariant (write_back (time md)) Inv rated)
    with (s := db1) (s' := db'); [|done|done].
  intros r d1 d2 _ Hd1 Hone. by eapply Hwrite.
Qed.

(** The same for the loop of [main], on parsed records and on reports. *)
Lemma process_matches_keeps (Inv : Database → Prop) ms :
  (∀ md hist db md' hist' db',
      md ∈ ms →
      process_match_result md hist db = Ok (md', hist', db') →
      Inv db → Inv db') →
  ∀ hist0 db0 hist db,
    process_matches ms (hist0, db0) = Ok (hist, db) → Inv db0 → Inv db.
Proof.
  intros Hone hist0 db0 hist db Hrun Hdb0.
  apply (for_each_invariant process_match (λ st, Inv st.2) ms)
    with (s := (hist0, db0)) (s' := (hist, db)); [|done|done].
  intros md [h1 d1] [h2 d2] Hmd Hd1 Hstep. simpl in *.
  unfold process_match in Hstep.
  bind_inv Hstep as [[m' h'] d'] Hres. inversion Hstep; subst.
  by eapply Hone.
Qed.

Lemma process_reports_keeps (Inv : Database → Prop) reports :
  (∀ md hist db md' hist' db',
      process_match_result md hist db = Ok (md', hist', db') →
      Inv db → Inv db') →
  ∀ hist db,
    process_reports reports = Ok (hist, db) → Inv ∅ → Inv db.
Proof.
  intros Hone hist db Hrun Hdb0. unfold process_reports in Hrun.
  apply (for_each_invariant process_report (λ st, Inv st.2) reports)
    with (s := ([], ∅)) (s' := (hist, db)); [|done|done].
  intros rep [h1 d1] [h2 d2] _ Hd1 Hstep. simpl in *.
  unfold process_report in Hstep.
  bind_inv Hstep as md Hparse.
  bind_inv Hstep as [[m' h'] d'] Hres. inversion Hstep; subst.
  by eapply Hone.
Qed.

End Steps.

(** ** What one roster entry does to the record of its player *)

Section Entries.
Context `{model : PlackettLuce}.

Lemma process_player_entry winner tid players p db acc db' acc' :
  process_player winner tid players p (db, acc) = Ok (db', acc') →
  let e := default (new_player_data (steam_name p) (player_id p))
             (db !! player_id p) in
  faction_ok (faction p) = true
  ∧ ∃ e', db' = <[player_id p := e']> db
          ∧ pd_steam_name e' = pd_steam_name e
          ∧ rating_data e' = rating_data e
          ∧ player e' = player e
          ∧ games_played e' = games_played e + 1
          ∧ wins e' = wins e + indicator (bool_decide (tid = winner))
          ∧ ans_games e' = ans_games e + indicator (String.eqb (faction p) "ANS")
          ∧ ans_wins e'
            = ans_wins e
              + indicator (String.eqb (faction p) "ANS"
                           && bool_decide (tid = winner))
          ∧ osp_games e' = osp_games e + indicator (String.eqb (faction p) "OSP")
          ∧ osp_wins e'
            = osp_wins e
              + indicator (String.eqb (faction p) "OSP"
                           && bool_decide (tid = winner))
          ∧ history e' = history e
          ∧ teammates e'
            = fold_left (update_teammate (bool_decide (tid = winner))
                           (player_id p))
                players (teammates e).
Proof.
  unfold process_player.
  destruct (faction_ok (faction p)) eqn:Hf; [|discriminate].
  intros Hrun. inversion Hrun; subst; clear Hrun. simpl.
  split; [done|]. eexists. split; [reflexivity|]. simpl.
  destruct (bool_decide (tid = winner)), (String.eqb (faction p) "ANS"),
    (String.eqb (faction p) "OSP"); simpl; repeat split; lia.
Qed.

Lemma faction_ok_cases f :
  faction_ok f = true →
  (String.eqb f "ANS" = true ∧ String.eqb f "OSP" = false)
  ∨ (String.eqb f "ANS" = false ∧ String.eqb f "OSP" = true).
Proof.
  unfold faction_ok. intros Hf. apply bool_decide_eq_true in Hf.
  apply elem_of_cons in Hf as [->|Hf]; [by left|].
  apply elem_of_cons in Hf as [->|Hf]; [by right|].
  by apply elem_of_nil in Hf.
Qed.

Lemma update_teammate_lookup won pid tm teammate b :
  update_teammate won pid tm teammate !! b
  = if decide (pid = player_id teammate) then tm !! b
    else if decide (player_id teammate = b)
         then Some {| games := S (from_option games 0 (tm !! b));
                      tm_wins := from_option tm_wins 0 (tm !! b)
                                 + indicator won |}
         else tm !! b.
Proof.
  unfold update_teammate.
  destruct (decide (pid = player_id teammate)); [done|].
  rewrite lookup_insert.
  destruct (decide (player_id teammate = b)) as [<-|]; [|done].
  f_equal. destruct (tm !! player_id teammate) as [s|]; simpl;
    destruct won; simpl; f_equal; lia.
Qed.

(** The table of teammates of [pid] after the loop over a roster. *)
Lemma update_teammates_counts won pid players :
  ∀ tm b,
    let tm' := fold_left (update_teammate won pid) players tm in
    from_option games 0 (tm' !! b)
    = from_option games 0 (tm !! b)
      + (if decide (pid = b) then 0
         else occurrences b (map player_id players))
    ∧ from_option tm_wins 0 (tm' !! b)
      = from_option tm_wins 0 (tm !! b)
        + (if decide (pid = b) then 0
           else indicator won * occurrences b (map player_id players)).
Proof.
  induction players as [|t players IH]; intros tm b; simpl.
  - split; destruct (decide (pid = b)); lia.
  - destruct (IH (update_teammate won pid tm t) b) as [Hg Hw].
    rewrite Hg, Hw, update_teammate_lookup.
    repeat case_decide; subst; try congruence; simpl;
      destruct won; simpl; lia.
Qed.

Lemma update_teammates_ok won pid players :
  ∀ tm,
    tm !! pid = None →
    (∀ t s, tm !! t = Some s → (1 ≤ games s)%nat ∧ (tm_wins s ≤ games s)%nat) →
    let tm' := fold_left (update_teammate won pid) players tm in
    tm' !! pid = None
    ∧ ∀ t s, tm' !! t = Some s → (1 ≤ games s)%nat ∧ (tm_wins s ≤ games s)%nat.
Proof.
  induction players as [|x players IH]; intros tm Hself Hall; simpl; [done|].
  apply IH.
  - rewrite update_teammate_lookup.
    destruct (decide (pid = player_id x)); [done|].
    by rewrite decide_False by congruence.
  - intros t s. rewrite update_teammate_lookup.
    destruct (decide (pid = player_id x)); [by apply Hall|].
    destruct (decide (player_id x = t)) as [<-|]; [|by apply Hall].
    intros Hs. inversion Hs; subst; clear Hs. simpl.
    destruct (tm !! player_id x) as [s0|] eqn:Hs0; simpl.
    + destruct (Hall _ _ Hs0). destruct won; simpl; lia.
    + destruct won; simpl; lia.
Qed.


Lemma new_player_ok sname pid : record_ok pid (new_player_data sname pid).
Proof.
  unfold record_ok. simpl. repeat split; try done; try lia.
  all: intros t s Hs; by rewrite lookup_empty in Hs.
Qed.

Lemma process_player_ok winner tid players p db acc db' acc' :
  process_player winner tid players p (db, acc) = Ok (db', acc') →
  database_ok db → database_ok db'.
Proof.
  intros Hrun Hdb.
  apply process_player_entry in Hrun
    as (Hf & e' & -> & Hn & Hr & Hp & Hg & Hw & Hag & Haw & Hog & How
        & Hh & Ht).
  assert (record_ok (player_id p)
            (default (new_player_data (steam_name p) (player_id p))
               (db !! player_id p))) as He.
  { destruct (db !! player_id p) eqn:Hlk; simpl;
      [by apply Hdb | apply new_player_ok]. }
  intros q e Hq. rewrite lookup_insert in Hq.
  destruct (decide (player_id p = q)) as [<-|]; [|by apply Hdb].
  inversion Hq; subst e; clear Hq.
  destruct He as (H1 & H2 & H3 & H4 & H5 & H6 & H7 & H8).
  destruct (update_teammates_ok (bool_decide (tid = winner)) (player_id p)
              players _ H7 H8) as [H7' H8'].
  unfold record_ok. rewrite Hr, Hp, Hg, Hw, Hag, Haw, Hog, How, Ht.
  destruct (faction_ok_cases _ Hf) as [[-> ->]|[-> ->]];
    destruct (bool_decide (tid = winner)); simpl in *;
    repeat split; try done; try lia;
    match goal with
    | Hs : _ !! _ = Some ?s |- context [games ?s] =>
        by destruct (H8' _ _ Hs)
    end.
Qed.

Lemma append_history_ok t r db db' :
  append_history t r db = Ok db' → database_ok db → database_ok db'.
Proof.
  intros (e & He & ->)%append_history_Ok Hdb q e' Hq.
  rewrite lookup_insert in Hq.
  destruct (decide (name r = q)) as [<-|]; [|by apply Hdb].
  inversion Hq; subst. by apply (Hdb _ _ He).
Qed.

Lemma write_back_ok t r db db' :
  write_back t r db = Ok db' → database_ok db → database_ok db'.
Proof.
  intros [[_ ->]|(_ & e & He & _ & ->)]%write_back_Ok Hdb; [done|].
  intros q e' Hq. rewrite lookup_insert in Hq.
  destruct (decide (name r = q)) as [<-|]; [|by apply Hdb].
  inversion Hq; subst.
  destruct (Hdb _ _ He) as (_ & H2). by split.
Qed.

Lemma process_match_result_ok md hist db md' hist' db' :
  process_match_result md hist db = Ok (md', hist', db') →
  database_ok db → database_ok db'.
Proof.
  apply (process_match_result_keeps database_ok).
  - intros. by eapply process_player_ok.
  - intros. by eapply append_history_ok.
  - intros. by eapply write_back_ok.
Qed.

Lemma apply_manual_adjustments_ok adjs :
  ∀ db : Database, database_ok db → database_ok (apply_manual_adjustments db adjs).
Proof.
  induction adjs as [|adj adjs IH]; intros db Hdb; [done|].
  simpl. apply IH. unfold apply_adjustment.
  destruct (db !! steam_id adj) as [e|] eqn:He; [|done].
  intros q e' Hq. rewrite lookup_insert in Hq.
  destruct (decide (steam_id adj = q)) as [<-|]; [|by apply Hdb].
  inversion Hq; subst.
  destruct (Hdb _ _ He) as (H1 & H2). by split.
Qed.

Lemma database_ok_empty : database_ok ∅.
Proof. intros q e Hq. by rewrite lookup_empty in Hq. Qed.

End Entries.

(** ** Nothing is lost *)

Section Growth.
Context `{model : PlackettLuce}.










End Growth.

(** ** Counters *)

Lemma counter_of_insert f (db : Database) pid e q :
  counter_of f (<[pid := e]> db) q
  = if decide (pid = q) then f e else counter_of f db q.
Proof. unfold counter_of. rewrite lookup_insert. by case_decide. Qed.

Lemma weighted_entries_every pid ts :
  weighted_entries every_entry pid ts
  = occurrences pid (map player_id (concat (map snd ts))).
Proof.
  unfold weighted_entries.
  induction ts as [|[tid ps] ts IH]; simpl; [done|].
  rewrite map_app, occurrences_app, IH. f_equal.
  clear IH. induction ps as [|p ps IH]; simpl; [done|]. by rewrite IH.
Qed.

Section Counter.
Context `{model : PlackettLuce}.
Variable f : PlayerData → nat.
Variable winner : string.
Variable wt : string → PlayerInfo → nat.
Hypothesis f_new : ∀ sname pid, f (new_player_data sname pid) = 0.
Hypothesis f_player :
  ∀ tid players p db acc db' acc',
    process_player winner tid players p (db, acc) = Ok (db', acc') →
    ∃ e', db' = <[player_id p := e']> db
          ∧ f e' = f (default (new_player_data (steam_name p) (player_id p))
                        (db !! player_id p))
                   + wt tid p.
Hypothesis f_history : ∀ e h, f (with_history e h) = f e.
Hypothesis f_rating : ∀ e r, f (with_rating e r) = f e.

Lemma counter_players tid players todo :
  ∀ db acc db' acc' q,
    for_each (process_player winner tid players) todo (db, acc)
    = Ok (db', acc') →
    counter_of f db' q
    = counter_of f db q
      + sum_list (map (λ p, if decide (player_id p = q) then wt tid p else 0)
                    todo).
Proof.
  induction todo as [|p todo IH]; intros db acc db' acc' q Hrun.
  - simpl in Hrun. inversion Hrun; subst. simpl. lia.
  - cbn [for_each] in Hrun. bind_inv Hrun as [db1 acc1] Hstep.
    apply f_player in Hstep as (e' & -> & He').
    rewrite (IH _ _ _ _ q Hrun), counter_of_insert. simpl.
    destruct (decide (player_id p = q)) as [<-|]; [|lia].
    rewrite He'. unfold counter_of.
    destruct (db !! player_id p); simpl; [lia|]. rewrite f_new. lia.
Qed.

Lemma counter_teams ts :
  ∀ db upd db' upd' q,
    for_each (process_team winner) ts (db, upd) = Ok (db', upd') →
    counter_of f db' q = counter_of f db q + weighted_entries wt q ts.
Proof.
  induction ts as [|[tid ps] ts IH]; intros db upd db' upd' q Hrun.
  - simpl in Hrun. inversion Hrun; subst. unfold weighted_entries. simpl. lia.
  - cbn [for_each] in Hrun. bind_inv Hrun as [db1 upd1] Hstep.
    apply process_team_Ok in Hstep as (l & Hplayers & ->).
    rewrite (IH _ _ _ _ q Hrun), (counter_players _ _ _ _ _ _ _ q Hplayers).
    unfold weighted_entries. simpl. lia.
Qed.

Lemma counter_append t l :
  ∀ db db' q,
    for_each (append_history t) l db = Ok db' →
    counter_of f db' q = counter_of f db q.
Proof.
  induction l as [|r l IH]; intros db db' q Hrun.
  - simpl in Hrun. by inversion Hrun.
  - cbn [for_each] in Hrun. bind_inv Hrun as db1 Hstep.
    apply append_history_Ok in Hstep as (e & He & ->).
    rewrite (IH _ _ q Hrun), counter_of_insert.
    destruct (decide (name r = q)) as [<-|]; [|done].
    unfold counter_of. rewrite He. simpl. apply f_history.
Qed.

Lemma counter_write_back t l :
  ∀ db db' q,
    for_each (write_back t) l db = Ok db' →
    counter_of f db' q = counter_of f db q.
Proof.
  induction l as [|r l IH]; intros db db' q Hrun.
  - simpl in Hrun. by inversion Hrun.
  - cbn [for_each] in Hrun. bind_inv Hrun as db1 Hstep.
    rewrite (IH _ _ q Hrun).
    apply write_back_Ok in Hstep as [[_ ->]|(_ & e & He & _ & ->)]; [done|].
    rewrite counter_of_insert.
    destruct (decide (name r = q)) as [<-|]; [|done].
    unfold counter_of. rewrite He. simpl. by rewrite f_history, f_rating.
Qed.

Lemma counter_match md hist db md' hist' db' q :
  winning_team md = winner →
  accepted md = true →
  process_match_result md hist db = Ok (md', hist', db') →
  counter_of f db' q = counter_of f db q + weighted_entries wt q (teams md).
Proof.
  intros Hwin Hacc Hrun.
  apply process_match_result_steps in Hrun
    as (db0 & upd & l & db1 & rated & Hloop & Happ & Hwb); [|done].
  rewrite Hwin in Hloop.
  by rewrite (counter_write_back _ _ _ _ q Hwb),
    (counter_append _ _ _ _ q Happ), (counter_teams _ _ _ _ _ q Hloop).
Qed.

End Counter.

(** ** Teammates *)

Section Teammates.
Context `{model : PlackettLuce}.

Lemma teammate_counts_insert (db : Database) pid e a b :
  teammate_games (<[pid := e]> db) a b
  = (if decide (pid = a) then from_option games 0 (teammates e !! b)
     else teammate_games db a b)
  ∧ teammate_wins (<[pid := e]> db) a b
    = (if decide (pid = a) then from_option tm_wins 0 (teammates e !! b)
       else teammate_wins db a b).
Proof.
  unfold teammate_games, teammate_wins. rewrite lookup_insert.
  by destruct (decide (pid = a)).
Qed.

(** Replacing a record by one with the same table of teammates. *)
Lemma teammate_counts_same_table (db : Database) pid e e' a b :
  db !! pid = Some e → teammates e' = teammates e →
  teammate_games (<[pid := e']> db) a b = teammate_games db a b
  ∧ teammate_wins (<[pid := e']> db) a b = teammate_wins db a b.
Proof.
  intros He Ht. destruct (teammate_counts_insert db pid e' a b) as [-> ->].
  unfold teammate_games, teammate_wins.
  destruct (decide (pid = a)) as [<-|]; [|done].
  by rewrite He, Ht.
Qed.

Lemma teammates_player winner tid players p db acc db' acc' a b :
  process_player winner tid players p (db, acc) = Ok (db', acc') →
  teammate_games db' a b
  = teammate_games db a b
    + (if decide (player_id p = a)
       then if decide (a = b) then 0
            else occurrences b (map player_id players)
       else 0)
  ∧ teammate_wins db' a b
    = teammate_wins db a b
      + (if decide (player_id p = a)
         then if decide (a = b) then 0
              else indicator (bool_decide (tid = winner))
                   * occurrences b (map player_id players)
         else 0).
Proof.
  intros Hrun.
  apply process_player_entry in Hrun as (_ & e' & -> & Hrest).
  destruct Hrest as (_ & _ & _ & _ & _ & _ & _ & _ & _ & _ & Ht).
  destruct (teammate_counts_insert db (player_id p) e' a b) as [-> ->].
  destruct (decide (player_id p = a)) as [<-|]; [|lia].
  rewrite Ht.
  destruct (update_teammates_counts (bool_decide (tid = winner)) (player_id p)
              players
              (teammates (default (new_player_data (steam_name p) (player_id p))
                            (db !! player_id p))) b) as [-> ->].
  unfold teammate_games, teammate_wins.
  destruct (db !! player_id p) as [e|]; simpl; [done|].
  rewrite lookup_empty. done.
Qed.

Lemma teammates_players winner tid players todo :
  ∀ db acc db' acc' a b,
    for_each (process_player winner tid players) todo (db, acc)
    = Ok (db', acc') →
    teammate_games db' a b
    = teammate_games db a b
      + (if decide (a = b) then 0
         else occurrences a (map player_id todo)
              * occurrences b (map player_id players))
    ∧ teammate_wins db' a b
      = teammate_wins db a b
        + (if decide (a = b) then 0
           else indicator (bool_decide (tid = winner))
                * (occurrences a (map player_id todo)
                   * occurrences b (map player_id players))).
Proof.
  induction todo as [|p todo IH]; intros db acc db' acc' a b Hrun.
  - simpl in Hrun. inversion Hrun; subst. simpl.
    split; destruct (decide (a = b)); lia.
  - cbn [for_each] in Hrun. bind_inv Hrun as [db1 acc1] Hstep.
    destruct (IH _ _ _ _ a b Hrun) as [-> ->].
    destruct (teammates_player _ _ _ _ _ _ _ _ a b Hstep) as [-> ->].
    simpl. destruct (decide (player_id p = a)), (decide (a = b));
      split; lia.
Qed.

Lemma teammates_teams winner ts :
  ∀ db upd db' upd' a b,
    for_each (process_team winner) ts (db, upd) = Ok (db', upd') →
    teammate_games db' a b
    = teammate_games db a b
      + (if decide (a = b) then 0 else shared_entries (λ _, 1) a b ts)
    ∧ teammate_wins db' a b
      = teammate_wins db a b
        + (if decide (a = b) then 0
           else shared_entries (λ tid, indicator (bool_decide (tid = winner)))
                  a b ts).
Proof.
  induction ts as [|[tid ps] ts IH]; intros db upd db' upd' a b Hrun.
  - simpl in Hrun. inversion Hrun; subst. unfold shared_entries. simpl.
    split; destruct (decide (a = b)); lia.
  - cbn [for_each] in Hrun. bind_inv Hrun as [db1 upd1] Hstep.
    apply process_team_Ok in Hstep as (l & Hplayers & ->).
    destruct (IH _ _ _ _ a b Hrun) as [-> ->].
    destruct (teammates_players _ _ _ _ _ _ _ _ a b Hplayers) as [-> ->].
    unfold shared_entries. simpl. destruct (decide (a = b)); split; lia.
Qed.

Lemma teammates_append t l :
  ∀ db db' a b,
    for_each (append_history t) l db = Ok db' →
    teammate_games db' a b = teammate_games db a b
    ∧ teammate_wins db' a b = teammate_wins db a b.
Proof.
  induction l as [|r l IH]; intros db db' a b Hrun.
  - simpl in Hrun. by inversion Hrun.
  - cbn [for_each] in Hrun. bind_inv Hrun as db1 Hstep.
    destruct (IH _ _ a b Hrun) as [-> ->].
    apply append_history_Ok in Hstep as (e & He & ->).
    by apply (teammate_counts_same_table db (name r) e).
Qed.

Lemma teammates_write_back t l :
  ∀ db db' a b,
    for_each (write_back t) l db = Ok db' →
    teammate_games db' a b = teammate_games db a b
    ∧ teammate_wins db' a b = teammate_wins db a b.
Proof.
  induction l as [|r l IH]; intros db db' a b Hrun.
  - simpl in Hrun. by inversion Hrun.
  - cbn [for_each] in Hrun. bind_inv Hrun as db1 Hstep.
    destruct (IH _ _ a b Hrun) as [-> ->].
    apply write_back_Ok in Hstep as [[_ ->]|(_ & e & He & _ & ->)]; [done|].
    by apply (teammate_counts_same_table db (name r) e).
Qed.

Lemma teammates_match md hist db md' hist' db' a b :
  accepted md = true →
  process_match_result md hist db = Ok (md', hist', db') →
  teammate_games db' a b
  = teammate_games db a b
    + (if decide (a = b) then 0 else shared_entries (λ _, 1) a b (teams md))
  ∧ teammate_wins db' a b
    = teammate_wins db a b
      + (if decide (a = b) then 0
         else shared_entries
                (λ tid, indicator (bool_decide (tid = winning_team md)))
                a b (teams md)).
Proof.
  intros Hacc Hrun.
  apply process_match_result_steps in Hrun
    as (db0 & upd & l & db1 & rated & Hloop & Happ & Hwb); [|done].
  destruct (teammates_write_back _ _ _ _ a b Hwb) as [-> ->].
  destruct (teammates_append _ _ _ _ a b Happ) as [-> ->].
  by apply (teammates_teams _ _ _ _ _ _ a b Hloop).
Qed.

Lemma shared_entries_sym wt a b ts :
  shared_entries wt a b ts = shared_entries wt b a ts.
Proof.
  unfold shared_entries. f_equal. apply map_ext. intros team. lia.
Qed.

End Teammates.

(** ** Who is touched by a match *)

Lemma occurrences_pos pid l : pid ∈ l ↔ (0 < occurrences pid l)%nat.
Proof.
  induction l as [|x l IH]; simpl.
  - split; [by intros ?%elem_of_nil | lia].
  - rewrite elem_of_cons, IH. destruct (decide (x = pid)); split; intros.
    + lia.
    + by left.
    + destruct H as [?|?]; [congruence | lia].
    + right. lia.
Qed.

Lemma roster_ids_elem md tid players p :
  (tid, players) ∈ teams md → p ∈ players → player_id p ∈ roster_ids md.
Proof.
  intros Hteam Hp. unfold roster_ids.
  apply list_elem_of_In, in_map, in_concat. exists players.
  split; [|by apply list_elem_of_In].
  apply in_map_iff. exists (tid, players). split; [done|].
  by apply list_elem_of_In.
Qed.

Section Touched.
Context `{model : PlackettLuce}.

Lemma process_players_frame winner tid players todo q :
  q ∉ map player_id todo →
  ∀ db acc db' acc',
    for_each (process_player winner tid players) todo (db, acc)
    = Ok (db', acc') →
    db' !! q = db !! q.
Proof.
  induction todo as [|p todo IH]; intros Hq db acc db' acc' Hrun.
  - simpl in Hrun. by inversion Hrun.
  - simpl in Hq. apply not_elem_of_cons in Hq as [Hne Hq].
    cbn [for_each] in Hrun. bind_inv Hrun as [db1 acc1] Hstep.
    rewrite (IH Hq _ _ _ _ Hrun).
    apply process_player_Ok in Hstep as (e' & -> & _).
    by rewrite lookup_insert_ne.
Qed.

Lemma append_loop_frame t l q :
  q ∉ map name l →
  ∀ db db', for_each (append_history t) l db = Ok db' → db' !! q = db !! q.
Proof.
  induction l as [|r l IH]; intros Hq db db' Hrun.
  - simpl in Hrun. by inversion Hrun.
  - simpl in Hq. apply not_elem_of_cons in Hq as [Hne Hq].
    cbn [for_each] in Hrun. bind_inv Hrun as db1 Hstep.
    rewrite (IH Hq _ _ Hrun).
    apply append_history_Ok in Hstep as (e & _ & ->).
    by rewrite lookup_insert_ne.
Qed.

Lemma write_back_loop_frame t l q :
  (∀ r, r ∈ l → name r = q → q = TEST_PLAYER) →
  ∀ db db', for_each (write_back t) l db = Ok db' → db' !! q = db !! q.
Proof.
  induction l as [|r l IH]; intros Hq db db' Hrun.
  - simpl in Hrun. by inversion Hrun.
  - cbn [for_each] in Hrun. bind_inv Hrun as db1 Hstep.
    rewrite (IH (λ r' Hr', Hq r' (list_elem_of_further _ _ _ Hr')) _ _ Hrun).
    apply write_back_Ok in Hstep as [[_ ->]|(Htest & e & _ & _ & ->)]; [done|].
    rewrite lookup_insert_ne; [done|].
    intros Hname. apply Htest. rewrite Hname. apply (Hq r); [by left|done].
Qed.

(** The names that [rate] returns for the padded lists of a two-team match
    are identifiers of the rosters or the reserved name. *)
Lemma rated_names_of_rosters md db db1 w' o' r :
  two_team_match md = true → names_ok db → rate_keeps_names →
  padded_teams md db = Ok (db1, w', o') →
  r ∈ concat (rate [w'; o']) →
  name r ∈ roster_ids md ∨ name r = TEST_PLAYER.
Proof.
  intros Htwo Hdb Hrate Hpad Hr.
  apply padded_teams_Ok in Hpad as (w & o & Hcollect & Hbal).
  apply collect_teams_spec in Hcollect as (_ & _ & _ & _ & Hmem);
    [|done|done].
  apply balance_teams_Ok in Hbal as (_ & _ & -> & ->).
  assert (name r ∈ map name (concat (rate
            [w ++ repeat (padding_of w) (length o - length w);
             o ++ repeat (padding_of o) (length w - length o)]))) as Hname
    by (apply list_elem_of_In, in_map, list_elem_of_In, Hr).
  rewrite rated_names in Hname by done.
  simpl in Hname. rewrite app_nil_r, !map_app, !elem_of_app in Hname.
  assert (∀ team k, name r ∈ map name (repeat (padding_of team) k) →
                    name r = TEST_PLAYER) as Hpadded.
  { intros team k Hk. apply list_elem_of_In, in_map_iff in Hk
      as (x & <- & Hx). by apply repeat_spec in Hx as ->. }
  destruct Hname as [[Hn|Hn]|[Hn|Hn]].
  - left. apply Hmem. rewrite map_app, elem_of_app. by left.
  - right. by eapply Hpadded.
  - left. apply Hmem. rewrite map_app, elem_of_app. by right.
  - right. by eapply Hpadded.
Qed.

Lemma team_loop_frame winner ts q :
  q ∉ map player_id (concat (map snd ts)) →
  ∀ db upd db' upd',
    for_each (process_team winner) ts (db, upd) = Ok (db', upd') →
    db' !! q = db !! q.
Proof.
  induction ts as [|[tid ps] ts IH]; intros Hq db upd db' upd' Hrun.
  - simpl in Hrun. by inversion Hrun.
  - simpl in Hq. rewrite map_app in Hq.
    apply not_elem_of_app in Hq as [Hps Hq].
    cbn [for_each] in Hrun. bind_inv Hrun as [db1 upd1] Hstep.
    apply process_team_Ok in Hstep as (l & Hplayers & ->).
    rewrite (IH Hq _ _ _ _ Hrun).
    eapply process_players_frame; [exact Hps | exact Hplayers].
Qed.

Lemma append_loop_dom t l :
  ∀ db db' q,
    for_each (append_history t) l db = Ok db' →
    (db' !! q = None ↔ db !! q = None).
Proof.
  induction l as [|r l IH]; intros db db' q Hrun.
  - simpl in Hrun. by inversion Hrun.
  - cbn [for_each] in Hrun. bind_inv Hrun as db1 Hstep.
    rewrite (IH _ _ q Hrun).
    apply append_history_Ok in Hstep as (e & He & ->).
    rewrite lookup_insert. destruct (decide (name r = q)) as [<-|]; [|done].
    rewrite He. done.
Qed.

Lemma write_back_loop_dom t l :
  ∀ db db' q,
    for_each (write_back t) l db = Ok db' →
    (db' !! q = None ↔ db !! q = None).
Proof.
  induction l as [|r l IH]; intros db db' q Hrun.
  - simpl in Hrun. by inversion Hrun.
  - cbn [for_each] in Hrun. bind_inv Hrun as db1 Hstep.
    rewrite (IH _ _ q Hrun).
    apply write_back_Ok in Hstep as [[_ ->]|(_ & e & He & _ & ->)]; [done|].
    rewrite lookup_insert. destruct (decide (name r = q)) as [<-|]; [|done].
    rewrite He. done.
Qed.

End Touched.

(** ** Histories *)

Section Histories.
Context `{model : PlackettLuce}.

Lemma append_loop_history t l :
  ∀ db db' q,
    for_each (append_history t) l db = Ok db' →
    ∃ suffix,
      history_of db' q = history_of db q ++ suffix
      ∧ length suffix = occurrences q (map name l)
      ∧ Forall (λ x, x.1 = t) suffix.
Proof.
  induction l as [|r l IH]; intros db db' q Hrun.
  - simpl in Hrun. inversion Hrun; subst. exists [].
    by rewrite app_nil_r.
  - cbn [for_each] in Hrun. bind_inv Hrun as db1 Hstep.
    destruct (IH _ _ q Hrun) as (suffix & Hh & Hlen & Htime).
    apply append_history_Ok in Hstep as (e & He & ->).
    rewrite history_of_insert in Hh. simpl.
    destruct (decide (name r = q)) as [<-|].
    + exists ((t, ordinal (rating_data e)) :: suffix).
      unfold history_of at 2. rewrite He. simpl in *.
      rewrite Hh, <- app_assoc. simpl.
      split; [done|]. split; [by rewrite Hlen|]. by constructor.
    + exists suffix. by repeat split.
Qed.

Lemma overwrite_last_of_suffix {A : Type} (old suffix : list A) (v : A) :
  suffix ≠ [] →
  <[pred (length (old ++ suffix)) := v]> (old ++ suffix)
  = old ++ <[pred (length suffix) := v]> suffix.
Proof.
  intros Hne. rewrite length_app.
  assert (0 < length suffix)%nat by (destruct suffix; [done|simpl; lia]).
  rewrite insert_app_r_alt by lia. f_equal. f_equal. lia.
Qed.

Lemma write_back_loop_history t l q old k :
  (q ∈ map name l → q ≠ TEST_PLAYER → (1 ≤ k)%nat) →
  ∀ db db',
    for_each (write_back t) l db = Ok db' →
    (∃ suffix, history_of db q = old ++ suffix
               ∧ length suffix = k ∧ Forall (λ x, x.1 = t) suffix) →
    ∃ suffix, history_of db' q = old ++ suffix
              ∧ length suffix = k ∧ Forall (λ x, x.1 = t) suffix.
Proof.
  induction l as [|r l IH]; intros Hk db db' Hrun Hinv.
  - simpl in Hrun. by inversion Hrun; subst.
  - cbn [for_each] in Hrun. bind_inv Hrun as db1 Hstep.
    apply (IH (λ Hq, Hk (list_elem_of_further _ _ _ Hq)) _ _ Hrun).
    apply write_back_Ok in Hstep as [[_ ->]|(Htest & e & He & Hne & ->)];
      [done|].
    rewrite history_of_insert.
    destruct (decide (name r = q)) as [<-|]; [|done].
    destruct Hinv as (suffix & Hh & Hlen & Htime).
    unfold history_of in Hh. rewrite He in Hh. simpl in Hh. simpl.
    assert (suffix ≠ []) as Hsuffix.
    { intros ->. simpl in Hlen. subst k.
      assert (1 ≤ 0)%nat; [|lia]. apply Hk; [by left|done]. }
    exists (<[pred (length suffix) := (t, ordinal r)]> suffix).
    rewrite Hh, overwrite_last_of_suffix by done.
    split; [done|]. split; [by rewrite length_insert|].
    by apply Forall_insert.
Qed.

Lemma process_matches_history ms :
  ∀ hist0 db0 hist db,
    process_matches ms (hist0, db0) = Ok (hist, db) →
    map match_summary hist
    = map match_summary hist0 ++ map match_summary (List.filter accepted ms).
Proof.
  induction ms as [|m ms IH]; intros hist0 db0 hist db Hrun.
  - simpl in Hrun. inversion Hrun; subst. simpl. by rewrite app_nil_r.
  - unfold process_matches in Hrun. cbn [for_each] in Hrun.
    bind_inv Hrun as [hist1 db1] Hstep.
    unfold process_match in Hstep.
    bind_inv Hstep as [[m' hist1'] db1'] Hone.
    inversion Hstep; subst; clear Hstep.
    rewrite (IH _ _ _ _ Hrun). simpl.
    destruct (accepted m) eqn:Hacc.
    + apply process_match_result_Ok in Hone
        as (d1 & w' & o' & am & asg & _ & _ & _ & -> & _ & ->);
        [|by apply accepted_not_skipped].
      rewrite map_app. simpl. by rewrite <- app_assoc.
    + rewrite process_match_result_skips in Hone
        by (by apply not_accepted_skipped).
      by inversion Hone; subst.
Qed.

End Histories.

(** ** Runs of the concrete model *)

Lemma example_then_1v1 :
  process_match_result (model := Examples.example_model)
    Examples.match_1v1 Examples.processed_2v1.1.2 Examples.processed_2v1.2
  = Ok MoreExamples.processed_then_1v1.
Proof. vm_compute. reflexivity. Qed.

Lemma example_three_matches :
  process_matches (model := Examples.example_model)
    MoreExamples.three_matches ([], ∅)
  = Ok MoreExamples.processed_three_matches.
Proof. vm_compute. reflexivity. Qed.

Lemma example_three_reports :
  process_reports (model := Examples.example_model)
    MoreExamples.three_reports
  = Ok MoreExamples.processed_three_reports.
Proof. vm_compute. reflexivity. Qed.

Lemma example_names_ok : names_ok Examples.processed_2v1.2.
Proof.
  exact (proj1 (process_two_team_spec (model := Examples.example_model)
                  Examples.match_2v1 [] ∅ _ _ _
                  eq_refl names_ok_empty example_processed)).
Qed.

(** ** Invariants of the database *)

Lemma process_reports_ok `{PlackettLuce} reports hist db :
  process_reports reports = Ok (hist, db) → database_ok db.
Proof.
  intros Hrun.
  apply (process_reports_keeps database_ok reports) with (hist := hist);
    [|done|apply database_ok_empty].
  intros md h d md' h' d'. apply process_match_result_ok.
Qed.





(** ** Counters of an accepted match *)

Ltac counter_of_entry Hstep :=
  apply process_player_entry in Hstep
    as (_ & e' & -> & _ & _ & _ & Hg & Hw & Hag & Haw & Hog & How & _ & _);
  exists e'; split; [reflexivity|]; simpl in *; first
    [ exact Hg | exact Hw | exact Hag | exact Haw | exact Hog | exact How ].

(** X3: an accepted record, whatever the number of its teams, adds to the
    counters of a player: to [games_played] the number of roster entries of
    the player, to [wins] the entries in the roster of the winning team, to
    [ans_games] and [osp_games] the entries with that faction, to [ans_wins]
    and [osp_wins] the entries with that faction in the roster of the
    winning team. *)
Theorem counters_count_roster_entries `{PlackettLuce}
  (match_data match_data' : MatchData)
  (match_history match_history' : list MatchData)
  (database database' : Database) (pid : string) :
  accepted match_data = true →
  process_match_result match_data match_history database
  = Ok (match_data', match_history', database') →
  let winner := winning_team match_data in
  let entries wt := weighted_entries wt pid (teams match_data) in
  counter_of games_played database' pid
  = counter_of games_played database pid
    + occurrences pid (roster_ids match_data)
  ∧ counter_of wins database' pid
    = counter_of wins database pid + entries (winning_entry winner)
  ∧ counter_of ans_games database' pid
    = counter_of ans_games database pid + entries (faction_entry "ANS")
  ∧ counter_of ans_wins database' pid
    = counter_of ans_wins database pid
      + entries (faction_winning_entry "ANS" winner)
  ∧ counter_of osp_games database' pid
    = counter_of osp_games database pid + entries (faction_entry "OSP")
  ∧ counter_of osp_wins database' pid
    = counter_of osp_wins database pid
      + entries (faction_winning_entry "OSP" winner).
Proof.
  intros Hacc Hrun winner entries. unfold entries, roster_ids.
  rewrite <- weighted_entries_every.
  repeat split.
  - apply (counter_match games_played winner every_entry)
      with (hist := match_history) (md' := match_data')
           (hist' := match_history'); try done.
    intros tid players p db acc db' acc' Hstep. counter_of_entry Hstep.
  - apply (counter_match wins winner (winning_entry winner))
      with (hist := match_history) (md' := match_data')
           (hist' := match_history'); try done.
    intros tid players p db acc db' acc' Hstep. counter_of_entry Hstep.
  - apply (counter_match ans_games winner (faction_entry "ANS"))
      with (hist := match_history) (md' := match_data')
           (hist' := match_history'); try done.
    intros tid players p db acc db' acc' Hstep. counter_of_entry Hstep.
  - apply (counter_match ans_wins winner (faction_winning_entry "ANS" winner))
      with (hist := match_history) (md' := match_data')
           (hist' := match_history'); try done.
    intros tid players p db acc db' acc' Hstep. counter_of_entry Hstep.
  - apply (counter_match osp_games winner (faction_entry "OSP"))
      with (hist := match_history) (md' := match_data')
           (hist' := match_history'); try done.
    intros tid players p db acc db' acc' Hstep. counter_of_entry Hstep.
  - apply (counter_match osp_wins winner (faction_winning_entry "OSP" winner))
      with (hist := match_history) (md' := match_data')
           (hist' := match_history'); try done.
    intros tid players p db acc db' acc' Hstep. counter_of_entry Hstep.
Qed.

(** On [match_1v1] processed after [match_2v1]: the player [a] has lost the
    second game with an ANS fleet. *)
Lemma counters_count_roster_entries_witness :
  counter_of games_played MoreExamples.processed_then_1v1.2 "a" = 2
  ∧ counter_of wins MoreExamples.processed_then_1v1.2 "a" = 1
  ∧ counter_of ans_games MoreExamples.processed_then_1v1.2 "a" = 2
  ∧ counter_of ans_wins MoreExamples.processed_then_1v1.2 "a" = 1
  ∧ counter_of osp_games MoreExamples.processed_then_1v1.2 "a" = 0
  ∧ counter_of osp_wins MoreExamples.processed_then_1v1.2 "a" = 0.
Proof.
  destruct (counters_count_roster_entries (H := Examples.example_model)
              Examples.match_1v1 _ _ _ _ _ "a" eq_refl example_then_1v1)
    as (H1 & H2 & H3 & H4 & H5 & H6).
  split; [etransitivity; [exact H1|reflexivity]|].
  split; [etransitivity; [exact H2|reflexivity]|].
  split; [etransitivity; [exact H3|reflexivity]|].
  split; [etransitivity; [exact H4|reflexivity]|].
  split; [etransitivity; [exact H5|reflexivity]|].
  etransitivity; [exact H6|reflexivity].
Defined.

(** ** Teammates of an accepted match and of a run *)

(** X4: an accepted record adds to the number of games that the record of
    [a] notes for a different player [b] the number of pairs of a roster
    entry of [a] and a roster entry of [b] in the same team, and to the
    number of wins noted the number of such pairs in the winning team. *)
Theorem teammates_count_shared_rosters `{PlackettLuce}
  (match_data match_data' : MatchData)
  (match_history match_history' : list MatchData)
  (database database' : Database) (a b : string) :
  accepted match_data = true →
  a ≠ b →
  process_match_result match_data match_history database
  = Ok (match_data', match_history', database') →
  teammate_games database' a b
  = teammate_games database a b
    + shared_entries (λ _, 1) a b (teams match_data)
  ∧ teammate_wins database' a b
    = teammate_wins database a b
      + shared_entries
          (λ tid, indicator (bool_decide (tid = winning_team match_data)))
          a b (teams match_data).
Proof.
  intros Hacc Hab Hrun.
  destruct (teammates_match _ _ _ _ _ _ a b Hacc Hrun) as [Hg Hw].
  by rewrite decide_False in Hg, Hw by done.
Qed.

(** On [match_2v1] from the empty database: [a] and [b] have won one game
    together. *)
Lemma teammates_count_shared_rosters_witness :
  teammate_games Examples.processed_2v1.2 "a" "b" = 1
  ∧ teammate_wins Examples.processed_2v1.2 "a" "b" = 1.
Proof.
  destruct (teammates_count_shared_rosters (H := Examples.example_model)
              Examples.match_2v1 _ _ _ _ _ "a" "b" eq_refl
              ltac:(discriminate) example_processed) as [Hg Hw].
  split; [etransitivity; [exact Hg|reflexivity]|].
  etransitivity; [exact Hw|reflexivity].
Defined.

(** X5: in a database built from the empty one by the loop over the records,
    being teammates is mutual: the record of [a] notes as many games and as
    many wins with [b] as the record of [b] notes with [a]. *)
Theorem teammates_are_mutual `{PlackettLuce}
  (matches match_history : list MatchData) (database : Database)
  (a b : string) :
  process_matches matches ([], ∅) = Ok (match_history, database) →
  teammate_games database a b = teammate_games database b a
  ∧ teammate_wins database a b = teammate_wins database b a.
Proof.
  intros Hrun.
  apply (process_matches_keeps
           (λ d, ∀ x y, teammate_games d x y = teammate_games d y x
                        ∧ teammate_wins d x y = teammate_wins d y x)
           matches) with (hist0 := []) (db0 := ∅) (hist := match_history);
    [|done|done].
  intros md hist db md' hist' db' _ Hone Hsym x y.
  destruct (accepted md) eqn:Hacc.
  - destruct (teammates_match _ _ _ _ _ _ x y Hacc Hone) as [-> ->].
    destruct (teammates_match _ _ _ _ _ _ y x Hacc Hone) as [-> ->].
    destruct (Hsym x y) as [-> ->].
    rewrite (shared_entries_sym _ x y).
    rewrite (shared_entries_sym _ x y).
    repeat case_decide; try congruence; done.
  - rewrite process_match_result_skips in Hone
      by (by apply not_accepted_skipped).
    inversion Hone; subst. apply Hsym.
Qed.

(** On [three_matches], for the two players of the larger team. *)
Lemma teammates_are_mutual_witness :
  teammate_games MoreExamples.processed_three_matches.2 "a" "b" = 1
  ∧ teammate_games MoreExamples.processed_three_matches.2 "b" "a" = 1.
Proof.
  destruct (teammates_are_mutual (H := Examples.example_model)
              MoreExamples.three_matches _ _ "a" "b" example_three_matches)
    as [Hg _].
  split; [reflexivity|]. etransitivity; [symmetry; exact Hg|reflexivity].
Defined.

(** ** The players of the database after a match *)

Section Domain.
Context `{model : PlackettLuce}.

Lemma process_players_dom winner tid players todo q :
  ∀ db acc db' acc',
    for_each (process_player winner tid players) todo (db, acc)
    = Ok (db', acc') →
    (db' !! q = None ↔ db !! q = None ∧ q ∉ map player_id todo).
Proof.
  induction todo as [|p todo IH]; intros db acc db' acc' Hrun.
  - simpl in Hrun. inversion Hrun; subst. simpl.
    split; [intros ?; split; [done|apply not_elem_of_nil] | by intros [? _]].
  - cbn [for_each] in Hrun. bind_inv Hrun as [db1 acc1] Hstep.
    rewrite (IH _ _ _ _ Hrun).
    apply process_player_Ok in Hstep as (e' & -> & _).
    rewrite lookup_insert_None. simpl. rewrite not_elem_of_cons.
    split; [intros [[? ?] ?] | intros [? [? ?]]]; repeat split; congruence.
Qed.

Lemma team_loop_dom winner ts q :
  ∀ db upd db' upd',
    for_each (process_team winner) ts (db, upd) = Ok (db', upd') →
    (db' !! q = None
     ↔ db !! q = None ∧ q ∉ map player_id (concat (map snd ts))).
Proof.
  induction ts as [|[tid ps] ts IH]; intros db upd db' upd' Hrun.
  - simpl in Hrun. inversion Hrun; subst. simpl.
    split; [intros ?; split; [done|apply not_elem_of_nil] | by intros [? _]].
  - cbn [for_each] in Hrun. bind_inv Hrun as [db1 upd1] Hstep.
    apply process_team_Ok in Hstep as (l & Hplayers & ->).
    rewrite (IH _ _ _ _ Hrun), (process_players_dom _ _ _ _ q _ _ _ _ Hplayers).
    simpl. rewrite map_app, not_elem_of_app. tauto.
Qed.

End Domain.

(** X6: after an accepted record, whatever the number of its teams and
    whatever [rate] returns, the players of the database are those it had
    and those of the rosters, and nobody else: the synthetic ratings that
    pad a team are never stored. *)
Theorem only_roster_players_are_added `{PlackettLuce}
  (match_data match_data' : MatchData)
  (match_history match_history' : list MatchData)
  (database database' : Database) (pid : string) :
  accepted match_data = true →
  process_match_result match_data match_history database
  = Ok (match_data', match_history', database') →
  (database' !! pid = None
   ↔ database !! pid = None ∧ pid ∉ roster_ids match_data).
Proof.
  intros Hacc Hrun.
  apply process_match_result_steps in Hrun
    as (db0 & upd & l & db1 & rated & Hloop & Happ & Hwb); [|done].
  rewrite (write_back_loop_dom _ _ _ _ pid Hwb),
    (append_loop_dom _ _ _ _ pid Happ).
  by apply (team_loop_dom _ _ pid _ _ _ _ Hloop).
Qed.

(** On [match_2v1], where the smaller team is padded: the reserved name is
    not in the database afterwards, the three players are. *)
Lemma only_roster_players_are_added_witness :
  Examples.processed_2v1.2 !! TEST_PLAYER = None
  ∧ dom Examples.processed_2v1.2 = {[ "a"; "b"; "c" ]}.
Proof.
  split.
  - apply (only_roster_players_are_added (H := Examples.example_model)
             Examples.match_2v1 _ _ _ _ _ TEST_PLAYER eq_refl
             example_processed).
    split; [reflexivity|].
    apply (bool_decide_unpack _). vm_compute. exact I.
  - apply (bool_decide_unpack _). vm_compute. exact I.
Defined.

(** ** Bystanders and histories of a two-team match *)

(** X7: a two-team match leaves the whole record of every player who is in
    none of its rosters as it was, when [rate] keeps the names and the
    database stores each rating under its own name. *)
Theorem bystanders_are_untouched `{PlackettLuce}
  (match_data match_data' : MatchData)
  (match_history match_history' : list MatchData)
  (database database' : Database) (pid : string) :
  two_team_match match_data = true →
  names_ok database →
  rate_keeps_names →
  pid ∉ roster_ids match_data →
  process_match_result match_data match_history database
  = Ok (match_data', match_history', database') →
  database' !! pid = database !! pid.
Proof.
  intros Htwo Hdb Hrate Hpid Hrun.
  apply process_match_result_Ok in Hrun
    as (db1 & w' & o' & am & asg & Hpad & _ & _ & _ & Hwrite & _);
    [|by apply two_team_match_accepted].
  pose proof Hpad as Hpad'.
  apply padded_teams_Ok in Hpad' as (w & o & Hcollect & _).
  pose proof Hcollect as Hsteps.
  apply collect_teams_Ok in Hsteps as (db0 & upd & Hloop & Happ).
  apply collect_teams_spec in Hcollect as (_ & _ & _ & _ & Hmem);
    [|done|done].
  transitivity (db1 !! pid).
  { eapply write_back_loop_frame; [|exact Hwrite].
    intros r Hr Hname.
    destruct (rated_names_of_rosters _ _ _ _ _ r Htwo Hdb Hrate Hpad Hr)
      as [Hin|Htest]; [|congruence].
    rewrite Hname in Hin. done. }
  transitivity (db0 !! pid).
  { eapply append_loop_frame; [|exact Happ].
    intros Hin. by apply Hpid, Hmem. }
  eapply team_loop_frame; [|exact Hloop]. exact Hpid.
Qed.

(** On [match_1v1] processed after [match_2v1]: the record of [b], who does
    not play the second game, is the same before and after. *)
Lemma bystanders_are_untouched_witness :
  MoreExamples.processed_then_1v1.2 !! "b" = Examples.processed_2v1.2 !! "b".
Proof.
  refine (bystanders_are_untouched (H := Examples.example_model)
            Examples.match_1v1 _ _ _ _ _ "b" eq_refl example_names_ok
            example_rate_keeps_names _ example_then_1v1).
  apply (bool_decide_unpack _). vm_compute. exact I.
Defined.

(** X8: a two-team match extends the history of every player by as many
    entries as the player has roster entries, each with the time of the
    match, and leaves all earlier entries as they were, when [rate] keeps the
    names and the database stores each rating under its own name. *)
Theorem history_is_extended `{PlackettLuce}
  (match_data match_data' : MatchData)
  (match_history match_history' : list MatchData)
  (database database' : Database) (pid : string) :
  two_team_match match_data = true →
  names_ok database →
  rate_keeps_names →
  process_match_result match_data match_history database
  = Ok (match_data', match_history', database') →
  ∃ suffix,
    history_of database' pid = history_of database pid ++ suffix
    ∧ length suffix = occurrences pid (roster_ids match_data)
    ∧ Forall (λ x, x.1 = time match_data) suffix.
Proof.
  intros Htwo Hdb Hrate Hrun.
  apply process_match_result_Ok in Hrun
    as (db1 & w' & o' & am & asg & Hpad & _ & _ & _ & Hwrite & _);
    [|by apply two_team_match_accepted].
  pose proof Hpad as Hpad'.
  apply padded_teams_Ok in Hpad' as (w & o & Hcollect & _).
  pose proof (two_team_match_inv _ Htwo)
    as (_ & ta & ra & tb & rb & Hteams & Hne & _).
  destruct (collect_teams_two _ _ _ _ _ _ _ _ _ Hteams Hne Hcollect)
    as (dbA & la & db0 & lb & HA & HB & _ & Happ).
  apply process_players_spec in HA as (HdbA & _ & _ & HhA & _); [|done].
  apply process_players_spec in HB as (_ & _ & _ & HhB & _); [|done].
  apply collect_teams_spec in Hcollect as (_ & _ & Hlen & _ & _);
    [|done|done].
  destruct (append_loop_history _ _ _ _ pid Happ)
    as (suffix & Hh & Hsuffix & Htime).
  rewrite HhB, HhA in Hh.
  assert (length suffix = occurrences pid (roster_ids match_data))
    as Hcount.
  { specialize (Hlen pid). rewrite Hh, length_app in Hlen. lia. }
  apply (write_back_loop_history (time match_data)
           (concat (rate [w'; o'])) pid (history_of database pid)
           (occurrences pid (roster_ids match_data)))
    with (db := db1); [|done|by exists suffix].
  intros Hin Hreal.
  apply list_elem_of_In, in_map_iff in Hin as (r & Hname & Hr).
  apply list_elem_of_In in Hr.
  destruct (rated_names_of_rosters _ _ _ _ _ r Htwo Hdb Hrate Hpad Hr)
    as [Hroster|Htest]; [|congruence].
  rewrite Hname in Hroster. apply occurrences_pos in Hroster. lia.
Qed.

(** On [match_1v1] processed after [match_2v1]: the history of [a] keeps its
    entry of time 10 and gets one entry of time 20. *)
Lemma history_is_extended_witness :
  ∃ suffix,
    history_of MoreExamples.processed_then_1v1.2 "a"
    = history_of Examples.processed_2v1.2 "a" ++ suffix
    ∧ length suffix = 1
    ∧ Forall (λ x, x.1 = 20%Z) suffix.
Proof.
  exact (history_is_extended (H := Examples.example_model)
           Examples.match_1v1 _ _ _ _ _ "a" eq_refl example_names_ok
           example_rate_keeps_names example_then_1v1).
Defined.

(** ** The match history *)

(** X9: the loop over the records appends one record to the match history
    for each accepted record, in the order of processing and with the
    validity flag, the time, the rosters and the winner of the record it
    comes from, and nothing for a record that is skipped. *)
Theorem match_history_lists_accepted_matches `{PlackettLuce}
  (matches match_history0 match_history : list MatchData)
  (database0 database : Database) :
  process_matches matches (match_history0, database0)
  = Ok (match_history, database) →
  map match_summary match_history
  = map match_summary match_history0
    ++ map match_summary (List.filter accepted matches).
Proof. apply process_matches_history. Qed.

(** On [three_matches], the second of which names a winner that is none of
    its teams. *)
Lemma match_history_lists_accepted_matches_witness :
  map time MoreExamples.processed_three_matches.1 = [10%Z; 20%Z].
Proof.
  pose proof (match_history_lists_accepted_matches
                (H := Examples.example_model)
                MoreExamples.three_matches [] _ ∅ _ example_three_matches)
    as Hsummary.
  apply (f_equal (map (λ x, x.1.1.2))) in Hsummary.
  rewrite !map_map in Hsummary. exact Hsummary.
Defined.

(** ** The rosters of a parsed record *)

Lemma dict_set_keys {V : Type} k (v : V) (d : dict V) :
  (dict_set k v d).*1 = if decide (k ∈ d.*1) then d.*1 else d.*1 ++ [k].
Proof.
  induction d as [|[k' v'] d IH].
  - destruct (decide (k ∈ ([] : dict V).*1)) as [Hin|_]; [|reflexivity].
    by apply elem_of_nil in Hin.
  - cbn [dict_set]. destruct (decide (k' = k)) as [->|Hne].
    + rewrite !fmap_cons. cbn [fst].
      destruct (decide (k ∈ k :: d.*1)) as [_|Hnotin]; [done|].
      exfalso. apply Hnotin. by left.
    + rewrite !fmap_cons, IH. cbn [fst].
      destruct (decide (k ∈ d.*1)) as [Hin|Hnotin];
        destruct (decide (k ∈ k' :: d.*1)) as [Hin'|Hnotin']; try done.
      * exfalso. apply Hnotin'. by right.
      * exfalso. apply elem_of_cons in Hin' as [?|?]; congruence.
Qed.

Lemma dict_set_new {V : Type} k (v : V) (d : dict V) :
  k ∉ d.*1 → dict_set k v d = d ++ [(k, v)].
Proof.
  induction d as [|[k' v'] d IH]; simpl; [done|].
  intros [Hne Hk]%not_elem_of_cons.
  rewrite decide_False by congruence. by rewrite IH.
Qed.

Lemma dict_set_NoDup {V : Type} k (v : V) (d : dict V) :
  NoDup d.*1 → NoDup (dict_set k v d).*1.
Proof.
  intros Hd. rewrite dict_set_keys. destruct (decide (k ∈ d.*1)); [done|].
  apply NoDup_app. split; [done|]. split.
  - intros x Hx [->|Hin]%elem_of_cons; [done|]. by apply elem_of_nil in Hin.
  - apply NoDup_singleton.
Qed.

Lemma dict_set_elem {V : Type} k (v : V) (d : dict V) k' v' :
  NoDup d.*1 →
  (k', v') ∈ dict_set k v d →
  (k' = k ∧ v' = v) ∨ (k' ≠ k ∧ (k', v') ∈ d).
Proof.
  induction d as [|[k0 v0] d IH]; simpl; intros Hd.
  - intros [Heq|Hin]%elem_of_cons; [left; by inversion Heq|].
    by apply elem_of_nil in Hin.
  - apply NoDup_cons in Hd as [Hk0 Hd].
    destruct (decide (k0 = k)) as [->|Hne].
    + intros [Heq|Hin]%elem_of_cons; [left; by inversion Heq|].
      right. split; [|by right]. intros ->. apply Hk0.
      by apply (list_elem_of_fmap_2 fst) in Hin.
    + intros [Heq|Hin]%elem_of_cons.
      * inversion Heq; subst. right. split; [done|by left].
      * destruct (IH Hd Hin) as [?|[? ?]]; [by left|].
        right. split; [done|by right].
Qed.

Lemma dict_set_self {V : Type} k (v : V) (d : dict V) :
  (k, v) ∈ dict_set k v d.
Proof.
  induction d as [|[k0 v0] d IH]; cbn [dict_set]; [by left|].
  destruct (decide (k0 = k)); [by left | by right].
Qed.

Lemma dict_set_other {V : Type} k (v : V) (d : dict V) k' v' :
  (k', v') ∈ d → k' ≠ k → (k', v') ∈ dict_set k v d.
Proof.
  induction d as [|[k0 v0] d IH]; cbn [dict_set];
    [by intros ?%elem_of_nil|].
  intros [Heq|Hin]%elem_of_cons Hne.
  - inversion Heq; subst. rewrite decide_False by done. by left.
  - destruct (decide (k0 = k)); right; [done | by apply IH].
Qed.

Lemma for_each_app {A S : Type} (body : A → S → result S) l1 l2 s :
  for_each body (l1 ++ l2) s = for_each body l1 s ≫= for_each body l2.
Proof.
  revert s. induction l1 as [|x l1 IH]; intros s; simpl; [done|].
  destruct (body x s) as [s'|e]; simpl; [apply IH | done].
Qed.

Lemma parse_team_Ok t d d' :
  parse_team t d = Ok d' →
  d' = dict_set (team_id_of t) (roster_of t) d
  ∧ Forall (λ p, faction_ok (faction p) = true) (roster_of t).
Proof.
  unfold parse_team, team_id_of, roster_of.
  destruct (forallb _ _) eqn:Hall; [|discriminate].
  intros Hrun. inversion Hrun; subst. split; [done|].
  rewrite forallb_forall in Hall. apply Forall_forall.
  intros p Hp. by apply Hall, list_elem_of_In.
Qed.

Lemma parse_teams_NoDup ts :
  ∀ d d', NoDup d.*1 → for_each parse_team ts d = Ok d' → NoDup d'.*1.
Proof.
  intros d d' Hd Hrun.
  apply (for_each_invariant parse_team (λ d, NoDup d.*1) ts)
    with (s := d) (s' := d'); [|done|done].
  intros t d1 d2 _ Hd1 (-> & _)%parse_team_Ok. by apply dict_set_NoDup.
Qed.

Lemma parse_teams_origin ts :
  ∀ d d' k v,
    NoDup d.*1 → for_each parse_team ts d = Ok d' →
    (k, v) ∈ d' →
    (k, v) ∈ d ∨ ∃ t, t ∈ ts ∧ k = team_id_of t ∧ v = roster_of t.
Proof.
  induction ts as [|t ts IH]; intros d d' k v Hd Hrun Hin.
  - simpl in Hrun. inversion Hrun; subst. by left.
  - cbn [for_each] in Hrun. bind_inv Hrun as d1 Hstep.
    apply parse_team_Ok in Hstep as (-> & _).
    destruct (IH _ _ k v (dict_set_NoDup _ _ _ Hd) Hrun Hin)
      as [Hd1|(t' & Ht' & Hk & Hv)].
    + apply dict_set_elem in Hd1 as [[-> ->]|[_ Hold]]; [|by left|done].
      right. exists t. split; [by left|done].
    + right. exists t'. split; [by right|done].
Qed.

Lemma parse_teams_keys ts :
  ∀ d d' k,
    for_each parse_team ts d = Ok d' →
    (k ∈ d'.*1 ↔ k ∈ d.*1 ∨ k ∈ map team_id_of ts).
Proof.
  induction ts as [|t ts IH]; intros d d' k Hrun.
  - simpl in Hrun. inversion Hrun; subst. simpl.
    split; [by left|]. intros [?|Hin]; [done|]. by apply elem_of_nil in Hin.
  - cbn [for_each] in Hrun. bind_inv Hrun as d1 Hstep.
    apply parse_team_Ok in Hstep as (-> & _).
    rewrite (IH _ _ k Hrun), dict_set_keys. simpl. rewrite elem_of_cons.
    destruct (decide (team_id_of t ∈ d.*1)) as [Hin|Hnotin].
    + split; [tauto|]. intros [?|[->|?]]; tauto.
    + rewrite elem_of_app, list_elem_of_singleton. split; [tauto|].
      intros [?|[->|?]]; tauto.
Qed.

Lemma parse_teams_keeps ts :
  ∀ d d' k v,
    for_each parse_team ts d = Ok d' →
    (k, v) ∈ d → k ∉ map team_id_of ts → (k, v) ∈ d'.
Proof.
  induction ts as [|t ts IH]; intros d d' k v Hrun Hin Hk.
  - simpl in Hrun. by inversion Hrun; subst.
  - simpl in Hk. apply not_elem_of_cons in Hk as [Hne Hk].
    cbn [for_each] in Hrun. bind_inv Hrun as d1 Hstep.
    apply parse_team_Ok in Hstep as (-> & _).
    apply (IH _ _ k v Hrun); [|done]. by apply dict_set_other.
Qed.

Lemma parse_teams_last ts1 t ts2 d d' :
  for_each parse_team (ts1 ++ t :: ts2) d = Ok d' →
  team_id_of t ∉ map team_id_of ts2 →
  (team_id_of t, roster_of t) ∈ d'.
Proof.
  rewrite for_each_app. intros Hrun Hlast.
  bind_inv Hrun as d1 Hfirst. cbn [for_each] in Hrun.
  bind_inv Hrun as d2 Hstep.
  apply parse_team_Ok in Hstep as (-> & _).
  apply (parse_teams_keeps _ _ _ _ _ Hrun); [apply dict_set_self|done].
Qed.

Lemma parse_teams_distinct ts :
  ∀ d d',
    for_each parse_team ts d = Ok d' →
    NoDup (map team_id_of ts) →
    (∀ k, k ∈ map team_id_of ts → k ∉ d.*1) →
    d' = d ++ map (λ t, (team_id_of t, roster_of t)) ts.
Proof.
  induction ts as [|t ts IH]; intros d d' Hrun Hnd Hfresh.
  - simpl in Hrun. inversion Hrun; subst. by rewrite app_nil_r.
  - simpl in Hnd. apply NoDup_cons in Hnd as [Ht Hnd].
    cbn [for_each] in Hrun. bind_inv Hrun as d1 Hstep.
    apply parse_team_Ok in Hstep as (-> & _).
    rewrite dict_set_new in Hrun by (apply Hfresh; by left).
    rewrite (IH _ _ Hrun Hnd); [by rewrite <- app_assoc|].
    intros k Hk. rewrite fmap_app, not_elem_of_app. split.
    + apply Hfresh. by right.
    + simpl. intros [->|Hin]%elem_of_cons; [done|].
      by apply elem_of_nil in Hin.
Qed.

Lemma parse_battle_report_valid game_time root md :
  parse_battle_report game_time root = Ok md →
  valid md = true →
  basic_checks_fail root = false
  ∧ ∃ d, for_each parse_team (Teams root) [] = Ok d
         ∧ md = {| valid := true; time := game_time; teams := d;
                   winning_team := default "" (WinningTeam root);
                   avg_dlo := 0; match_quality := 0 |}.
Proof.
  unfold parse_battle_report.
  destruct (basic_checks_fail root).
  - intros Hrun Hvalid. inversion Hrun; subst. discriminate.
  - intros Hrun _. bind_inv Hrun as d Hteams. inversion Hrun; subst.
    split; [done|]. by exists d.
Qed.

(** X10: in a valid record that the parser returns, the team identifiers are
    pairwise distinct and are those of the team elements of the report;
    every roster is the roster of a team element: its players in the order
    of the document, with escaped identifier and name and all with the
    faction of the team; of several team elements with one identifier the
    last one provides the roster; and when the identifiers of the team
    elements are distinct, the record lists the teams in the order of the
    document. *)
Theorem parsed_rosters_are_team_rosters
  (game_time : datetime) (root : Report) (match_data : MatchData) :
  parse_battle_report game_time root = Ok match_data →
  valid match_data = true →
  time match_data = game_time
  ∧ winning_team match_data = default "" (WinningTeam root)
  ∧ NoDup (teams match_data).*1
  ∧ (∀ k, k ∈ (teams match_data).*1 ↔ k ∈ map team_id_of (Teams root))
  ∧ (∀ k v, (k, v) ∈ teams match_data →
            ∃ t, t ∈ Teams root ∧ k = team_id_of t ∧ v = roster_of t)
  ∧ (∀ ts1 t ts2,
        Teams root = ts1 ++ t :: ts2 →
        team_id_of t ∉ map team_id_of ts2 →
        (team_id_of t, roster_of t) ∈ teams match_data)
  ∧ (NoDup (map team_id_of (Teams root)) →
     teams match_data
     = map (λ t, (team_id_of t, roster_of t)) (Teams root)).
Proof.
  intros Hrun Hvalid.
  apply parse_battle_report_valid in Hrun as (_ & d & Hteams & ->); [|done].
  simpl. split; [done|]. split; [done|].
  assert (Hnil : NoDup (@nil (string * list PlayerInfo)).*1)
    by apply NoDup_nil_2.
  split; [by apply (parse_teams_NoDup _ _ _ Hnil Hteams)|].
  split.
  { intros k. rewrite (parse_teams_keys _ _ _ k Hteams). simpl.
    split; [intros [Hin|?]; [by apply elem_of_nil in Hin|done] | by right]. }
  split.
  { intros k v Hin.
    destruct (parse_teams_origin _ _ _ k v Hnil Hteams Hin)
      as [Hempty|?]; [by apply elem_of_nil in Hempty|done]. }
  split.
  { intros ts1 t ts2 Hsplit Hlast. rewrite Hsplit in Hteams.
    by apply (parse_teams_last _ _ _ _ _ Hteams). }
  intros Hnd. rewrite (parse_teams_distinct _ _ _ Hteams Hnd); [done|].
  intros k _. apply not_elem_of_nil.
Qed.

(** On the report of a game of half an hour between [two_teams]. *)
Lemma parsed_rosters_are_team_rosters_witness :
  teams Examples.parsed_two_teams
  = map (λ t, (team_id_of t, roster_of t)) Examples.two_teams.
Proof.
  refine (proj2 (proj2 (proj2 (proj2 (proj2 (proj2
            (parsed_rosters_are_team_rosters 5
               (Examples.report_of_duration 1800) Examples.parsed_two_teams
               eq_refl eq_refl)))))) _).
  apply (bool_decide_unpack _). vm_compute. exact I.
Defined.

(** ** Escaped text *)

Lemma html_escape_no_markup s :
  Forall (λ c, markup_char c = false) (chars (html_escape s)).
Proof.
  unfold chars. induction s as [|a s IH]; cbn [html_escape]; [constructor|].
  destruct (Ascii.eqb a (Ascii.ascii_of_nat 38)) eqn:E1;
    [cbn [String.append String.list_ascii_of_string];
     repeat (constructor; [reflexivity|]); exact IH|].
  destruct (Ascii.eqb a (Ascii.ascii_of_nat 60)) eqn:E2;
    [cbn [String.append String.list_ascii_of_string];
     repeat (constructor; [reflexivity|]); exact IH|].
  destruct (Ascii.eqb a (Ascii.ascii_of_nat 62)) eqn:E3;
    [cbn [String.append String.list_ascii_of_string];
     repeat (constructor; [reflexivity|]); exact IH|].
  destruct (Ascii.eqb a (Ascii.ascii_of_nat 34)) eqn:E4;
    [cbn [String.append String.list_ascii_of_string];
     repeat (constructor; [reflexivity|]); exact IH|].
  destruct (Ascii.eqb a (Ascii.ascii_of_nat 39)) eqn:E5;
    [cbn [String.append String.list_ascii_of_string];
     repeat (constructor; [reflexivity|]); exact IH|].
  cbn [String.append String.list_ascii_of_string]. constructor; [|exact IH].
  unfold markup_char. by rewrite E2, E3, E4, E5.
Qed.

Lemma html_escape_clean s :
  Forall (λ c, escaped_char c = false) (chars s) → html_escape s = s.
Proof.
  unfold chars. induction s as [|a s IH]; cbn [html_escape]; [done|].
  cbn [String.list_ascii_of_string]. intros Hall.
  apply Forall_cons in Hall as [Ha Hall].
  unfold escaped_char, markup_char in Ha.
  repeat (apply orb_false_iff in Ha as [Ha ?]).
  apply orb_false_iff in H as [H ?].
  apply orb_false_iff in H as [H ?].
  apply orb_false_iff in H as [H ?].
  rewrite Ha, H, H2, H1, H0. cbn [String.append]. by rewrite IH.
Qed.

(** X11: every player of a record that the parser returns carries an
    identifier and a name without angle brackets and quotes; the player comes
    from a player element of a team element with the identifier of the
    roster, a text of that element without any of the five characters that
    [html.escape] replaces is stored as it is, and a missing element gives
    the empty string. *)
Theorem parsed_text_is_escaped
  (game_time : datetime) (root : Report) (match_data : MatchData)
  (team_id : string) (players : list PlayerInfo) (p : PlayerInfo) :
  parse_battle_report game_time root = Ok match_data →
  (team_id, players) ∈ teams match_data →
  p ∈ players →
  Forall (λ c, markup_char c = false) (chars (player_id p))
  ∧ Forall (λ c, markup_char c = false) (chars (steam_name p))
  ∧ ∃ t pe,
      t ∈ Teams root ∧ team_id = team_id_of t ∧ pe ∈ Players t
      ∧ (∀ s, AccountId pe = Some s →
              Forall (λ c, escaped_char c = false) (chars s) →
              player_id p = s)
      ∧ (AccountId pe = None → player_id p = "")
      ∧ (∀ s, PlayerName pe = Some s →
              Forall (λ c, escaped_char c = false) (chars s) →
              steam_name p = s)
      ∧ (PlayerName pe = None → steam_name p = "").
Proof.
  unfold parse_battle_report.
  destruct (basic_checks_fail root).
  { intros Hrun Hin. inversion Hrun; subst. by apply elem_of_nil in Hin. }
  intros Hrun Hin Hp. bind_inv Hrun as d Hteams. inversion Hrun; subst.
  simpl in Hin.
  assert (Hnil : NoDup (@nil (string * list PlayerInfo)).*1)
    by apply NoDup_nil_2.
  destruct (parse_teams_origin _ _ _ _ _ Hnil Hteams Hin)
    as [Hempty|(t & Ht & -> & ->)]; [by apply elem_of_nil in Hempty|].
  unfold roster_of in Hp. apply list_elem_of_fmap in Hp as (pe & -> & Hpe).
  unfold parse_player; simpl.
  split; [destruct (AccountId pe); simpl;
            [apply html_escape_no_markup | constructor]|].
  split; [destruct (PlayerName pe); simpl;
            [apply html_escape_no_markup | constructor]|].
  exists t, pe. split; [done|]. split; [done|]. split; [done|].
  split; [intros s -> Hs; simpl; by apply html_escape_clean|].
  split; [by intros ->|].
  split; [intros s -> Hs; simpl; by apply html_escape_clean|].
  by intros ->.
Qed.

(** On the report [report_tagged], for the player whose name carries a
    tag. *)
Lemma parsed_text_is_escaped_witness :
  Forall (λ c, markup_char c = false) (chars (steam_name ParserExamples.tom))
  ∧ player_id ParserExamples.tom = "1".
Proof.
  destruct (parsed_text_is_escaped 5 ParserExamples.report_tagged
              ParserExamples.parsed_tagged "TeamA" [ParserExamples.tom]
              ParserExamples.tom eq_refl)
    as (_ & Hname & _).
  - left.
  - apply list_elem_of_singleton. reflexivity.
  - split; [exact Hname | reflexivity].
Defined.

(** ** From the report to the database *)




Section Pipeline.
Context `{model : PlackettLuce}.




End Pipeline.



(** ** A list of directives *)

Lemma adjusted_nil e : adjusted e [] = e.
Proof. by destruct e as [? [] ? ? ? ? ? ? ? ? ?]. Qed.

Lemma apply_adjustment_lookup `{PlackettLuce} db adj pid :
  apply_adjustment db adj !! pid
  = if String.eqb (steam_id adj) pid
    then (λ e, adjusted e [mu_adjustment adj]) <$> db !! pid
    else db !! pid.
Proof.
  unfold apply_adjustment.
  destruct (String.eqb (steam_id adj) pid) eqn:Hid.
  - apply String.eqb_eq in Hid as <-.
    destruct (db !! steam_id adj) as [e|] eqn:He; [|by rewrite He].
    by rewrite lookup_insert_eq.
  - apply String.eqb_neq in Hid.
    destruct (db !! steam_id adj) as [e|] eqn:He; [|done].
    by rewrite lookup_insert_ne.
Qed.

Lemma apply_manual_adjustments_lookup `{PlackettLuce} adjustments :
  ∀ db pid,
    apply_manual_adjustments db adjustments !! pid
    = (λ e, adjusted e (adjustments_for pid adjustments)) <$> db !! pid.
Proof.
  unfold apply_manual_adjustments, adjustments_for.
  induction adjustments as [|adj adjustments IH]; intros db pid.
  - simpl. destruct (db !! pid) as [e|]; [|done]. simpl.
    by rewrite adjusted_nil.
  - cbn [fold_left List.filter]. rewrite IH, apply_adjustment_lookup.
    destruct (String.eqb (steam_id adj) pid); [|done].
    destruct (db !! pid) as [e|]; [|done]. reflexivity.
Qed.

(** X13: after [apply_manual_adjustments] the database has the players it
    had; the record of each is the old one in which [mu] has been increased
    by the [mu_adjustment] of every directive for that player, one after the
    other in the order of the list, with the name and [sigma] of the rating
    and all other fields as they were. *)
Theorem adjustments_accumulate_per_player `{PlackettLuce}
  (database : Database) (adjustments : list Adjustment) (pid : string) :
  apply_manual_adjustments database adjustments !! pid
  = (λ e, adjusted e (adjustments_for pid adjustments)) <$> database !! pid.
Proof. apply apply_manual_adjustments_lookup. Qed.

(** X14: two neighbouring directives for different players can be swapped
    without changing the database that [apply_manual_adjustments] builds. *)
Theorem adjustments_of_different_players_commute `{PlackettLuce}
  (database : Database) (before after : list Adjustment)
  (adj1 adj2 : Adjustment) :
  steam_id adj1 ≠ steam_id adj2 →
  apply_manual_adjustments database (before ++ adj1 :: adj2 :: after)
  = apply_manual_adjustments database (before ++ adj2 :: adj1 :: after).
Proof.
  intros Hne. apply map_eq. intros pid.
  rewrite !apply_manual_adjustments_lookup.
  assert (adjustments_for pid (before ++ adj1 :: adj2 :: after)
          = adjustments_for pid (before ++ adj2 :: adj1 :: after)) as ->;
    [|done].
  unfold adjustments_for. rewrite !List.filter_app. f_equal. f_equal.
  cbn [List.filter].
  destruct (String.eqb (steam_id adj1) pid) eqn:H1;
    destruct (String.eqb (steam_id adj2) pid) eqn:H2; try done.
  apply String.eqb_eq in H1, H2. congruence.
Qed.

(** On [two_adjustments], after the games of [three_reports]. *)
Lemma adjustments_of_different_players_commute_witness :
  apply_manual_adjustments (model := Examples.example_model)
    MoreExamples.processed_three_reports.2 MoreExamples.two_adjustments
  = apply_manual_adjustments (model := Examples.example_model)
      MoreExamples.processed_three_reports.2
      (rev MoreExamples.two_adjustments).
Proof.
  refine (adjustments_of_different_players_commute
            (H := Examples.example_model)
            MoreExamples.processed_three_reports.2 [] [] _ _ _).
  simpl. discriminate.
Defined.

(** ** The order of time *)

Lemma insert_sorted_last {A : Type} (lt : A → A → bool) x l :
  Forall (λ y, lt y x = true) l → insert_sorted lt x l = l ++ [x].
Proof.
  induction 1 as [|y l Hy _ IH]; simpl; [done|]. by rewrite Hy, IH.
Qed.

Lemma py_sorted_ascending {A : Type} (lt : A → A → bool) l :
  StronglySorted (λ a b, lt b a = false) l → py_sorted lt l = l.
Proof.
  unfold py_sorted. induction 1 as [|x l _ IH Hx]; simpl; [done|].
  rewrite IH. destruct l as [|y l]; simpl; [done|].
  apply Forall_cons in Hx as [-> _]. done.
Qed.

Lemma py_sorted_descending {A : Type} (lt : A → A → bool) l :
  StronglySorted (λ a b, lt b a = true) l → py_sorted lt l = rev l.
Proof.
  unfold py_sorted. induction 1 as [|x l _ IH Hx]; simpl; [done|].
  rewrite IH. apply insert_sorted_last.
  apply Forall_forall. intros y Hy. rewrite Forall_forall in Hx.
  apply Hx. apply list_elem_of_In, in_rev. by apply list_elem_of_In.
Qed.

Lemma sublist_StronglySorted {A : Type} (R : relation A) l1 l2 :
  l1 `sublist_of` l2 → StronglySorted R l2 → StronglySorted R l1.
Proof.
  induction 1 as [|x l1 l2 Hsub IH|x l1 l2 Hsub IH];
    intros Hsorted; [done| |].
  - apply StronglySorted_cons in Hsorted as [Hx Hsorted].
    apply StronglySorted_cons. split; [|by apply IH].
    apply Forall_forall. intros y Hy. rewrite Forall_forall in Hx.
    apply Hx. by eapply elem_of_sublist.
  - apply StronglySorted_cons in Hsorted as [_ Hsorted]. by apply IH.
Qed.

Lemma in_time_order_mono t t' h :
  (t ≤ t')%Z → in_time_order_until t h → in_time_order_until t' h.
Proof.
  intros Hle [Hsorted Hall]. split; [done|].
  eapply Forall_impl; [exact Hall|]. simpl. lia.
Qed.

Lemma in_time_order_snoc t h o :
  in_time_order_until t h → in_time_order_until t (h ++ [(t, o)]).
Proof.
  intros [Hsorted Hall]. split.
  - rewrite map_app. apply StronglySorted_app_2; [|done|by repeat constructor].
    intros x1 x2 (x & -> & Hx)%list_elem_of_fmap ->%list_elem_of_singleton.
    rewrite Forall_forall in Hall. by apply Hall.
  - apply Forall_app. split; [done|]. constructor; [simpl; lia|constructor].
Qed.

Lemma in_time_order_overwrite t h o :
  h ≠ [] → in_time_order_until t h →
  in_time_order_until t (<[pred (length h) := (t, o)]> h).
Proof.
  destruct h as [|x h _] using rev_ind; [done|]. intros _ [Hsorted Hall].
  rewrite overwrite_last_of_suffix by done. simpl.
  apply in_time_order_snoc. split.
  - rewrite map_app in Hsorted. by apply StronglySorted_app_1_l in Hsorted.
  - by apply Forall_app in Hall as [Hall _].
Qed.

Lemma parse_battle_report_time game_time root md :
  parse_battle_report game_time root = Ok md → time md = game_time.
Proof.
  unfold parse_battle_report. destruct (basic_checks_fail root).
  - intros Hrun. by inversion Hrun.
  - intros Hrun. bind_inv Hrun as d Hteams. by inversion Hrun.
Qed.

Section TimeOrder.
Context `{model : PlackettLuce}.

Lemma process_match_result_until t md hist db md' hist' db' :
  (t ≤ time md)%Z → histories_until t db →
  process_match_result md hist db = Ok (md', hist', db') →
  histories_until (time md) db'.
Proof.
  intros Hle Hdb Hrun.
  apply (process_match_result_keeps (histories_until (time md)) md)
    with (hist := hist) (db := db) (md' := md') (hist' := hist');
    [| | |done|].
  - intros tid players p d acc d' acc' _ _ Hstep Hd.
    apply process_player_entry in Hstep as (_ & e' & -> & Hfields).
    destruct Hfields as (_ & _ & _ & _ & _ & _ & _ & _ & _ & Hh & _).
    intros q e Hq. destruct (decide (q = player_id p)) as [->|Hne].
    + rewrite lookup_insert_eq in Hq. inversion Hq; subst e. rewrite Hh.
      destruct (d !! player_id p) as [e0|] eqn:He0; simpl.
      * by apply (Hd _ _ He0).
      * split; constructor.
    + rewrite lookup_insert_ne in Hq by done. by apply (Hd _ _ Hq).
  - intros r d d' Hstep Hd.
    apply append_history_Ok in Hstep as (e0 & He0 & ->).
    intros q e Hq. destruct (decide (q = name r)) as [->|Hne].
    + rewrite lookup_insert_eq in Hq. inversion Hq; subst e. simpl.
      apply in_time_order_snoc. by apply (Hd _ _ He0).
    + rewrite lookup_insert_ne in Hq by done. by apply (Hd _ _ Hq).
  - intros r d d' Hstep Hd.
    apply write_back_Ok in Hstep as [[_ ->]|(_ & e0 & He0 & Hne0 & ->)];
      [done|].
    intros q e Hq. destruct (decide (q = name r)) as [->|Hne].
    + rewrite lookup_insert_eq in Hq. inversion Hq; subst e. simpl.
      apply in_time_order_overwrite; [done|]. by apply (Hd _ _ He0).
    + rewrite lookup_insert_ne in Hq by done. by apply (Hd _ _ Hq).
  - intros q e Hq. eapply in_time_order_mono; [exact Hle|].
    by apply (Hdb _ _ Hq).
Qed.

Lemma process_report_Ok gt root hist db hist' db' :
  process_report (gt, root) (hist, db) = Ok (hist', db') →
  ∃ md md', parse_battle_report gt root = Ok md
            ∧ process_match_result md hist db = Ok (md', hist', db').
Proof.
  unfold process_report. cbn [fst snd]. intros Hrun.
  bind_inv Hrun as md Hparse.
  bind_inv Hrun as [[md' h'] d'] Hres. inversion Hrun; subst.
  by exists md, md'.
Qed.

Lemma process_reports_until reports :
  ∀ t0 hist0 db0 hist db,
    StronglySorted Z.le (map fst reports) →
    Forall (λ r, (t0 ≤ r.1)%Z) reports →
    histories_until t0 db0 →
    for_each process_report reports (hist0, db0) = Ok (hist, db) →
    ∃ t, histories_until t db.
Proof.
  induction reports as [|[gt root] reports IH];
    intros t0 hist0 db0 hist db Hsorted Hfrom Hdb0 Hrun.
  { simpl in Hrun. inversion Hrun; subst. by exists t0. }
  cbn [for_each] in Hrun. bind_inv Hrun as [hist1 db1] Hstep.
  apply process_report_Ok in Hstep as (md & md' & Hparse & Hstep).
  apply parse_battle_report_time in Hparse.
  apply Forall_cons in Hfrom as [Hgt _]. simpl in Hgt.
  rewrite fmap_cons in Hsorted.
  apply StronglySorted_cons in Hsorted as [Hlater Hsorted].
  apply (IH gt hist1 db1 hist db); [done| | |done].
  - apply Forall_forall. intros r Hr. rewrite Forall_forall in Hlater.
    apply Hlater. by apply list_elem_of_fmap_2.
  - rewrite <- Hparse.
    apply (process_match_result_until t0 md hist0 db0 md' hist1 db1);
      [by rewrite Hparse|done|done].
Qed.

Lemma process_reports_times reports :
  ∀ hist0 db0 hist db,
    for_each process_report reports (hist0, db0) = Ok (hist, db) →
    ∃ l, hist = hist0 ++ l ∧ map time l `sublist_of` map fst reports.
Proof.
  induction reports as [|[gt root] reports IH];
    intros hist0 db0 hist db Hrun.
  { simpl in Hrun. inversion Hrun; subst. exists [].
    by rewrite app_nil_r. }
  cbn [for_each] in Hrun. bind_inv Hrun as [hist1 db1] Hstep.
  apply process_report_Ok in Hstep as (md & md' & Hparse & Hstep).
  apply parse_battle_report_time in Hparse.
  destruct (IH _ _ _ _ Hrun) as (l & -> & Hsub).
  destruct (accepted md) eqn:Hacc.
  - apply process_match_result_Ok in Hstep
      as (d1 & w' & o' & am & asg & _ & _ & _ & Hmd' & _ & ->);
      [|by apply accepted_not_skipped].
    exists (md' :: l). split; [by rewrite <- app_assoc|].
    rewrite !fmap_cons. cbn [fst].
    assert (time md' = gt) as -> by (rewrite Hmd'; simpl; done).
    by apply sublist_skip.
  - rewrite process_match_result_skips in Hstep
      by (by apply not_accepted_skipped).
    inversion Hstep; subst. exists l. split; [done|].
    rewrite fmap_cons. by apply sublist_cons.
Qed.

End TimeOrder.

Lemma StronglySorted_of_fmap {A B : Type} (f : A → B) (R : relation B)
  (R' : relation A) l :
  (∀ a b, R (f a) (f b) → R' a b) →
  StronglySorted R (map f l) → StronglySorted R' l.
Proof.
  intros HR. induction l as [|x l IH]; [constructor|].
  rewrite fmap_cons. intros [Hx Hl]%StronglySorted_cons.
  apply StronglySorted_cons. split; [|by apply IH].
  apply Forall_forall. intros y Hy. rewrite Forall_forall in Hx.
  apply HR, Hx. by apply list_elem_of_fmap_2.
Qed.

(** X15: when the reports are processed in the order of their times, as
    [main] sorts them, the history of every player is in the order of time,
    before and after the manual adjustments; the sort of [generate_dlo_plot]
    then leaves the history as it is, so that the plot shows the entries of
    the history in the order in which they were stored, and no plot is made
    for an empty history. *)
Theorem histories_are_in_time_order `{PlackettLuce}
  (reports : list (datetime * Report)) (adjustments : list Adjustment)
  (match_history : list MatchData) (database : Database)
  (pid : string) (e : PlayerData) :
  StronglySorted Z.le (map fst reports) →
  process_reports reports = Ok (match_history, database) →
  apply_manual_adjustments database adjustments !! pid = Some e →
  StronglySorted Z.le (map fst (history e))
  ∧ generate_dlo_plot e
    = match history e with
      | [] => None
      | _ :: _ => Some (map fst (history e), map snd (history e))
      end.
Proof.
  intros Hsorted Hrun He.
  rewrite apply_manual_adjustments_lookup in He.
  destruct (database !! pid) as [e0|] eqn:He0; [|discriminate].
  simpl in He. inversion He; subst e; clear He.
  change (history (adjusted e0 (adjustments_for pid adjustments)))
    with (history e0).
  assert (StronglySorted Z.le (map fst (history e0))) as Hh.
  { unfold process_reports in Hrun.
    destruct reports as [|[gt root] reports].
    { simpl in Hrun. inversion Hrun; subst.
      by rewrite lookup_empty in He0. }
    destruct (process_reports_until ((gt, root) :: reports) gt [] ∅
                match_history database Hsorted) as [t Hdb]; [| |done|].
    - rewrite fmap_cons in Hsorted.
      apply StronglySorted_cons in Hsorted as [Hlater _].
      constructor; [simpl; lia|]. apply Forall_forall. intros r Hr.
      rewrite Forall_forall in Hlater. apply Hlater.
      by apply list_elem_of_fmap_2.
    - intros q e Hq. by rewrite lookup_empty in Hq.
    - by destruct (Hdb _ _ He0). }
  split; [done|]. unfold generate_dlo_plot.
  change (history (adjusted e0 (adjustments_for pid adjustments)))
    with (history e0).
  destruct (history e0) as [|x h] eqn:Hhist; [done|].
  rewrite py_sorted_ascending; [done|].
  apply (StronglySorted_of_fmap fst Z.le); [|done].
  intros a b Hab. apply Z.ltb_ge. exact Hab.
Qed.

(** On [three_reports] and [two_adjustments], for the player [1]. *)
Lemma histories_are_in_time_order_witness :
  ∃ e, apply_manual_adjustments (model := Examples.example_model)
         MoreExamples.processed_three_reports.2
         MoreExamples.two_adjustments !! "1" = Some e
       ∧ map fst (history e) = [5%Z; 7%Z]
       ∧ StronglySorted Z.le (map fst (history e))
       ∧ generate_dlo_plot e
         = match history e with
           | [] => None
           | _ :: _ => Some (map fst (history e), map snd (history e))
           end.
Proof.
  destruct (apply_manual_adjustments (model := Examples.example_model)
              MoreExamples.processed_three_reports.2
              MoreExamples.two_adjustments !! "1") as [e|] eqn:He.
  - exists e. split; [reflexivity|]. split.
    + assert (Some e = Some e) as Hsame by reflexivity.
      rewrite <- He in Hsame at 1. vm_compute in Hsame.
      inversion Hsame; subst e. reflexivity.
    + refine (histories_are_in_time_order (H := Examples.example_model)
                MoreExamples.three_reports MoreExamples.two_adjustments
                _ _ "1" e _ example_three_reports He).
      apply (bool_decide_unpack _). vm_compute. exact I.
  - vm_compute in He. discriminate He.
Defined.

(** X16: when the times of the reports are strictly increasing, the times of
    the match history are strictly increasing as well, and the list that
    [render_match_history] sorts by time, latest first, is the match history
    in reverse. *)
Theorem match_history_is_shown_latest_first `{PlackettLuce}
  (reports : list (datetime * Report))
  (match_history : list MatchData) (database : Database) :
  StronglySorted Z.lt (map fst reports) →
  process_reports reports = Ok (match_history, database) →
  StronglySorted Z.lt (map time match_history)
  ∧ sorted_match_history match_history = rev match_history.
Proof.
  intros Hsorted Hrun. unfold process_reports in Hrun.
  apply process_reports_times in Hrun as (l & -> & Hsub).
  rewrite app_nil_l.
  assert (StronglySorted Z.lt (map time l)) as Hl
    by (by eapply sublist_StronglySorted).
  split; [done|]. apply py_sorted_descending.
  apply (StronglySorted_of_fmap time Z.lt); [|done].
  intros a b Hab. by apply Z.ltb_lt.
Qed.

(** On [three_reports]. *)
Lemma match_history_is_shown_latest_first_witness :
  map time (sorted_match_history MoreExamples.processed_three_reports.1)
  = [7%Z; 5%Z].
Proof.
  assert (StronglySorted Z.lt (map fst MoreExamples.three_reports))
    as Hsorted by (apply (bool_decide_unpack _); vm_compute; exact I).
  exact (f_equal (map time)
           (proj2 (match_history_is_shown_latest_first
                     (H := Examples.example_model)
                     MoreExamples.three_reports _ _
                     Hsorted example_three_reports))).
Defined.

(** ** The best friends *)

Section Sorted.
Context {A : Type} (lt : A → A → bool) (R : relation A).
Hypothesis R_trans : ∀ a b c, R a b → R b c → R a c.
Hypothesis lt_R : ∀ a b, lt a b = true → R a b.
Hypothesis not_lt_R : ∀ a b, lt a b = false → R b a.

Lemma insert_sorted_Permutation x l : insert_sorted lt x l ≡ₚ x :: l.
Proof.
  induction l as [|y l IH]; simpl; [done|].
  destruct (lt y x); [|done]. rewrite IH. apply Permutation_swap.
Qed.

Lemma py_sorted_Permutation l : py_sorted lt l ≡ₚ l.
Proof.
  unfold py_sorted. induction l as [|x l IH]; simpl; [done|].
  by rewrite insert_sorted_Permutation, IH.
Qed.

Lemma insert_sorted_StronglySorted x l :
  StronglySorted R l → StronglySorted R (insert_sorted lt x l).
Proof.
  induction 1 as [|y l Hl IH Hy]; simpl; [by repeat constructor|].
  destruct (lt y x) eqn:Hyx.
  - apply StronglySorted_cons. split; [|done].
    rewrite insert_sorted_Permutation. constructor; [by apply lt_R|done].
  - apply StronglySorted_cons. split; [|by apply StronglySorted_cons].
    constructor; [by apply not_lt_R|].
    eapply Forall_impl; [exact Hy|]. intros z Hz. simpl.
    by apply (R_trans x y z); [apply not_lt_R|].
Qed.

Lemma py_sorted_StronglySorted l : StronglySorted R (py_sorted lt l).
Proof.
  unfold py_sorted. induction l as [|x l IH]; simpl; [constructor|].
  by apply insert_sorted_StronglySorted.
Qed.

End Sorted.

Lemma friend_lt_wins a b :
  friend_lt a b = true → (friend_wins b ≤ friend_wins a)%nat.
Proof.
  unfold friend_lt.
  destruct (Z.eqb_spec (- Z.of_nat (friend_wins a))
              (- Z.of_nat (friend_wins b))) as [Heq|Hne]; [lia|].
  intros Hlt%Z.ltb_lt. lia.
Qed.

Lemma friend_not_lt_wins a b :
  friend_lt a b = false → (friend_wins a ≤ friend_wins b)%nat.
Proof.
  unfold friend_lt.
  destruct (Z.eqb_spec (- Z.of_nat (friend_wins a))
              (- Z.of_nat (friend_wins b))) as [Heq|Hne]; [lia|].
  intros Hlt%Z.ltb_ge. lia.
Qed.

Lemma add_friend_loop database items :
  Forall (λ item, (1 ≤ games item.2)%nat) items →
  ∀ acc, for_each (add_friend database) items acc
         = Ok (acc ++ omap (friend_of database) items).
Proof.
  induction 1 as [|[t s] items Hgames _ IH]; intros acc.
  { simpl. by rewrite app_nil_r. }
  assert (add_friend database (t, s) acc
          = Ok (acc ++ from_option (λ f, [f]) [] (friend_of database (t, s))))
    as Hstep.
  { unfold add_friend, friend_of. cbn [fst snd] in *.
    destruct (tm_wins s =? 0)%nat; [by rewrite app_nil_r|].
    destruct (database !! t) as [d|]; [|by rewrite app_nil_r].
    unfold py_div. destruct (games s =? 0)%nat eqn:Hzero; [|done].
    apply Nat.eqb_eq in Hzero. lia. }
  cbn [for_each]. rewrite Hstep.
  change (Ok ?a ≫= ?f) with (f a). cbv beta. rewrite IH.
  cbn [omap list_omap]. rewrite <- app_assoc.
  by destruct (friend_of database (t, s)).
Qed.

Lemma friend_of_Some database item f :
  friend_of database item = Some f →
  ∃ d, database !! item.1 = Some d
       ∧ friend_id f = item.1
       ∧ friend_name f = pd_steam_name d
       ∧ friend_games f = games item.2
       ∧ friend_wins f = tm_wins item.2
       ∧ (1 ≤ tm_wins item.2)%nat.
Proof.
  unfold friend_of. destruct (tm_wins item.2 =? 0)%nat eqn:Hzero;
    [discriminate|].
  apply Nat.eqb_neq in Hzero.
  destruct (database !! item.1) as [d|]; [|discriminate]. simpl.
  intros Hf. inversion Hf; subst. simpl. exists d. repeat split; lia.
Qed.

Lemma friend_ids_sublist database items :
  map friend_id (omap (friend_of database) items) `sublist_of` items.*1.
Proof.
  induction items as [|item items IH]; [constructor|].
  cbn [omap list_omap]. rewrite fmap_cons.
  destruct (friend_of database item) as [f|] eqn:Hf.
  - apply friend_of_Some in Hf as (d & _ & Hid & _).
    rewrite fmap_cons, Hid. by apply sublist_skip.
  - by apply sublist_cons.
Qed.

(** X17: for a player whose record is consistent, [get_best_friends] raises
    no exception and returns at most three teammates with different
    identifiers, in the order of their wins, the most wins first; each is a
    teammate of the player that the database knows, other than the player,
    with the name of the database, the games and the wins of the teammate
    table, and at least one win; and a teammate with a win that the database
    knows and that is not returned has no more wins than any of the three
    that are. *)
Theorem best_friends_are_the_top_three
  (database : Database) (pid : string) (player_data : PlayerData)
  (teammate_items : list (string * TeammateStats)) :
  record_ok pid player_data →
  teammate_items ≡ₚ map_to_list (teammates player_data) →
  ∃ friends,
    get_best_friends teammate_items database = Ok friends
    ∧ (length friends ≤ 3)%nat
    ∧ NoDup (map friend_id friends)
    ∧ StronglySorted (λ a b, (friend_wins b ≤ friend_wins a)%nat) friends
    ∧ (∀ f, f ∈ friends →
          ∃ s d,
            teammates player_data !! friend_id f = Some s
            ∧ database !! friend_id f = Some d
            ∧ friend_id f ≠ pid
            ∧ friend_name f = pd_steam_name d
            ∧ friend_games f = games s
            ∧ friend_wins f = tm_wins s
            ∧ (1 ≤ friend_wins f ≤ friend_games f)%nat)
    ∧ (∀ t s,
          teammates player_data !! t = Some s →
          (1 ≤ tm_wins s)%nat →
          is_Some (database !! t) →
          t ∉ map friend_id friends →
          length friends = 3%nat
          ∧ Forall (λ f, (tm_wins s ≤ friend_wins f)%nat) friends).
Proof.
  intros (_ & _ & _ & _ & _ & _ & Hself & Hmates) Hitems.
  set (candidates := omap (friend_of database) teammate_items).
  set (ranked := py_sorted friend_lt candidates).
  assert (∀ t s, (t, s) ∈ teammate_items ↔ teammates player_data !! t = Some s)
    as Hitem.
  { intros t s. rewrite Hitems. apply elem_of_map_to_list. }
  assert (ranked ≡ₚ candidates) as Hperm by apply py_sorted_Permutation.
  assert (StronglySorted (λ a b, (friend_wins b ≤ friend_wins a)%nat) ranked)
    as Hranked.
  { apply py_sorted_StronglySorted.
    - intros a b c Hab Hbc. simpl in *. lia.
    - apply friend_lt_wins.
    - apply friend_not_lt_wins. }
  assert (ranked = take 3 ranked ++ drop 3 ranked) as Hsplit
    by (by rewrite take_drop).
  exists (take 3 ranked). split.
  { unfold get_best_friends. rewrite add_friend_loop; [done|].
    apply Forall_forall. intros [t s] Hin. simpl.
    apply Hitem in Hin. by destruct (Hmates _ _ Hin). }
  split; [rewrite length_take; lia|].
  split.
  { assert (NoDup (map friend_id candidates)) as Hnd.
    { eapply sublist_NoDup; [|apply friend_ids_sublist].
      rewrite Hitems. apply NoDup_fst_map_to_list. }
    rewrite <- Hperm in Hnd.
    eapply sublist_NoDup; [exact Hnd|]. apply fmap_sublist, sublist_take. }
  split.
  { rewrite Hsplit in Hranked. by apply StronglySorted_app_1_l in Hranked. }
  split.
  { intros f Hf.
    assert (f ∈ candidates) as Hc.
    { rewrite <- Hperm. eapply elem_of_sublist; [exact Hf|].
      apply sublist_take. }
    apply list_elem_of_omap in Hc as ([t s] & Hin & Hfriend).
    apply friend_of_Some in Hfriend
      as (d & Hd & Hid & Hname & Hgames & Hwins & Hone).
    simpl in *. apply Hitem in Hin.
    destruct (Hmates _ _ Hin) as [_ Hle].
    exists s, d. rewrite Hid, Hwins, Hgames.
    repeat split; try done; try lia.
    intros ->. congruence. }
  intros t s Hts Hone [d Hd] Hnot.
  assert (∃ c, friend_of database (t, s) = Some c) as [c Hc].
  { unfold friend_of. simpl.
    destruct (tm_wins s =? 0)%nat eqn:Hzero;
      [apply Nat.eqb_eq in Hzero; lia|].
    rewrite Hd. simpl. eauto. }
  assert (c ∈ ranked) as Hin.
  { rewrite Hperm. apply list_elem_of_omap. exists (t, s).
    split; [by apply Hitem|done]. }
  apply friend_of_Some in Hc as (_ & _ & Hid & _ & _ & Hwins & _).
  simpl in *.
  rewrite Hsplit in Hin. apply elem_of_app in Hin as [Hin|Hin].
  { exfalso. apply Hnot. rewrite <- Hid. by apply list_elem_of_fmap_2. }
  assert (3 < length ranked)%nat as Hlong.
  { destruct (decide (3 < length ranked)%nat) as [?|Hshort]; [done|].
    rewrite drop_ge in Hin by lia. by apply elem_of_nil in Hin. }
  split; [rewrite length_take; lia|].
  apply Forall_forall. intros f Hf. rewrite <- Hwins.
  rewrite Hsplit in Hranked.
  by apply (StronglySorted_app_1_elem_of _ _ _ f c) in Hranked.
Qed.

(** On the record of the player [1] after [three_reports]. *)
Lemma best_friends_are_the_top_three_witness :
  ∃ friends,
    get_best_friends PageExamples.alice_items
      MoreExamples.processed_three_reports.2 = Ok friends
    ∧ (length friends ≤ 3)%nat
    ∧ NoDup (map friend_id friends).
Proof.
  assert (record_ok "1" PageExamples.alice_record) as Hrecord.
  { apply (process_reports_ok (H := Examples.example_model)
             MoreExamples.three_reports _ _ example_three_reports).
    vm_compute. reflexivity. }
  assert (PageExamples.alice_items
          ≡ₚ map_to_list (teammates PageExamples.alice_record)) as Hitems.
  { vm_compute. reflexivity. }
  destruct (best_friends_are_the_top_three
              MoreExamples.processed_three_reports.2 "1"
              PageExamples.alice_record PageExamples.alice_items
              Hrecord Hitems) as (friends & Hrun & Hlen & Hnd & _).
  by exists friends.
Defined.

(** ** The numbers of the player page *)

(** X18: for every player of the database that the run builds, before and
    after the manual adjustments, the losses that [render_player_page] shows
    are not negative, in total and for either faction, the losses of the two
    factions add up to the losses, and wins and losses add up to the
    games. *)
Theorem player_page_losses_add_up `{PlackettLuce}
  (reports : list (datetime * Report)) (adjustments : list Adjustment)
  (match_history : list MatchData) (database : Database)
  (pid : string) (e : PlayerData) :
  process_reports reports = Ok (match_history, database) →
  apply_manual_adjustments database adjustments !! pid = Some e →
  (0 ≤ losses (page_stats e))%Z
  ∧ (0 ≤ ans_losses (page_stats e))%Z
  ∧ (0 ≤ osp_losses (page_stats e))%Z
  ∧ losses (page_stats e)
    = (ans_losses (page_stats e) + osp_losses (page_stats e))%Z
  ∧ total_games (page_stats e)
    = (Z.of_nat (wins e) + losses (page_stats e))%Z.
Proof.
  intros Hrun He. apply process_reports_ok in Hrun.
  pose proof (apply_manual_adjustments_ok adjustments _ Hrun) as Hadjusted.
  destruct (Hadjusted _ _ He) as (_ & _ & Hgames & Hwins & Hans & Hosp & _).
  unfold page_stats. simpl. lia.
Qed.

(** On [three_reports] and [two_adjustments], for the player [1]. *)
Lemma player_page_losses_add_up_witness :
  ∃ e, apply_manual_adjustments (model := Examples.example_model)
         MoreExamples.processed_three_reports.2
         MoreExamples.two_adjustments !! "1" = Some e
       ∧ (0 ≤ losses (page_stats e))%Z
       ∧ losses (page_stats e)
         = (ans_losses (page_stats e) + osp_losses (page_stats e))%Z.
Proof.
  destruct (apply_manual_adjustments (model := Examples.example_model)
              MoreExamples.processed_three_reports.2
              MoreExamples.two_adjustments !! "1") as [e|] eqn:He.
  - exists e. split; [reflexivity|].
    destruct (player_page_losses_add_up (H := Examples.example_model)
                MoreExamples.three_reports MoreExamples.two_adjustments
                _ _ "1" e example_three_reports He)
      as (Hl & _ & _ & Hsum & _).
    by split.
  - vm_compute in He. discriminate He.
Defined.

(** ** Records with any number of teams *)

Lemma bind_Raise {A B : Type} (m : result A) (f : A → result B) e :
  m = Raise e → m ≫= f = Raise e.
Proof. by intros ->. Qed.

Lemma bind_step {A B : Type} (m : result A) (f : A → result B) a :
  m = Ok a → m ≫= f = f a.
Proof. by intros ->. Qed.

Lemma dict_pop_total {V : Type} k (d : dict V) :
  k ∈ d.*1 → ∃ v r, dict_pop k d = Ok (v, r).
Proof.
  induction d as [|[k' v'] d IH]; [by intros ?%elem_of_nil|].
  rewrite fmap_cons. cbn [fst dict_pop]. intros Hin.
  destruct (decide (k' = k)) as [->|Hne]; [by eexists _, _|].
  apply elem_of_cons in Hin as [?|Hin]; [congruence|].
  destruct (IH Hin) as (v & r & ->). simpl. by eexists _, _.
Qed.

Lemma find_collected_winner k ts news w rest :
  Forall2 collected ts news →
  dict_pop k news = Ok (w, rest) →
  ∃ rw, snd <$> List.find (λ team, String.eqb team.1 k) ts = Some rw
        ∧ map name w = map player_id rw.
Proof.
  intros Hall. revert w rest.
  induction Hall as [|[t ps] [t' l] ts news [Hkey Hnames] _ IH];
    intros w rest Hpop; [discriminate|].
  simpl in Hkey, Hnames. subst t'. cbn [dict_pop] in Hpop. simpl.
  destruct (decide (t = k)) as [->|Hne].
  - inversion Hpop; subst. rewrite String.eqb_refl. simpl. by exists ps.
  - apply String.eqb_neq in Hne. rewrite Hne.
    bind_inv Hpop as [v r] Hrest. inversion Hpop; subst.
    by apply (IH _ _ Hrest).
Qed.

Lemma find_collected_other k ts news w rest :
  Forall2 collected ts news → NoDup ts.*1 →
  dict_pop k news = Ok (w, rest) →
  match first_team rest with
  | Ok o =>
      ∃ ro, snd <$> List.find (λ team, negb (String.eqb team.1 k)) ts
            = Some ro
            ∧ map name o = map player_id ro
  | Raise e =>
      e = StopIteration
      ∧ List.find (λ team, negb (String.eqb team.1 k)) ts = None
  end.
Proof.
  intros Hall Hnd Hpop.
  destruct Hall as [|[t ps] [t' l] ts news [Hkey Hnames] Hall];
    [discriminate|].
  simpl in Hkey, Hnames. subst t'. cbn [dict_pop] in Hpop.
  rewrite fmap_cons in Hnd. apply NoDup_cons in Hnd as [Ht Hnd].
  cbn [fst] in Ht. cbn [List.find fst].
  destruct (decide (t = k)) as [->|Hne].
  - inversion Hpop; subst. rewrite String.eqb_refl. cbn [negb].
    destruct Hall as [|[t2 ps2] [t2' l2] ts news [Hkey2 Hnames2] Hall];
      simpl; [done|].
    simpl in Hkey2, Hnames2. subst t2'.
    assert (t2 ≠ k) as Hne2.
    { intros ->. apply Ht. rewrite fmap_cons. by left. }
    apply String.eqb_neq in Hne2. rewrite Hne2. simpl. by exists ps2.
  - apply String.eqb_neq in Hne. rewrite Hne. cbn [negb].
    bind_inv Hpop as [v r] Hrest. inversion Hpop; subst. simpl.
    by exists ps.
Qed.

Lemma rating_of_insert `{PlackettLuce} (db : Database) pid e q :
  rating_of (<[pid := e]> db) q
  = if decide (pid = q) then rating_data e else rating_of db q.
Proof.
  unfold rating_of. rewrite lookup_insert.
  by destruct (decide (pid = q)).
Qed.

Section AnyTeams.
Context `{model : PlackettLuce}.

Lemma team_loop_total winner ts :
  rosters_resolved ts →
  ∀ db upd, ∃ db0 upd',
    for_each (process_team winner) ts (db, upd) = Ok (db0, upd').
Proof.
  induction 1 as [|[tid ps] ts Hps _ IH]; intros db upd; [by eexists _, _|].
  simpl in Hps. cbn [for_each].
  destruct (process_players_total winner tid ps ps Hps db [])
    as (db1 & l & Hplayers).
  assert (process_team winner (tid, ps) (db, upd)
          = Ok (db1, dict_set tid l upd)) as ->.
  { unfold process_team. by rewrite Hplayers. }
  apply IH.
Qed.

Lemma team_loop_collected winner ts :
  ∀ db upd db0 upd',
    names_ok db → NoDup ts.*1 →
    (∀ k, k ∈ ts.*1 → k ∉ upd.*1) →
    for_each (process_team winner) ts (db, upd) = Ok (db0, upd') →
    names_ok db0
    ∧ (∀ q, is_Some (db !! q) ∨ q ∈ map player_id (concat (map snd ts)) →
            is_Some (db0 !! q))
    ∧ ∃ news, upd' = upd ++ news ∧ Forall2 collected ts news.
Proof.
  induction ts as [|[tid ps] ts IH];
    intros db upd db0 upd' Hdb Hnd Hfresh Hrun.
  { simpl in Hrun. inversion Hrun; subst. split; [done|]. split.
    - intros q [?|Hq]; [done|]. by apply elem_of_nil in Hq.
    - exists []. by rewrite app_nil_r. }
  rewrite fmap_cons in Hnd. apply NoDup_cons in Hnd as [Htid Hnd].
  cbn [fst] in Htid.
  cbn [for_each] in Hrun. bind_inv Hrun as [db1 upd1] Hstep.
  apply process_team_Ok in Hstep as (l & Hplayers & ->).
  destruct (process_players_spec _ _ _ _ _ _ _ _ Hplayers Hdb)
    as (Hdb1 & Hl & _ & _ & Hdom1).
  simpl in Hl.
  rewrite dict_set_new in Hrun by (apply Hfresh; rewrite fmap_cons; by left).
  assert (∀ k, k ∈ ts.*1 → k ∉ (upd ++ [(tid, l)]).*1) as Hfresh1.
  { intros k Hk. rewrite fmap_app, not_elem_of_app. split.
    - apply Hfresh. rewrite fmap_cons. by right.
    - simpl. intros [->|Hin]%elem_of_cons; [done|].
      by apply elem_of_nil in Hin. }
  destruct (IH _ _ _ _ Hdb1 Hnd Hfresh1 Hrun)
    as (Hdb0 & Hdom0 & news & -> & Hnews).
  split; [done|]. split.
  - intros q Hq. apply Hdom0. simpl in Hq. rewrite map_app in Hq.
    rewrite elem_of_app in Hq.
    destruct Hq as [Hq|[Hq|Hq]]; [left; apply Hdom1; by left
                                 |left; apply Hdom1; by right
                                 |by right].
  - exists ((tid, l) :: news). split; [by rewrite <- app_assoc|].
    constructor; [done|done].
Qed.

Lemma team_loop_keeps_ratings winner ts q :
  ∀ db upd db0 upd',
    for_each (process_team winner) ts (db, upd) = Ok (db0, upd') →
    history_of db0 q = history_of db q ∧ rating_of db0 q = rating_of db q.
Proof.
  intros db upd db0 upd' Hrun.
  apply (for_each_invariant (process_team winner)
           (λ st, history_of st.1 q = history_of db q
                  ∧ rating_of st.1 q = rating_of db q) ts)
    with (s := (db, upd)) (s' := (db0, upd')); [|done|done].
  intros [tid ps] [d1 u1] [d2 u2] _ Hinv Hstep. simpl in *.
  apply process_team_Ok in Hstep as (l & Hplayers & _).
  apply (for_each_invariant (process_player winner tid ps)
           (λ st, history_of st.1 q = history_of db q
                  ∧ rating_of st.1 q = rating_of db q) ps)
    with (s := (d1, [])) (s' := (d2, l)); [|done|done].
  intros p [d3 a3] [d4 a4] _ [Hh Hr] Hone. simpl in *.
  apply process_player_entry in Hone as (_ & e' & -> & Hfields).
  destruct Hfields as (_ & Hrating & _ & _ & _ & _ & _ & _ & _ & Hhist & _).
  rewrite history_of_insert, rating_of_insert.
  destruct (decide (player_id p = q)) as [<-|Hne]; [|done].
  rewrite Hhist, Hrating, <- Hh, <- Hr. unfold history_of, rating_of.
  by destruct (d3 !! player_id p).
Qed.

(** The two lists of ratings that are balanced and rated. *)
Lemma collect_teams_any md db db1 w o :
  names_ok db → NoDup (teams md).*1 →
  collect_teams md db = Ok (db1, w, o) →
  ∃ rw ro db0 upd,
    winner_roster md = Some rw ∧ other_roster md = Some ro
    ∧ map name w = map player_id rw ∧ map name o = map player_id ro
    ∧ for_each (process_team (winning_team md)) (teams md) (db, [])
      = Ok (db0, upd)
    ∧ names_ok db0
    ∧ for_each (append_history (time md)) (w ++ o) db0 = Ok db1.
Proof.
  intros Hdb Hnd Hrun. unfold collect_teams in Hrun.
  bind_inv Hrun as [db0 upd] Hloop.
  bind_inv Hrun as [w1 rest] Hpop.
  bind_inv Hrun as o1 Hfirst.
  bind_inv Hrun as db1' Happ. inversion Hrun; subst; clear Hrun.
  assert (∀ k, k ∈ (teams md).*1 → k ∉ (@nil (string * list Rating)).*1)
    as Hfresh by (intros k _; apply not_elem_of_nil).
  destruct (team_loop_collected _ _ _ _ _ _ Hdb Hnd Hfresh Hloop)
    as (Hdb0 & _ & news & -> & Hnews).
  rewrite app_nil_l in Hpop.
  destruct (find_collected_winner _ _ _ _ _ Hnews Hpop) as (rw & Hrw & Hw).
  pose proof (find_collected_other _ _ _ _ _ Hnews Hnd Hpop) as Hother.
  rewrite Hfirst in Hother. destruct Hother as (ro & Hro & Ho).
  exists rw, ro, db0, news. by repeat split.
Qed.

End AnyTeams.

Lemma example_three_teams :
  process_match_result (model := Examples.example_model)
    Examples.match_three_teams [] ∅
  = Ok TeamExamples.processed_three_teams.
Proof. vm_compute. reflexivity. Qed.

Section Rated.
Context `{model : PlackettLuce}.

Lemma padded_names w o r :
  r ∈ concat [w ++ repeat (padding_of w) (length o - length w);
              o ++ repeat (padding_of o) (length w - length o)] →
  name r ∈ map name (w ++ o) ∨ name r = TEST_PLAYER.
Proof.
  simpl. rewrite app_nil_r, !elem_of_app, map_app, elem_of_app.
  assert (∀ team k, r ∈ repeat (padding_of team) k → name r = TEST_PLAYER)
    as Hpadded.
  { intros team k Hr. by apply list_elem_of_In, repeat_spec in Hr as ->. }
  intros [[Hr|Hr]|[Hr|Hr]].
  - left. left. by apply list_elem_of_fmap_2.
  - right. by eapply Hpadded.
  - left. right. by apply list_elem_of_fmap_2.
  - right. by eapply Hpadded.
Qed.

Lemma rated_names_padded w o r :
  rate_keeps_names →
  r ∈ concat (rate [w ++ repeat (padding_of w) (length o - length w);
                    o ++ repeat (padding_of o) (length w - length o)]) →
  name r ∈ map name (w ++ o) ∨ name r = TEST_PLAYER.
Proof.
  intros Hrate Hr.
  assert (name r ∈ map name (concat (rate
            [w ++ repeat (padding_of w) (length o - length w);
             o ++ repeat (padding_of o) (length w - length o)]))) as Hname
    by (by apply list_elem_of_fmap_2).
  rewrite rated_names in Hname by done.
  apply list_elem_of_fmap in Hname as (r' & -> & Hr').
  by apply padded_names.
Qed.

End Rated.

(** X19: of a record with more than two teams, only the winning team and the
    first of the other teams, in the order of the record, are rated: a
    player who is in neither of these two rosters keeps the rating and the
    history, also a player of a third team, whose games are counted.  The
    identifiers of the teams are pairwise different, the database stores
    each rating under its own name and [rate] keeps the names. *)
Theorem only_two_teams_are_rated `{PlackettLuce}
  (match_data match_data' : MatchData)
  (match_history match_history' : list MatchData)
  (database database' : Database) (pid : string) :
  accepted match_data = true →
  NoDup (teams match_data).*1 →
  names_ok database →
  rate_keeps_names →
  process_match_result match_data match_history database
  = Ok (match_data', match_history', database') →
  pid ∉ rated_ids match_data →
  rating_of database' pid = rating_of database pid
  ∧ history_of database' pid = history_of database pid
  ∧ games_of database' pid
    = games_of database pid + occurrences pid (roster_ids match_data).
Proof.
  intros Hacc Hnd Hdb Hrate Hrun Hpid.
  assert (games_of database' pid
          = games_of database pid + occurrences pid (roster_ids match_data))
    as Hgames.
  { unfold roster_ids. rewrite <- weighted_entries_every.
    apply (counter_match games_played (winning_team match_data) every_entry)
      with (hist := match_history) (md' := match_data')
           (hist' := match_history'); try done.
    intros tid players p db acc db' acc' Hstep. counter_of_entry Hstep. }
  apply process_match_result_Ok in Hrun
    as (db1 & w' & o' & am & asg & Hpad & _ & _ & _ & Hwrite & _);
    [|by apply accepted_not_skipped].
  apply padded_teams_Ok in Hpad as (w & o & Hcollect & Hbal).
  apply balance_teams_Ok in Hbal as (_ & _ & -> & ->).
  apply collect_teams_any in Hcollect
    as (rw & ro & db0 & upd & Hrw & Hro & Hw & Ho & Hloop & Hdb0 & Happ);
    [|done|done].
  unfold rated_ids in Hpid. rewrite Hrw, Hro in Hpid. simpl in Hpid.
  rewrite map_app, <- Hw, <- Ho, <- map_app in Hpid.
  assert (database' !! pid = db0 !! pid) as Hsame.
  { transitivity (db1 !! pid).
    - eapply write_back_loop_frame; [|exact Hwrite].
      intros r Hr Hname.
      destruct (rated_names_padded w o r Hrate Hr) as [Hin|Htest];
        [|congruence].
      rewrite Hname in Hin. done.
    - eapply append_loop_frame; [|exact Happ]. exact Hpid. }
  destruct (team_loop_keeps_ratings _ _ pid _ _ _ _ Hloop) as [Hh Hr].
  split; [|split; [|done]].
  - rewrite <- Hr. unfold rating_of. by rewrite Hsame.
  - rewrite <- Hh. unfold history_of. by rewrite Hsame.
Qed.

(** On [match_three_teams]: the player [c] of the third team has one game,
    the initial rating and no history. *)
Lemma only_two_teams_are_rated_witness :
  rating_of (H := Examples.example_model)
    TeamExamples.processed_three_teams.2 "c"
  = rating_of (H := Examples.example_model) ∅ "c"
  ∧ history_of TeamExamples.processed_three_teams.2 "c" = []
  ∧ games_of TeamExamples.processed_three_teams.2 "c" = 1.
Proof.
  refine (only_two_teams_are_rated (H := Examples.example_model)
            Examples.match_three_teams _ [] _ ∅ _ "c" eq_refl _
            names_ok_empty example_rate_keeps_names example_three_teams _).
  - apply (bool_decide_unpack _). vm_compute. exact I.
  - apply (bool_decide_unpack _). vm_compute. exact I.
Defined.

(** ** How the processing of a record ends *)

Section Outcome.
Context `{model : PlackettLuce}.

Lemma players_loop_unresolved winner tid players todo :
  ¬ Forall (λ p, faction_ok (faction p) = true) todo →
  ∀ db acc,
    for_each (process_player winner tid players) todo (db, acc)
    = Raise AssertionError.
Proof.
  induction todo as [|p todo IH]; intros Hbad db acc;
    [exfalso; apply Hbad; constructor|].
  cbn [for_each].
  destruct (faction_ok (faction p)) eqn:Hp.
  - destruct (process_players_total winner tid players [p]
                ltac:(by repeat constructor) db acc) as (db1 & acc1 & Hone).
    cbn [for_each] in Hone.
    destruct (process_player winner tid players p (db, acc))
      as [[db2 acc2]|e]; [|discriminate].
    apply IH. intros Hall. apply Hbad. by constructor.
  - unfold process_player. by rewrite Hp.
Qed.

Lemma team_loop_unresolved winner ts :
  ¬ rosters_resolved ts →
  ∀ db upd,
    for_each (process_team winner) ts (db, upd) = Raise AssertionError.
Proof.
  unfold rosters_resolved.
  induction ts as [|[tid ps] ts IH]; intros Hbad db upd;
    [exfalso; apply Hbad; constructor|].
  cbn [for_each].
  destruct (decide (Forall (λ p, faction_ok (faction p) = true) ps))
    as [Hps|Hps].
  - destruct (process_players_total winner tid ps ps Hps db [])
      as (db1 & l & Hplayers).
    assert (process_team winner (tid, ps) (db, upd)
            = Ok (db1, dict_set tid l upd)) as ->
      by (unfold process_team; by rewrite Hplayers).
    apply IH. intros Hall. apply Hbad. by constructor.
  - unfold process_team.
    by rewrite (players_loop_unresolved winner tid ps ps Hps).
Qed.

Lemma find_roster (f : string * list PlayerInfo → bool) ts r p :
  snd <$> List.find f ts = Some r → p ∈ r →
  player_id p ∈ map player_id (concat (map snd ts)).
Proof.
  destruct (List.find f ts) as [[tid ps]|] eqn:Hfind; [|discriminate].
  simpl. intros Hr Hp. inversion Hr; subst.
  apply find_some in Hfind as [Hin _]. apply list_elem_of_fmap_2.
  apply list_elem_of_In, in_concat. exists r.
  split; [|by apply list_elem_of_In].
  apply in_map_iff. by exists (tid, r).
Qed.

Lemma collect_teams_cases md db :
  accepted md = true → NoDup (teams md).*1 → names_ok db →
  rosters_resolved (teams md) →
  (other_roster md = None ∧ collect_teams md db = Raise StopIteration)
  ∨ (∃ rw ro db1 w o,
        winner_roster md = Some rw ∧ other_roster md = Some ro
        ∧ collect_teams md db = Ok (db1, w, o)
        ∧ map name w = map player_id rw ∧ map name o = map player_id ro
        ∧ names_ok db1
        ∧ ∀ q, q ∈ map name (w ++ o) → history_up_to_date (time md) db1 q).
Proof.
  intros Hacc Hnd Hdb Hres.
  destruct (team_loop_total (winning_team md) (teams md) Hres db [])
    as (db0 & upd & Hloop).
  assert (∀ k, k ∈ (teams md).*1 → k ∉ (@nil (string * list Rating)).*1)
    as Hfresh by (intros k _; apply not_elem_of_nil).
  destruct (team_loop_collected _ _ _ _ _ _ Hdb Hnd Hfresh Hloop)
    as (Hdb0 & Hdom0 & news & -> & Hnews).
  rewrite app_nil_l in Hloop.
  assert (news.*1 = (teams md).*1) as Hkeys.
  { clear -Hnews. induction Hnews as [|t u ts news [Hk _] _ IH]; [done|].
    rewrite !fmap_cons. by rewrite Hk, IH. }
  destruct (dict_pop_total (winning_team md) news) as (w & rest & Hpop).
  { rewrite Hkeys. unfold accepted, dict_mem in Hacc.
    apply andb_true_iff in Hacc as [_ Hwin].
    by apply bool_decide_eq_true in Hwin. }
  destruct (find_collected_winner _ _ _ _ _ Hnews Hpop) as (rw & Hrw & Hw).
  pose proof (find_collected_other _ _ _ _ _ Hnews Hnd Hpop) as Hother.
  destruct (first_team rest) as [o|e] eqn:Hfirst.
  - destruct Hother as (ro & Hro & Ho). right.
    destruct (append_loop_total (time md) (w ++ o) db0) as [db1 Happ].
    { intros r Hr. apply Hdom0. right.
      assert (name r ∈ map name (w ++ o)) as Hname
        by (by apply list_elem_of_fmap_2).
      rewrite map_app, Hw, Ho, elem_of_app in Hname.
      destruct Hname as [Hname|Hname];
        apply list_elem_of_fmap in Hname as (p & Hp1 & Hp); rewrite Hp1;
        [exact (find_roster _ _ _ _ Hrw Hp)
        |exact (find_roster _ _ _ _ Hro Hp)]. }
    destruct (append_loop_spec _ _ _ _ Happ Hdb0) as (Hdb1 & _ & _ & Hup).
    exists rw, ro, db1, w, o. split; [done|]. split; [done|].
    split; [|split; [done|split; [done|split; [done|]]]].
    + unfold collect_teams. rewrite Hloop. simpl. rewrite Hpop. simpl.
      rewrite Hfirst. simpl. by rewrite Happ.
    + intros q Hq. apply Hup. by right.
  - destruct Hother as [-> Hnone]. left. split.
    + unfold other_roster. by rewrite Hnone.
    + unfold collect_teams. rewrite Hloop. simpl. rewrite Hpop. simpl.
      by rewrite Hfirst.
Qed.

Lemma process_match_result_raises md hist db e :
  accepted md = true →
  collect_teams md db = Raise e →
  process_match_result md hist db = Raise e.
Proof.
  intros Hacc Hcollect. unfold process_match_result.
  rewrite (accepted_not_skipped _ Hacc). unfold padded_teams.
  by rewrite Hcollect.
Qed.

End Outcome.

Section Ends.
Context `{model : PlackettLuce}.

Lemma empty_roster_divides_by_zero md hist db db1 w o :
  accepted md = true →
  collect_teams md db = Ok (db1, w, o) →
  w = [] ∨ o = [] →
  process_match_result md hist db = Raise ZeroDivisionError.
Proof.
  intros Hacc Hcollect Hempty. unfold process_match_result.
  rewrite (accepted_not_skipped _ Hacc). unfold padded_teams.
  rewrite Hcollect.
  change (Ok (db1, w, o) ≫= ?f) with (f (db1, w, o)). cbv beta iota.
  destruct w as [|r w].
  - destruct o as [|r o]; reflexivity.
  - destruct Hempty as [?| ->]; [done|].
    unfold balance_teams. cbn [length]. rewrite Nat.max_0_r.
    rewrite (pad_team_total (r :: w)) by (cbn [length]; lia).
    reflexivity.
Qed.

Lemma full_rosters_are_processed md hist db db1 w o :
  accepted md = true → rate_keeps_names →
  collect_teams md db = Ok (db1, w, o) →
  names_ok db1 →
  (∀ q, q ∈ map name (w ++ o) → history_up_to_date (time md) db1 q) →
  w ≠ [] → o ≠ [] →
  ∃ r, process_match_result md hist db = Ok r.
Proof.
  intros Hacc Hrate Hcollect Hdb1 Hup Hw Ho.
  unfold process_match_result.
  rewrite (accepted_not_skipped _ Hacc). unfold padded_teams.
  rewrite Hcollect. simpl.
  rewrite balance_teams_total by done. simpl.
  set (w' := w ++ repeat (padding_of w) (length o - length w)).
  set (o' := o ++ repeat (padding_of o) (length w - length o)).
  assert (length w' + length o' ≠ 0) as Hlen.
  { unfold w'. rewrite length_app. destruct w; [done|]. simpl. lia. }
  unfold py_div. destruct (length w' + length o') as [|n] eqn:Hn; [done|].
  simpl.
  destruct (write_back_loop_total (time md) (concat (rate [w'; o'])) db1)
    as [db' Hwrite]; [done| |].
  - intros r Hr.
    destruct (rated_names_padded w o r Hrate Hr) as [Hin|Htest];
      [right; by apply Hup | by left].
  - rewrite Hwrite. simpl. by eexists.
Qed.

End Ends.

(** X20: how the processing of an accepted record ends, when the identifiers
    of its teams are pairwise different, the database stores each rating
    under its own name and [rate] keeps the names.  A player with a faction
    other than ANS and OSP makes it raise [AssertionError].  Otherwise a
    record with the winning team only raises [StopIteration]; a record in
    which the roster of the winning team or that of the first other team is
    empty raises [ZeroDivisionError]; and every other record is processed to
    the end. *)
Theorem processing_ends_as_the_rosters_tell `{PlackettLuce}
  (match_data : MatchData) (match_history : list MatchData)
  (database : Database) :
  accepted match_data = true →
  NoDup (teams match_data).*1 →
  names_ok database →
  rate_keeps_names →
  (¬ rosters_resolved (teams match_data) →
   process_match_result match_data match_history database
   = Raise AssertionError)
  ∧ (rosters_resolved (teams match_data) →
     other_roster match_data = None →
     process_match_result match_data match_history database
     = Raise StopIteration)
  ∧ (rosters_resolved (teams match_data) →
     ∀ rw ro,
       winner_roster match_data = Some rw →
       other_roster match_data = Some ro →
       (rw = [] ∨ ro = [] →
        process_match_result match_data match_history database
        = Raise ZeroDivisionError)
       ∧ (rw ≠ [] → ro ≠ [] →
          ∃ r, process_match_result match_data match_history database
               = Ok r)).
Proof.
  intros Hacc Hnd Hdb Hrate. split; [|split].
  - intros Hbad. apply process_match_result_raises; [done|].
    unfold collect_teams.
    by rewrite (team_loop_unresolved _ _ Hbad).
  - intros Hres Hnone.
    destruct (collect_teams_cases match_data database Hacc Hnd Hdb Hres)
      as [[_ Hraise]|(rw & ro & db1 & w & o & _ & Hro & _)];
      [|congruence].
    by apply process_match_result_raises.
  - intros Hres rw ro Hrw Hro.
    destruct (collect_teams_cases match_data database Hacc Hnd Hdb Hres)
      as [[Hnone _]|(rw' & ro' & db1 & w & o & Hrw' & Hro' & Hcollect
                     & Hw & Ho & Hdb1 & Hup)];
      [congruence|].
    assert (rw' = rw) as -> by congruence.
    assert (ro' = ro) as -> by congruence.
    assert (w = [] ↔ rw = []) as Hwe.
    { destruct w, rw; try discriminate; done. }
    assert (o = [] ↔ ro = []) as Hoe.
    { destruct o, ro; try discriminate; done. }
    split.
    + intros Hempty.
      apply (empty_roster_divides_by_zero _ _ _ db1 w o); [done|done|tauto].
    + intros Hrwne Hrone.
      apply (full_rosters_are_processed _ _ _ db1 w o); try done; tauto.
Qed.

(** On [match_one_team] and [match_empty_team]. *)
Lemma processing_ends_as_the_rosters_tell_witness :
  process_match_result (model := Examples.example_model)
    TeamExamples.match_one_team [] ∅ = Raise StopIteration
  ∧ process_match_result (model := Examples.example_model)
      TeamExamples.match_empty_team [] ∅ = Raise ZeroDivisionError.
Proof.
  split.
  - refine (proj1 (proj2 (processing_ends_as_the_rosters_tell
                            (H := Examples.example_model)
                            TeamExamples.match_one_team [] ∅ eq_refl _
                            names_ok_empty example_rate_keeps_names)) _ _).
    + apply (bool_decide_unpack _). vm_compute. exact I.
    + by repeat constructor.
    + reflexivity.
  - refine (proj1 (proj2 (proj2 (processing_ends_as_the_rosters_tell
                            (H := Examples.example_model)
                            TeamExamples.match_empty_team [] ∅ eq_refl _
                            names_ok_empty example_rate_keeps_names))
                     _ [Examples.alice] [] eq_refl eq_refl) _).
    + apply (bool_decide_unpack _). vm_compute. exact I.
    + by repeat constructor.
    + by right.
Defined.

(** ** How the run ends *)





Section RunEnds.
Context `{model : PlackettLuce}.




End RunEnds.



(** ** The match pages *)

Lemma dict_get_Some {V : Type} k (d : dict V) :
  k ∈ d.*1 → ∃ v, dict_get k d = Ok v ∧ (k, v) ∈ d.
Proof.
  induction d as [|[k' v'] d IH]; [by intros ?%elem_of_nil|].
  rewrite fmap_cons. cbn [fst dict_get]. intros Hin.
  destruct (decide (k' = k)) as [->|Hne]; [exists v'; split; [done|by left]|].
  apply elem_of_cons in Hin as [?|Hin]; [congruence|].
  destruct (IH Hin) as (v & Hget & Hv). exists v. split; [done|by right].
Qed.

Lemma dict_get_None {V : Type} k (d : dict V) :
  k ∉ d.*1 → dict_get k d = Raise KeyError.
Proof.
  induction d as [|[k' v'] d IH]; [done|].
  rewrite fmap_cons. cbn [fst dict_get].
  intros [Hne Hnotin]%not_elem_of_cons.
  rewrite decide_False by done. by apply IH.
Qed.

Lemma render_match_details_Ok md :
  has_both_teams md = true →
  ∃ page, render_match_details md = Ok page
          ∧ page_time page = time md
          ∧ ("TeamA", players_a page) ∈ teams md
          ∧ ("TeamB", players_b page) ∈ teams md
          ∧ heading_a page = team_heading (winning_team md) "TeamA"
          ∧ heading_b page = team_heading (winning_team md) "TeamB".
Proof.
  unfold has_both_teams, dict_mem.
  intros [Ha Hb]%andb_true_iff.
  apply bool_decide_eq_true in Ha, Hb.
  destruct (dict_get_Some _ _ Ha) as (ra & Hra & Hina).
  destruct (dict_get_Some _ _ Hb) as (rb & Hrb & Hinb).
  eexists. unfold render_match_details. rewrite Hra. simpl. rewrite Hrb.
  simpl. by repeat split.
Qed.

Lemma render_match_details_KeyError md :
  has_both_teams md = false → render_match_details md = Raise KeyError.
Proof.
  unfold has_both_teams, dict_mem. intros Hnot.
  unfold render_match_details.
  destruct (decide ("TeamA" ∈ (teams md).*1)) as [Ha|Ha].
  - destruct (dict_get_Some _ _ Ha) as (ra & -> & _). simpl.
    rewrite dict_get_None; [reflexivity|].
    intros Hb. rewrite !bool_decide_eq_true_2 in Hnot by done. discriminate.
  - rewrite (dict_get_None "TeamA") by done. reflexivity.
Qed.

Lemma render_loop_Ok l :
  Forall (λ md, has_both_teams md = true) l →
  ∀ pages,
    ∃ pages',
      for_each (λ match_data pages,
                  page ← render_match_details match_data;
                  Ok (pages ++ [page])) l pages
      = Ok (pages ++ pages')
      ∧ map page_time pages' = map time l.
Proof.
  induction 1 as [|md l Hmd _ IH]; intros pages.
  { exists []. by rewrite app_nil_r. }
  destruct (render_match_details_Ok md Hmd) as (page & Hpage & Htime & _).
  cbn [for_each]. rewrite Hpage. simpl.
  destruct (IH (pages ++ [page])) as (pages' & -> & Htimes).
  exists (page :: pages'). split; [by rewrite <- app_assoc|].
  simpl. by rewrite Htime, Htimes.
Qed.

Lemma render_loop_KeyError l :
  ¬ Forall (λ md, has_both_teams md = true) l →
  ∀ pages,
    for_each (λ match_data pages,
                page ← render_match_details match_data;
                Ok (pages ++ [page])) l pages
    = Raise KeyError.
Proof.
  induction l as [|md l IH]; intros Hbad pages;
    [exfalso; apply Hbad; constructor|].
  cbn [for_each]. destruct (has_both_teams md) eqn:Hmd.
  - destruct (render_match_details_Ok md Hmd) as (page & -> & _). simpl.
    apply IH. intros Hall. apply Hbad. by constructor.
  - by rewrite render_match_details_KeyError.
Qed.

(** X22: the page of a match is made from the teams [TeamA] and [TeamB] of
    its record.  When the record has both, the page shows their rosters, the
    heading "Winning Team" for the one that the record names as winner and
    "Losing Team" for any other; when one of them is missing,
    [render_match_details] raises [KeyError].  So [render_match_history]
    writes one page for each record, the latest first, when every record
    of the match history has both teams, and raises [KeyError] otherwise. *)
Theorem match_pages_need_TeamA_and_TeamB
  (match_data : MatchData) (match_history : list MatchData) :
  (has_both_teams match_data = true →
   ∃ page, render_match_details match_data = Ok page
           ∧ page_time page = time match_data
           ∧ ("TeamA", players_a page) ∈ teams match_data
           ∧ ("TeamB", players_b page) ∈ teams match_data
           ∧ (heading_a page = "Winning Team"
              ↔ winning_team match_data = "TeamA")
           ∧ (heading_b page = "Winning Team"
              ↔ winning_team match_data = "TeamB"))
  ∧ (has_both_teams match_data = false →
     render_match_details match_data = Raise KeyError)
  ∧ (Forall (λ md, has_both_teams md = true) match_history →
     ∃ pages, render_match_history match_history = Ok pages
              ∧ map page_time pages
                = map time (sorted_match_history match_history))
  ∧ (¬ Forall (λ md, has_both_teams md = true) match_history →
     render_match_history match_history = Raise KeyError).
Proof.
  assert (∀ w t, team_heading w t = "Winning Team" ↔ w = t) as Hheading.
  { intros w t. unfold team_heading.
    destruct (String.eqb_spec w t) as [->|Hne]; [done|].
    split; [discriminate|done]. }
  split; [|split; [|split]].
  - intros Hboth.
    destruct (render_match_details_Ok _ Hboth)
      as (page & Hpage & Htime & Ha & Hb & Hha & Hhb).
    exists page. rewrite Hha, Hhb, !Hheading. by repeat split.
  - apply render_match_details_KeyError.
  - intros Hall. unfold render_match_history.
    assert (Forall (λ md, has_both_teams md = true)
              (sorted_match_history match_history)) as Hsorted.
    { unfold sorted_match_history. by rewrite py_sorted_Permutation. }
    destruct (render_loop_Ok _ Hsorted []) as (pages & Hrun & Htimes).
    by exists pages.
  - intros Hbad. unfold render_match_history. apply render_loop_KeyError.
    intros Hall. apply Hbad. unfold sorted_match_history in Hall.
    by rewrite py_sorted_Permutation in Hall.
Qed.

(** On the match history of a game between the teams [Red] and [Blue]: the
    report is processed, and the match pages cannot be written. *)
Lemma match_pages_need_TeamA_and_TeamB_witness :
  process_reports (model := Examples.example_model)
    [(5%Z, TeamExamples.report_red_blue)]
  = Ok TeamExamples.processed_red_blue
  ∧ render_match_history TeamExamples.processed_red_blue.1 = Raise KeyError.
Proof.
  split; [vm_compute; reflexivity|].
  refine (proj2 (proj2 (proj2 (match_pages_need_TeamA_and_TeamB
                                 Examples.match_2v1
                                 TeamExamples.processed_red_blue.1))) _).
  intros Hall. inversion Hall as [|md l Hmd Hl]. vm_compute in Hmd.
  discriminate Hmd.
Defined.
